(** * Offer copy generation: batch route, scheduler, decoder and schemas

    A shallow embedding of [server/src/routes/offers.ts] (the route handler,
    [processOffer] and [mapWithConcurrency]) and of
    [packages/core/src/schemas/offer.ts] (the zod schemas), together with the
    properties of the specification that concern them.

    Conventions.
    - A JavaScript string is a [string]; every [ascii] stands for one code
      unit, and [String.length] for the [.length] of the source.
    - A promise is modelled by the way it settles, [promise_result]: it is
      fulfilled with a value or rejected with a reason.
    - The JavaScript run-time is single threaded: an [async] function runs
      without interruption from one [await] to the next.  The scheduler is
      therefore a transition system whose steps are the completions of the
      pending invocations of the task function, taken in any order. *)

From Stdlib Require Import ZArith Lia Ascii String.
From stdpp Require Import base option list relations numbers strings.

Open Scope Z_scope.
Open Scope nat_scope.

(** ** Promises *)

Inductive promise_result (E A : Type) : Type :=
| Fulfilled (a : A)
| Rejected (e : E).
Arguments Fulfilled {E A} a.
Arguments Rejected {E A} e.

Definition is_fulfilled {E A} (p : promise_result E A) : bool :=
  match p with Fulfilled _ => true | Rejected _ => false end.

(** ** The bounded concurrency scheduler: [mapWithConcurrency] *)

Module Scheduler.

(** What one [worker()] call is doing: suspended at
    [await fn(items[i], i)], returned because the loop ended, or rejected
    because the awaited promise was. *)
Inductive worker (E : Type) : Type :=
| Awaiting (i : nat)
| Exited
| Threw (e : E).
Arguments Awaiting {E} i.
Arguments Exited {E}.
Arguments Threw {E} e.

Definition is_awaiting {E} (w : worker E) : bool :=
  match w with Awaiting _ => true | _ => false end.
Definition is_exited {E} (w : worker E) : bool :=
  match w with Exited => true | _ => false end.
Definition is_threw {E} (w : worker E) : bool :=
  match w with Threw _ => true | _ => false end.
Definition awaits {E} (i : nat) (w : worker E) : bool :=
  match w with Awaiting j => j =? i | _ => false end.

(** The variables of one call of [mapWithConcurrency]: the cursor
    [nextIndex], the array [results] ([None] is a slot of
    [new Array(items.length)] that was never assigned), the promises in
    [workers], the indices at which [fn] has been called so far, in call
    order, and how the promise returned to the caller has settled, if it has. *)
Record state (R E : Type) : Type := mkState {
  nextIndex : nat;
  results : list (option R);
  workers : list (worker E);
  invoked : list nat;
  settled : option (promise_result E (list (option R)))
}.
Arguments mkState {R E}.
Arguments nextIndex {R E}.
Arguments results {R E}.
Arguments workers {R E}.
Arguments invoked {R E}.
Arguments settled {R E}.

Section mapWithConcurrency.
Context {T R E : Type}.
Variable items : list T.
Variable fn : T -> nat -> promise_result E R.

(** [while (nextIndex < items.length) { const i = nextIndex++; ... await fn(items[i], i) }]:
    from the loop head to the next suspension.  The worker either claims
    the cursor's index, calls [fn] on it and suspends, or leaves the loop. *)
Definition worker_loop (st : state R E) : worker E * state R E :=
  if decide (nextIndex st < length items) then
    (Awaiting (nextIndex st),
     mkState (S (nextIndex st)) (results st) (workers st)
             (invoked st ++ [nextIndex st]) (settled st))
  else (Exited, st).

(** [() => worker()]: one more worker is started and runs up to its first
    [await]; its promise is appended to the array being built. *)
Definition spawn (st : state R E) : state R E :=
  let '(w, st') := worker_loop st in
  mkState (nextIndex st') (results st') (workers st' ++ [w])
          (invoked st') (settled st').

(** [await Promise.all(workers); return results]: the caller's promise is
    fulfilled with [results] once every worker promise is fulfilled. *)
Definition promise_all (st : state R E) : state R E :=
  match settled st with
  | Some _ => st
  | None =>
      if forallb is_exited (workers st) then
        mkState (nextIndex st) (results st) (workers st) (invoked st)
                (Some (Fulfilled (results st)))
      else st
  end.

(** [Promise.all] rejects with the reason of the first worker promise that
    is rejected; later rejections change nothing. *)
Definition promise_all_reject (e : E) (st : state R E) : state R E :=
  match settled st with
  | Some _ => st
  | None =>
      mkState (nextIndex st) (results st) (workers st) (invoked st)
              (Some (Rejected e))
  end.

(** The state in which [mapWithConcurrency] first suspends:
    [Math.min(concurrency, items.length)] workers have been started
    ([Array.from] takes a negative length for 0). *)
Definition launched (concurrency : Z) : nat :=
  Z.to_nat (Z.min concurrency (Z.of_nat (length items))).

Definition mapWithConcurrency (concurrency : Z) : state R E :=
  promise_all
    (Nat.iter (launched concurrency) spawn
              (mkState 0 (replicate (length items) None) [] [] None)).

(** The invocation awaited by worker [w] settles.  If it is fulfilled the
    worker stores the value in its slot and goes round the loop; if it is
    rejected the [await] throws and the worker's promise is rejected.
    (A worker only ever awaits an index below [items.length]; at any other
    index the model has no step.) *)
Definition complete (w : nat) (st : state R E) : option (state R E) :=
  match workers st !! w with
  | Some (Awaiting i) =>
      match items !! i with
      | Some x =>
          match fn x i with
          | Fulfilled r =>
              let '(w', st') :=
                worker_loop (mkState (nextIndex st) (<[i := Some r]> (results st))
                                     (workers st) (invoked st) (settled st)) in
              Some (promise_all
                      (mkState (nextIndex st') (results st')
                               (<[w := w']> (workers st'))
                               (invoked st') (settled st')))
          | Rejected e =>
              Some (promise_all_reject e
                      (mkState (nextIndex st) (results st)
                               (<[w := Threw e]> (workers st))
                               (invoked st) (settled st)))
          end
      | None => None
      end
  | _ => None
  end.

Definition step (st st' : state R E) : Prop := exists w, complete w st = Some st'.

(** The states a call can be in, whatever the order of completion. *)
Definition reachable (concurrency : Z) (st : state R E) : Prop :=
  rtc step (mapWithConcurrency concurrency) st.

(** Number of invocations of [fn] that have started and not settled. *)
Definition inflight (st : state R E) : nat :=
  length (filter (fun w => is_awaiting w = true) (workers st)).

(** No invocation is pending: nothing more can happen. *)
Definition quiescent (st : state R E) : Prop := inflight st = 0.

(** What is left to do: the indices not yet claimed and the invocations not
    yet settled.  Every completion takes one away. *)
Definition remaining (st : state R E) : nat :=
  (length items - nextIndex st) + inflight st.

(** What holds of the variables of a call at every suspension: the cursor
    and the array stay in range; [fn] has been called once at every index
    below the cursor, in order; each claimed index is awaited by a worker,
    or its slot holds the value [fn] gave, or a worker was rejected with the
    reason [fn] gave; the slots from the cursor on are unassigned; a worker
    only exits when the cursor is at the end; and the caller's promise is
    fulfilled only when every worker has exited, rejected only with the
    reason of a rejected worker, and pending only while no worker has been
    rejected and one is still suspended. *)
Record invariant (concurrency : Z) (st : state R E) : Prop := {
  inv_results : length (results st) = length items;
  inv_next : nextIndex st <= length items;
  inv_workers : length (workers st) = launched concurrency;
  inv_invoked : invoked st = seq 0 (nextIndex st);
  inv_awaiting : forall w i,
    workers st !! w = Some (Awaiting i) -> i < nextIndex st;
  inv_slot : forall j x,
    items !! j = Some x -> j < nextIndex st ->
    (exists w, workers st !! w = Some (Awaiting j))
    \/ (exists r, fn x j = Fulfilled r /\ results st !! j = Some (Some r))
    \/ (exists e w, fn x j = Rejected e /\ workers st !! w = Some (Threw e));
  inv_unclaimed : forall j,
    nextIndex st <= j -> j < length items -> results st !! j = Some None;
  inv_threw : forall w e,
    workers st !! w = Some (Threw e) ->
    exists j x, items !! j = Some x /\ fn x j = Rejected e;
  inv_exited : forall w,
    workers st !! w = Some Exited -> nextIndex st = length items;
  inv_fulfilled : forall rs,
    settled st = Some (Fulfilled rs) ->
    rs = results st /\ forall w x, workers st !! w = Some x -> x = Exited;
  inv_rejected : forall e,
    settled st = Some (Rejected e) ->
    exists w, workers st !! w = Some (Threw e);
  inv_pending :
    settled st = None ->
    (forall w e, workers st !! w <> Some (Threw e))
    /\ exists w i, workers st !! w = Some (Awaiting i)
}.

(** Running a call along a given completion order: each entry names the
    worker whose pending invocation settles next (entries naming a worker
    that is not suspended are skipped). *)
Fixpoint run (order : list nat) (st : state R E) : state R E :=
  match order with
  | [] => st
  | w :: order' =>
      match complete w st with
      | Some st' => run order' st'
      | None => run order' st
      end
  end.

(** What the caller of [await mapWithConcurrency(...)] sees: the call runs
    until the returned promise settles, and the caller resumes there. *)
Inductive settles_at : state R E -> state R E -> Prop :=
| settles_now st o :
    settled st = Some o -> settles_at st st
| settles_later st st' st'' :
    settled st = None -> step st st' -> settles_at st' st'' ->
    settles_at st st''.

Fixpoint run_until_settled (order : list nat) (st : state R E) : state R E :=
  match settled st, order with
  | Some _, _ => st
  | None, [] => st
  | None, w :: order' =>
      match complete w st with
      | Some st' => run_until_settled order' st'
      | None => run_until_settled order' st
      end
  end.

(** What holds of the slots at every suspension: no index is awaited by two
    workers; the slot of an awaited index is still unassigned; and an
    assigned slot holds the value [fn] gave at that very index, whose
    invocation has settled. *)
Record slots_invariant (st : state R E) : Prop := {
  slots_distinct : forall w w' i,
    workers st !! w = Some (Awaiting i) ->
    workers st !! w' = Some (Awaiting i) -> w = w';
  slots_awaited : forall w i,
    workers st !! w = Some (Awaiting i) -> results st !! i = Some None;
  slots_assigned : forall j r,
    results st !! j = Some (Some r) ->
    exists x, items !! j = Some x /\ fn x j = Fulfilled r
}.

(** Whether a worker is suspended on the invocation at index [i]. *)
Definition awaited (st : state R E) (i : nat) : bool :=
  existsb (awaits i) (workers st).

(** Whether the promise of the invocation of [fn] at index [i] is rejected. *)
Definition fails (i : nat) : bool :=
  match items !! i with
  | Some x => negb (is_fulfilled (fn x i))
  | None => false
  end.

(** The invocations that have failed so far: the indices at which [fn] has
    been called, whose promise is rejected, and which no worker awaits any
    longer. *)
Definition failed (st : state R E) : list nat :=
  filter (fun i => fails i = true /\ awaited st i = false) (invoked st).

(** Number of workers whose promise is rejected. *)
Definition rejected_workers (st : state R E) : nat :=
  length (filter (fun w => is_threw w = true) (workers st)).

(** What holds of the rejected workers at every suspension: there are as
    many of them as invocations that have failed, and each carries the
    reason of one of these. *)
Record failures_invariant (st : state R E) : Prop := {
  failures_count : rejected_workers st = length (failed st);
  failures_own : forall w e,
    workers st !! w = Some (Threw e) ->
    exists j x, j ∈ failed st /\ items !! j = Some x /\ fn x j = Rejected e
}.

End mapWithConcurrency.

End Scheduler.

(** ** Parsed JSON documents *)

(** The values [JSON.parse] produces, which are also what [req.body] holds.
    The schemas below never look at the value of a number, so integers are
    enough for [JNumber]. *)
#[warnings="-register-all"]
Inductive json : Type :=
| JNull
| JBool (b : bool)
| JNumber (n : Z)
| JString (s : string)
| JArray (elements : list json)
| JObject (fields : list (string * json)).

(** [obj[key]] on the own properties of an object, whose names are
    distinct; [None] is [undefined]. *)
Fixpoint get (key : string) (fields : list (string * json)) : option json :=
  match fields with
  | [] => None
  | (k, v) :: fields' => if String.eqb k key then Some v else get key fields'
  end.

(** ** The fragment of zod used by the schemas

    A schema is its [parse] function: it takes a value that may be
    [undefined] (a missing property) and returns the parsed output, or [None]
    where zod throws a [ZodError]. *)
Module z.

Definition schema (A : Type) : Type := option json -> option A.

(** [z.string()] *)
Definition string : schema String.string :=
  fun v => match v with Some (JString s) => Some s | _ => None end.

(** [.min(n)] and [.max(n)] on a string schema compare [.length]. *)
Definition min (n : nat) (p : schema String.string) : schema String.string :=
  fun v => s ← p v; if n <=? String.length s then Some s else None.
Definition max (n : nat) (p : schema String.string) : schema String.string :=
  fun v => s ← p v; if String.length s <=? n then Some s else None.

(** [.nullable()]: [null] is accepted and kept; [undefined] is not. *)
Definition nullable {A} (p : schema A) : schema (option A) :=
  fun v => match v with Some JNull => Some None | _ => Some <$> p v end.

(** [.optional()]: [undefined] is accepted and kept; [null] is not. *)
Definition optional {A} (p : schema A) : schema (option A) :=
  fun v => match v with None => Some None | _ => Some <$> p v end.

(** [z.enum(values)] *)
Definition enum (values : list String.string) : schema String.string :=
  fun v =>
    match v with
    | Some (JString s) => if bool_decide (s ∈ values) then Some s else None
    | _ => None
    end.

(** [z.array(p)], and [.min(n, message)], [.max(n, message)] on an array
    schema, which compare the number of elements. *)
Definition array {A} (p : schema A) : schema (list A) :=
  fun v =>
    match v with
    | Some (JArray l) => mapM (fun x => p (Some x)) l
    | _ => None
    end.
Definition array_min {A} (n : nat) (p : schema (list A)) : schema (list A) :=
  fun v => l ← p v; if n <=? length l then Some l else None.
Definition array_max {A} (n : nat) (p : schema (list A)) : schema (list A) :=
  fun v => l ← p v; if length l <=? n then Some l else None.

(** [z.object({ ... })]: the input must be an object (not [null], not an
    array); each property of the shape is parsed from the input's property
    of that name.  Without [.strict()] an object schema drops the properties
    it does not name and does not report them, so [shape] only gets to read
    the named ones. *)
Definition object {A} (shape : (String.string -> option json) -> option A)
  : schema A :=
  fun v =>
    match v with
    | Some (JObject fields) => shape (fun key => get key fields)
    | _ => None
    end.

End z.

(** ** [offer-guidelines.ts] and [schemas/offer.ts] *)

Definition OFFER_TYPES : list string :=
  ["discount"; "bundle"; "limited-time"; "loyalty";
   "free-trial"; "referral"; "seasonal"; "clearance"]%string.

Record OfferInput : Type := mkOfferInput {
  offerType : string;
  offerDescription : string;
  existingCopy : option string
}.

Definition offerInputSchema : z.schema OfferInput :=
  z.object (fun input =>
    offerType ← z.enum OFFER_TYPES (input "offerType"%string);
    offerDescription ← z.max 2000 (z.min 1 z.string) (input "offerDescription"%string);
    existingCopy ← z.optional (z.max 5000 z.string) (input "existingCopy"%string);
    Some (mkOfferInput offerType offerDescription existingCopy)).

(** The handler uses the parsed body's [offers]. *)
Definition offerRequestBodySchema : z.schema (list OfferInput) :=
  z.object (fun input =>
    z.array_max 50 (z.array_min 1 (z.array offerInputSchema)) (input "offers"%string)).

Record OfferCopy : Type := mkOfferCopy {
  headline : string;
  subheadline : option string;
  body : string;
  callToAction : string;
  legalDisclaimer : option string
}.

Definition offerCopySchema : z.schema OfferCopy :=
  z.object (fun input =>
    headline ← z.string (input "headline"%string);
    subheadline ← z.nullable z.string (input "subheadline"%string);
    body ← z.string (input "body"%string);
    callToAction ← z.string (input "callToAction"%string);
    legalDisclaimer ← z.nullable z.string (input "legalDisclaimer"%string);
    Some (mkOfferCopy headline subheadline body callToAction legalDisclaimer)).

Inductive Mode : Type := generated | modified.

(** [processingTimeMs], a difference of two readings of the clock, is not
    part of the model. *)
Record OfferResult : Type := mkOfferResult {
  result_offerType : string;
  result_offerDescription : string;
  mode : Mode;
  copy : OfferCopy
}.

(** ** The shapes in the words of the specification *)

(** A property that is text, or an explicit [null]. *)
Definition nullable_text (v : option json) (o : option string) : Prop :=
  match v, o with
  | Some JNull, None => True
  | Some (JString s), Some s' => s = s'
  | _, _ => False
  end.

(** An optional text of bounded length: absent, or present text. *)
Definition optional_text (bound : nat) (v : option json) (o : option string) : Prop :=
  match v, o with
  | None, None => True
  | Some (JString s), Some s' => s = s' /\ String.length s <= bound
  | _, _ => False
  end.

Definition COPY_FIELDS : list string :=
  ["headline"; "subheadline"; "body"; "callToAction"; "legalDisclaimer"]%string.

(** "Exactly the five named fields": five properties, and each of the five
    names among them. *)
Definition exactly_the_five_fields (doc : json) : Prop :=
  match doc with
  | JObject fields =>
      length fields = 5 /\ forall k, k ∈ COPY_FIELDS -> is_Some (get k fields)
  | _ => False
  end.

(** The Structured Output Record a document stands for: the three texts are
    present, the two nullable fields are text or [null]. *)
Definition record_of (doc : json) (copy : OfferCopy) : Prop :=
  match doc with
  | JObject fields =>
      get "headline"%string fields = Some (JString (headline copy))
      /\ nullable_text (get "subheadline"%string fields) (subheadline copy)
      /\ get "body"%string fields = Some (JString (body copy))
      /\ get "callToAction"%string fields = Some (JString (callToAction copy))
      /\ nullable_text (get "legalDisclaimer"%string fields) (legalDisclaimer copy)
  | _ => False
  end.

(** A Task Input within its declared bounds: category tag from the closed
    set, description of length 1 to 2000, existing content absent or of
    length at most 5000. *)
Definition item_within_bounds (item : json) (offer : OfferInput) : Prop :=
  match item with
  | JObject fields =>
      get "offerType"%string fields = Some (JString (offerType offer))
      /\ offerType offer ∈ OFFER_TYPES
      /\ get "offerDescription"%string fields
         = Some (JString (offerDescription offer))
      /\ 1 <= String.length (offerDescription offer) <= 2000
      /\ optional_text 5000 (get "existingCopy"%string fields) (existingCopy offer)
  | _ => False
  end.

(** A Batch Request of valid shape: an object whose [offers] is a sequence
    of 1 to 50 Task Inputs within their bounds. *)
Definition batch_shape (body : option json) (offers : list OfferInput) : Prop :=
  match body with
  | Some (JObject fields) =>
      exists items,
        get "offers"%string fields = Some (JArray items)
        /\ 1 <= length items <= 50
        /\ Forall2 item_within_bounds items offers
  | _ => False
  end.

(** The request body [{ offers: items }]. *)
Definition request_body (items : list json) : option json :=
  Some (JObject [("offers"%string, JArray items)]).

Definition is_text (v : json) : bool :=
  match v with JString _ => true | _ => false end.
Definition is_null (v : json) : bool :=
  match v with JNull => true | _ => false end.

(** The three fields that must be present text. *)
Definition TEXT_FIELDS : list string :=
  ["headline"; "body"; "callToAction"]%string.

(** The document with exactly the five fields of a record. *)
Definition document_of (copy : OfferCopy) : json :=
  JObject
    [("headline", JString (headline copy));
     ("subheadline", from_option JString JNull (subheadline copy));
     ("body", JString (body copy));
     ("callToAction", JString (callToAction copy));
     ("legalDisclaimer", from_option JString JNull (legalDisclaimer copy))]%string.

(** A text of [n] code units. *)
Fixpoint padding (n : nat) : string :=
  match n with
  | 0 => EmptyString
  | S n' => String "x" (padding n')
  end.

(** ** [routes/offers.ts] *)

Module Offers.

Definition PER_OFFER_TIMEOUT_MS : Z := 5000.
Definition BATCH_CONCURRENCY : Z := 10.

(** *** The text operations of the decoder *)

(** The code units below 256 that [\s] matches and [trim] removes: tab,
    line feed, vertical tab, form feed, carriage return, space and
    no-break space. *)
Definition is_ws (c : ascii) : bool :=
  match c with
  | "009" | "010" | "011" | "012" | "013" | " " | "160" => true
  | _ => false
  end%char.

Fixpoint all_ws (s : string) : bool :=
  match s with
  | EmptyString => true
  | String c s' => is_ws c && all_ws s'
  end.

(** Number of code units of [s] that are not white space. *)
Fixpoint nonws (s : string) : nat :=
  match s with
  | EmptyString => 0
  | String c s' => (if is_ws c then 0 else 1) + nonws s'
  end.

Fixpoint trimStart (s : string) : string :=
  match s with
  | EmptyString => EmptyString
  | String c s' => if is_ws c then trimStart s' else s
  end.

Fixpoint trimEnd (s : string) : string :=
  match s with
  | EmptyString => EmptyString
  | String c s' => if all_ws s then EmptyString else String c (trimEnd s')
  end.

(** [s.trim()] *)
Definition trim (s : string) : string := trimEnd (trimStart s).

(** The fence marker, and the rest of [s] after the literal [p] when [s]
    starts with it. *)
Definition fence : string := "```".

Fixpoint strip_prefix (p s : string) : option string :=
  match p, s with
  | EmptyString, _ => Some s
  | String a p', String b s' => if Ascii.eqb a b then strip_prefix p' s' else None
  | String _ _, EmptyString => None
  end.

(** A letter of the pattern under the [i] flag: either case matches. *)
Definition letter (lower upper c : ascii) : bool :=
  Ascii.eqb c lower || Ascii.eqb c upper.

(** One of the letters of the tag. *)
Definition tag_letter (c : ascii) : bool :=
  letter "j" "J" c || letter "s" "S" c || letter "o" "O" c || letter "n" "N" c.

(** Do the first four code units of [s] spell [json] in any case? *)
Definition json_tag_ahead (s : string) : bool :=
  match s with
  | String c1 (String c2 (String c3 (String c4 _))) =>
      letter "j" "J" c1 && letter "s" "S" c2
      && letter "o" "O" c3 && letter "n" "N" c4
  | _ => false
  end.

(** [(?:json)?]: the four letters are consumed when they are there. *)
Definition skip_json_tag (s : string) : string :=
  if json_tag_ahead s then
    match s with
    | String _ (String _ (String _ (String _ s'))) => s'
    | _ => s
    end
  else s.

(** [.replace(/^```(?:json)?\s*/i, '')] *)
Definition strip_opening_fence (s : string) : string :=
  match strip_prefix fence s with
  | Some s' => trimStart (skip_json_tag s')
  | None => s
  end.

(** Does [\s*```\s*$] match the whole of [s]? *)
Definition closing_fence (s : string) : bool :=
  match strip_prefix fence (trimStart s) with
  | Some s' => all_ws s'
  | None => false
  end.

(** [.replace(/\s*```\s*$/, '')]: the match starts at the leftmost position
    from which the pattern reaches the end of the text. *)
Fixpoint strip_closing_fence (s : string) : string :=
  if closing_fence s then EmptyString
  else match s with
       | EmptyString => EmptyString
       | String c s' => String c (strip_closing_fence s')
       end.

(** [const cleaned = text.replace(...).replace(...).trim()] *)
Definition cleaned (text : string) : string :=
  trim (strip_closing_fence (strip_opening_fence text)).

(** Text in the words of the specification.  A text is unwrapped when it
    neither starts with the fence marker nor ends with it (white space may
    follow the closing marker). *)
Fixpoint ends_with_fence (s : string) : bool :=
  match s with
  | EmptyString => false
  | String _ s' =>
      match strip_prefix fence s with
      | Some rest => all_ws rest || ends_with_fence s'
      | None => ends_with_fence s'
      end
  end.

Definition unwrapped (t : string) : bool :=
  negb (String.prefix fence t) && negb (ends_with_fence t).

(** The tag of a fenced JSON block, in any case. *)
Definition is_json_tag (tag : string) : bool :=
  (String.length tag =? 4) && json_tag_ahead tag.

(** [fenced t s]: [s] is [t] wrapped in a fenced code block.  The opening
    marker carries the tag [json] or none, white space may separate the
    markers from the text and follow the closing marker.  (An untagged
    opening marker directly followed by the letters [json] is the tagged
    marker, so an untagged block is either separated from the text or holds
    a text that does not begin with these letters.) *)
Inductive fenced (t : string) : string -> Prop :=
| fenced_json tag w1 w2 w3 :
    is_json_tag tag = true ->
    all_ws w1 = true -> all_ws w2 = true -> all_ws w3 = true ->
    fenced t (fence ++ tag ++ w1 ++ t ++ w2 ++ fence ++ w3)
| fenced_plain w1 w2 w3 :
    all_ws w1 = true -> all_ws w2 = true -> all_ws w3 = true ->
    w1 <> EmptyString \/ json_tag_ahead t = false ->
    fenced t (fence ++ w1 ++ t ++ w2 ++ fence ++ w3).

(** [lines.join('\n')] *)
Definition join_lines (lines : list string) : string :=
  String.concat (String "010" EmptyString) lines.

(** [s.slice(0, n)] *)
Definition slice0 (n : nat) (s : string) : string := substring 0 n s.

(** *** What is thrown and what is answered *)

(** The values that reach the handler's [catch]: a [ChatSDKError] with its
    code; the timeout reason with which the generation call is aborted at
    its deadline; the [Error] that [processOffer] builds when [JSON.parse]
    throws, with the two excerpts that go into its message; the [ZodError]
    of [offerCopySchema.parse], with the document it refused; any other
    [Error]; and a thrown value that is not an [Error]. *)
Inductive thrown : Type :=
| ChatSDKError (code : string)
| TimeoutError
| InvalidJSONError (description60 : string) (text200 : string)
| ZodError (document : json)
| OtherError (message : string)
| NotAnError.

(** The argument of [generateText]. *)
Record GenerateTextRequest (Model : Type) : Type := mkRequest {
  model : Model;
  system : string;
  prompt : string;
  abortSignal_timeout : Z
}.
Arguments mkRequest {Model}.
Arguments model {Model}.
Arguments system {Model}.
Arguments prompt {Model}.
Arguments abortSignal_timeout {Model}.

(** What [res.status(...).json(...)] sends: status 200 with the results
    (and [totalProcessingTimeMs], a clock difference that is left out); the
    response of a [ChatSDKError] with the given code ([error.toResponse()],
    defined outside these files); or status 500 with
    [error: 'Failed to generate offer copy'] and the message of the cause. *)
Inductive response : Type :=
| Status200 (results : list (option OfferResult))
| ChatSDKErrorResponse (code : string)
| Status500 (cause : thrown).

Section route.

(** The collaborators of the route: the provider, the generation call, the
    prompt builder of [offer-guidelines.ts] (its text plays no role here)
    and the built-in [JSON.parse] ([None] where it throws). *)
Context {Model : Type}.
Variable languageModel : string -> promise_result thrown Model.
Variable generateText : GenerateTextRequest Model -> promise_result thrown string.
Variable buildOfferSystemPrompt : string -> string.
Variable JSON_parse : string -> option json.

(** [if (offer.existingCopy)]: [undefined] and the empty string are falsy. *)
Definition truthy (s : option string) : bool :=
  match s with
  | Some (String _ _) => true
  | _ => false
  end.

Definition userPrompt (offer : OfferInput) : string :=
  match existingCopy offer with
  | Some (String _ _ as existing) =>
      join_lines
        ["OFFER DESCRIPTION:"; offerDescription offer; "";
         "EXISTING COPY TO MODIFY:"; existing; "";
         "Please revise the existing copy to better follow the guidelines while preserving the original intent."]%string
  | _ =>
      join_lines
        ["OFFER DESCRIPTION:"; offerDescription offer; "";
         "Please generate new customer-facing copy for this offer."]%string
  end.

(** The decoder: the statements of [processOffer] from [let parsed] to
    [offerCopySchema.parse(parsed)]. *)
Definition decode (offer : OfferInput) (text : string)
  : promise_result thrown OfferCopy :=
  match JSON_parse (cleaned text) with
  | None =>
      Rejected (InvalidJSONError (slice0 60 (offerDescription offer))
                                 (slice0 200 text))
  | Some parsed =>
      match offerCopySchema (Some parsed) with
      | None => Rejected (ZodError parsed)
      | Some copy => Fulfilled copy
      end
  end.

(** [processOffer], paired with the requests it has sent to [generateText],
    in order. *)
Definition processOffer (offer : OfferInput)
  : list (GenerateTextRequest Model) * promise_result thrown OfferResult :=
  let systemPrompt := buildOfferSystemPrompt (offerType offer) in
  match languageModel "chat-model" with
  | Rejected e => ([], Rejected e)
  | Fulfilled model =>
      let request :=
        mkRequest model systemPrompt (userPrompt offer) PER_OFFER_TIMEOUT_MS in
      match generateText request with
      | Rejected e => ([request], Rejected e)
      | Fulfilled text =>
          match decode offer text with
          | Rejected e => ([request], Rejected e)
          | Fulfilled copy =>
              ([request],
               Fulfilled
                 (mkOfferResult (offerType offer) (offerDescription offer)
                    (if truthy (existingCopy offer) then modified else generated)
                    copy))
          end
      end
  end.

(** [async (offer) => processOffer(offer)], the task function of a batch. *)
Definition task (offer : OfferInput) (index : nat)
  : promise_result thrown OfferResult :=
  snd (processOffer offer).

(** The [catch] of the handler and its [return res.status(200)]. *)
Definition respond (outcome : promise_result thrown (list (option OfferResult)))
  : response :=
  match outcome with
  | Fulfilled results => Status200 results
  | Rejected (ChatSDKError code) => ChatSDKErrorResponse code
  | Rejected cause => Status500 cause
  end.

(** The requests that the invocations of the task function at the given
    indices send to [generateText], one after the other. *)
Definition requests_of (offers : list OfferInput) (indices : list nat)
  : list (GenerateTextRequest Model) :=
  flat_map (fun i => match offers !! i with
                     | Some offer => fst (processOffer offer)
                     | None => []
                     end) indices.

(** The handler of [POST /generate] on a request body ([None] when
    [req.body] is [undefined]): the response it sends and the requests sent
    to [generateText] before it.  A body the schema refuses is answered at
    once; otherwise the handler awaits the scheduler.

    [processOffer] is suspended twice, at [await myProvider.languageModel]
    and at [await generateText], and the scheduler sees one invocation of the
    task function.  So a task sends its request when the provider has
    answered it, not when it is called: [sent] lists the tasks whose request
    has gone out when the handler answers, in the order in which they went
    out.  These are tasks that have been called, each once, in any order;
    every task that has settled is among them, and a task still pending may
    or may not be. *)
Inductive handles (body : option json)
  : response -> list (GenerateTextRequest Model) -> Prop :=
| handles_bad_request :
    offerRequestBodySchema body = None ->
    handles body (ChatSDKErrorResponse "bad_request:api") []
| handles_batch offers st outcome sent :
    offerRequestBodySchema body = Some offers ->
    Scheduler.settles_at offers task
      (Scheduler.mapWithConcurrency offers BATCH_CONCURRENCY) st ->
    Scheduler.settled st = Some outcome ->
    sent ⊆+ Scheduler.invoked st ->
    (forall i, i ∈ Scheduler.invoked st ->
       i ∈ sent \/ exists w, Scheduler.workers st !! w = Some (Scheduler.Awaiting i)) ->
    handles body (respond outcome) (requests_of offers sent).

End route.

(** *** The generation call under its deadline *)

(** What the generation service does with a request when it is left alone:
    it answers a number of milliseconds after the call, with text or with a
    failure, or it never answers. *)
Inductive service_behaviour : Type :=
| Answers (after : Z) (answer : promise_result thrown string)
| NeverAnswers.

(** Modelled from the spec: the generation call and its abort signal,
    [generateText] of the package [ai] and [AbortSignal.timeout] of the
    platform, neither of which is among the sources.  Section 4.2: a fixed
    wall-clock deadline is attached to every invocation; if the external
    call has not produced a result by the deadline, the call is cancelled
    and the task fails with a timeout condition rather than blocking
    further.  Section 6: the service accepts a system instruction, a user
    instruction and a cancellation deadline, and returns generated text or
    signals that the deadline was exceeded.

    The call settles with the answer of the service when the answer comes by
    the deadline, and at the deadline with the timeout when it does not.
    The result is the time at which the call settles, in milliseconds from
    the call, and the way it settles. *)
Definition call_under_deadline (deadline : Z) (behaviour : service_behaviour)
  : Z * promise_result thrown string :=
  match behaviour with
  | Answers after answer =>
      if (after <=? deadline)%Z then (after, answer)
      else (deadline, Rejected TimeoutError)
  | NeverAnswers => (deadline, Rejected TimeoutError)
  end.

Section generation.
Context {Model : Type}.
Variable service : GenerateTextRequest Model -> service_behaviour.

(** [generateText] over a service: the deadline is the one of the signal
    that the request carries. *)
Definition generateText_of (request : GenerateTextRequest Model)
  : promise_result thrown string :=
  snd (call_under_deadline (abortSignal_timeout request) (service request)).

(** The time, from the call, at which [await generateText(request)] resumes. *)
Definition settles_after (request : GenerateTextRequest Model) : Z :=
  fst (call_under_deadline (abortSignal_timeout request) (service request)).

End generation.

End Offers.

(** ** The end-to-end example of the specification

    A stub generation service answering with the record of the example, a
    [JSON.parse] restricted to that one text, and a prompt builder that
    returns the category tag.  The service exceeds its deadline on offers of
    type [clearance]. *)
Module Sample.
Import Offers.

Definition quoted (s : string) : string :=
  String "034" (s ++ String "034" EmptyString).

Definition copy_text : string :=
  ("{" ++ quoted "headline" ++ ":" ++ quoted "Save 20%" ++ ","
   ++ quoted "subheadline" ++ ":null,"
   ++ quoted "body" ++ ":" ++ quoted "..." ++ ","
   ++ quoted "callToAction" ++ ":" ++ quoted "Shop Now" ++ ","
   ++ quoted "legalDisclaimer" ++ ":null}")%string.

Definition copy_document : json :=
  JObject [("headline", JString "Save 20%"); ("subheadline", JNull);
           ("body", JString "..."); ("callToAction", JString "Shop Now");
           ("legalDisclaimer", JNull)]%string.

Definition copy_record : OfferCopy :=
  mkOfferCopy "Save 20%" None "..." "Shop Now" None.

Definition JSON_parse (s : string) : option json :=
  if String.eqb s copy_text then Some copy_document else None.

Definition languageModel (id : string) : promise_result thrown unit :=
  Fulfilled ().

Definition buildOfferSystemPrompt (offerType : string) : string := offerType.

Definition generateText (request : GenerateTextRequest unit)
  : promise_result thrown string :=
  if String.eqb (system request) "clearance" then Rejected TimeoutError
  else Fulfilled copy_text.

Definition item (offerType offerDescription : string) : json :=
  JObject [("offerType", JString offerType);
           ("offerDescription", JString offerDescription)]%string.

Definition processOffer :=
  Offers.processOffer languageModel generateText buildOfferSystemPrompt JSON_parse.

Definition handles :=
  Offers.handles languageModel generateText buildOfferSystemPrompt JSON_parse.

Definition newline : string := String "010" EmptyString.

(** The text of the example inside a block tagged [json]. *)
Definition fenced_copy_text : string :=
  (fence ++ "json" ++ newline ++ copy_text ++ newline ++ fence ++ "")%string.

(** A batch of three offers; the service exceeds its deadline on the second. *)
Definition three_items : list json :=
  [item "discount" "20% off shoes"; item "clearance" "Last pairs";
   item "bundle" "Shoes and socks"]%string.

Definition three_offers : list OfferInput :=
  [mkOfferInput "discount" "20% off shoes" None;
   mkOfferInput "clearance" "Last pairs" None;
   mkOfferInput "bundle" "Shoes and socks" None]%string.

Definition task :=
  Offers.task languageModel generateText buildOfferSystemPrompt JSON_parse.

End Sample.

(** ** The response schemas of [schemas/offer.ts] and what [res.json] sends *)

Module ResponseSchemas.

(** [z.number()] *)
Definition number : z.schema Z :=
  fun v => match v with Some (JNumber n) => Some n | _ => None end.

Definition mode_tag (m : Mode) : string :=
  match m with generated => "generated" | modified => "modified" end.

Definition mode_of_tag (tag : string) : option Mode :=
  if String.eqb tag "generated" then Some generated
  else if String.eqb tag "modified" then Some modified
  else None.

(** [z.enum(['generated', 'modified'])], with its output as a [Mode]. *)
Definition modeSchema : z.schema Mode :=
  fun v => tag ← z.enum ["generated"; "modified"]%string v; mode_of_tag tag.

(** A result with the [processingTimeMs] that the result record of the
    route leaves out. *)
Definition offerResultSchema : z.schema (OfferResult * Z) :=
  z.object (fun input =>
    offerType ← z.enum OFFER_TYPES (input "offerType"%string);
    offerDescription ← z.string (input "offerDescription"%string);
    mode ← modeSchema (input "mode"%string);
    copy ← offerCopySchema (input "copy"%string);
    processingTimeMs ← number (input "processingTimeMs"%string);
    Some (mkOfferResult offerType offerDescription mode copy, processingTimeMs)).

Definition offerResponseSchema : z.schema (list (OfferResult * Z) * Z) :=
  z.object (fun input =>
    results ← z.array offerResultSchema (input "results"%string);
    totalProcessingTimeMs ← number (input "totalProcessingTimeMs"%string);
    Some (results, totalProcessingTimeMs)).

(** The JSON text of [res.status(200).json(response)], as a document: the
    properties of each object in the order in which the route (and, for
    [copy], the schema) lists them; a slot of [results] that was never
    assigned is written [null]. *)
Definition result_json (r : option OfferResult) (processingTimeMs : Z) : json :=
  match r with
  | None => JNull
  | Some r =>
      JObject [("offerType", JString (result_offerType r));
               ("offerDescription", JString (result_offerDescription r));
               ("mode", JString (mode_tag (mode r)));
               ("copy", document_of (copy r));
               ("processingTimeMs", JNumber processingTimeMs)]%string
  end.

Definition response_json (results : list (option OfferResult)) (times : list Z)
    (totalProcessingTimeMs : Z) : json :=
  JObject [("results", JArray (zip_with result_json results times));
           ("totalProcessingTimeMs", JNumber totalProcessingTimeMs)]%string.

End ResponseSchemas.

(** ** [client/src/pages/OfferPage.tsx]: import, form state and submission *)

Module OfferPage.
Import Offers.

Record OfferFormEntry : Type := mkEntry {
  id : string;
  entry_offerType : string;
  entry_offerDescription : string;
  entry_existingCopy : string
}.

(** [s.split(sep)] for a separator of one code unit. *)
Fixpoint split (sep : ascii) (s : string) : list string :=
  match s with
  | EmptyString => [EmptyString]
  | String c s' =>
      if Ascii.eqb c sep then EmptyString :: split sep s'
      else match split sep s' with
           | piece :: pieces => String c piece :: pieces
           | [] => [String c EmptyString]
           end
  end.

(** [s.endsWith(suffix)] *)
Fixpoint endsWith (suffix s : string) : bool :=
  String.eqb s suffix
  || match s with
     | EmptyString => false
     | String _ s' => endsWith suffix s'
     end.

(** The notifications of the page. *)
Inductive toast : Type :=
| ToastError (message : string)
| ToastImported (count : nat).

(** [Partial<OfferFormEntry>] *)
Record Patch : Type := mkPatch {
  patch_id : option string;
  patch_offerType : option string;
  patch_offerDescription : option string;
  patch_existingCopy : option string
}.

Section page.

(** [crypto.randomUUID()]: [randomUUID n] is the identifier drawn by the
    call number [n] of the session; the functions that draw identifiers take
    the number of calls made so far.  [String_of] is [String(v)] on a value
    that is not a string, [None] where the conversion throws a [TypeError]
    (on an object or an array that cannot be converted to a primitive value,
    its [toString] being not callable); [JSON_parse] is the built-in, [None]
    where it throws. *)
Variable randomUUID : nat -> string.
Variable JSON_parse : string -> option json.
Variable String_of : json -> option string.

Definition createEmptyEntry (drawn : nat) : OfferFormEntry :=
  mkEntry (randomUUID drawn) "discount" "" "".

(** One pass of the loop body of [parseCsvBatch] up to the [push]: the
    columns of a line, or [None] where the loop [continue]s. *)
Definition parseCsvLine (line : string) : option (string * string * string) :=
  let cols := trim <$> split "," line in
  let offerType := default EmptyString (head cols) in
  if bool_decide (offerType ∈ OFFER_TYPES) then
    Some (offerType, default EmptyString (cols !! 1),
          String.concat "," (drop 2 cols))
  else None.

Definition entry_of_columns (drawn : nat) (j : nat)
    (cols : string * string * string) : OfferFormEntry :=
  mkEntry (randomUUID (drawn + j)) cols.1.1 cols.1.2 cols.2.

Definition parseCsvBatch (drawn : nat) (text : string) : list OfferFormEntry :=
  let lines := split "010" (trim text) in
  if length lines <? 2 then []
  else imap (entry_of_columns drawn) (omap parseCsvLine (tail lines)).

(** [Array.isArray(data) ? data : data.offers ?? []]; [None] where reading
    [offers] of [null] throws. *)
Definition offers_of_data (data : json) : option json :=
  match data with
  | JArray _ => Some data
  | JNull => None
  | JObject fields =>
      match get "offers" fields with
      | None | Some JNull => Some (JArray [])
      | Some offers => Some offers
      end
  | _ => Some (JArray [])
  end.

(** The predicate of [filter]: [item.offerType && OFFER_TYPES.includes(...)];
    [None] where reading a property of [null] throws. *)
Definition keeps (item : json) : option bool :=
  match item with
  | JNull => None
  | JObject fields =>
      match get "offerType" fields with
      | Some (JString offerType) => Some (bool_decide (offerType ∈ OFFER_TYPES))
      | _ => Some false
      end
  | _ => Some false
  end.

(** [String(v ?? '')]: [undefined] and [null] give the empty text, a string
    is itself, and any other value is converted; [None] where the
    conversion throws. *)
Definition String_or_empty (v : option json) : option string :=
  match v with
  | None | Some JNull => Some EmptyString
  | Some (JString s) => Some s
  | Some v => String_of v
  end.

(** [item.offerType], which is a string on every item that [filter] keeps. *)
Definition offerType_of (fields : list (string * json)) : string :=
  match get "offerType" fields with
  | Some (JString offerType) => offerType
  | _ => EmptyString
  end.

(** The callback of [map], after the identifier has been drawn: the three
    columns of an item, [None] where one of the two [String] calls throws. *)
Definition columns_of_item (item : json) : option (string * string * string) :=
  match item with
  | JObject fields =>
      offerDescription ← String_or_empty (get "offerDescription" fields);
      existingCopy ← String_or_empty (get "existingCopy" fields);
      Some (offerType_of fields, offerDescription, existingCopy)
  | _ => Some (EmptyString, EmptyString, EmptyString)
  end.

(** [parseJsonBatch]; [None] where it throws: [JSON.parse] fails, the data
    is [null], [offers] is neither absent, [null] nor an array (it has no
    [filter]), an item is [null], or [String] throws on the description or
    on the existing copy of an item that [filter] has kept. *)
Definition parseJsonBatch (drawn : nat) (text : string)
  : option (list OfferFormEntry) :=
  data ← JSON_parse text;
  arr ← offers_of_data data;
  match arr with
  | JArray items =>
      kept ← mapM keeps items;
      columns ← mapM columns_of_item
                  (filter (fun item => keeps item = Some true) items);
      Some (imap (entry_of_columns drawn) columns)
  | _ => None
  end.

(** [handleFileImport] once the file has been read: what the [try] block
    assigns to [imported] ([None] where the parser throws), then the entries
    of the form afterwards and the notifications shown. *)
Definition imported_from (drawn : nat) (name text : string)
  : option (list OfferFormEntry) :=
  if endsWith ".json" name then parseJsonBatch drawn text
  else Some (parseCsvBatch drawn text).

Definition handleFileImport (drawn : nat) (name text : string)
    (entries : list OfferFormEntry) : list OfferFormEntry * list toast :=
  match imported_from drawn name text with
  | None => (entries, [ToastError "Failed to parse file"])
  | Some imported =>
      if length imported =? 0 then
        (entries, [ToastError "No valid offers found in file"])
      else if 50 <? length imported then
        (take 50 imported,
         [ToastError "Maximum 50 offers per batch"; ToastImported 50])
      else (imported, [ToastImported (length imported)])
  end.

(** The updaters passed to [setEntries]. *)
Definition apply_patch (patch : Patch) (e : OfferFormEntry) : OfferFormEntry :=
  mkEntry (default (id e) (patch_id patch))
          (default (entry_offerType e) (patch_offerType patch))
          (default (entry_offerDescription e) (patch_offerDescription patch))
          (default (entry_existingCopy e) (patch_existingCopy patch)).

Definition updateEntry (entry_id : string) (patch : Patch)
    (prev : list OfferFormEntry) : list OfferFormEntry :=
  (fun e => if String.eqb (id e) entry_id then apply_patch patch e else e)
    <$> prev.

Definition removeEntry (entry_id : string) (prev : list OfferFormEntry)
  : list OfferFormEntry :=
  filter (fun e => id e <> entry_id) prev.

Definition addEntry (drawn : nat) (prev : list OfferFormEntry)
  : list OfferFormEntry :=
  prev ++ [createEmptyEntry drawn].

(** [handleSubmit] up to the [fetch]: the entries whose description is not
    blank, and the items of the body sent, [None] when nothing is sent. *)
Definition valid (entries : list OfferFormEntry) : list OfferFormEntry :=
  filter (fun e => trim (entry_offerDescription e) <> EmptyString) entries.

Definition payload_item (e : OfferFormEntry) : json :=
  JObject
    ([("offerType", JString (entry_offerType e));
      ("offerDescription", JString (entry_offerDescription e))]%string
     ++ match entry_existingCopy e with
        | EmptyString => []
        | existing => [("existingCopy"%string, JString existing)]
        end).

Definition handleSubmit_body (entries : list OfferFormEntry) : option (option json) :=
  match valid entries with
  | [] => None
  | sent => Some (request_body (payload_item <$> sent))
  end.

(** The form: the entries and the number of identifiers drawn so far. *)
Definition form : Type := list OfferFormEntry * nat.

Definition initial_form : form := ([createEmptyEntry 0], 1).

(** What the user can do to the form.  The Add button is disabled from 50
    entries on; a card shows its Remove button when there are at least two
    entries; the select of a card offers the values of [OFFER_TYPES]; the
    two text areas take any text; a file of any name and content can be
    imported.  An import draws an identifier for every entry it yields, and
    an import that throws has drawn one for every item mapped before the
    throw, so the number of identifiers drawn goes up by at least the number
    of entries. *)
Inductive interaction : form -> form -> Prop :=
| click_add entries drawn :
    length entries < 50 ->
    interaction (entries, drawn) (addEntry drawn entries, S drawn)
| click_remove entries drawn e :
    1 < length entries -> e ∈ entries ->
    interaction (entries, drawn) (removeEntry (id e) entries, drawn)
| select_offerType entries drawn e offerType :
    e ∈ entries -> offerType ∈ OFFER_TYPES ->
    interaction (entries, drawn)
      (updateEntry (id e) (mkPatch None (Some offerType) None None) entries, drawn)
| type_offerDescription entries drawn e text :
    e ∈ entries ->
    interaction (entries, drawn)
      (updateEntry (id e) (mkPatch None None (Some text) None) entries, drawn)
| type_existingCopy entries drawn e text :
    e ∈ entries ->
    interaction (entries, drawn)
      (updateEntry (id e) (mkPatch None None None (Some text)) entries, drawn)
| import_file entries drawn name text drawn' :
    drawn + from_option length 0 (imported_from drawn name text) <= drawn' ->
    interaction (entries, drawn)
      ((handleFileImport drawn name text entries).1, drawn').

End page.

(** What every state of the form satisfies: at most 50 entries, each with
    one of the 8 tags. *)
Definition form_ok (f : form) : Prop :=
  length f.1 <= 50 /\ forall e, e ∈ f.1 -> entry_offerType e ∈ OFFER_TYPES.

(** The entry as the Task Input the server reads from its payload item. *)
Definition offer_of_entry (e : OfferFormEntry) : OfferInput :=
  mkOfferInput (entry_offerType e) (entry_offerDescription e)
    (match entry_existingCopy e with
     | EmptyString => None
     | existing => Some existing
     end).

(** The line of a CSV file for three columns. *)
Definition csv_line (cols : string * string * string) : string :=
  (cols.1.1 ++ "," ++ cols.1.2 ++ "," ++ cols.2)%string.

(** A text without the code unit [c]. *)
Fixpoint free_of (c : ascii) (s : string) : bool :=
  match s with
  | EmptyString => true
  | String c' s' => negb (Ascii.eqb c' c) && free_of c s'
  end.

(** A text that can stand in a column: no comma, no line feed, no white
    space at either end. *)
Definition csv_field (s : string) : bool :=
  free_of "," s && free_of "010" s && String.eqb (trim s) s.

(** The text of a CSV file: a header line and one line per row. *)
Definition csv_text (header : string) (rows : list (string * string * string))
  : string :=
  (header ++ String "010" (String.concat (String "010" EmptyString)
                             (csv_line <$> rows)))%string.

End OfferPage.

(** * Properties *)

(** ** The scheduler *)

Module SchedulerFacts.
Import Scheduler.

Section facts.
Context {T R E : Type}.
Variable items : list T.
Variable fn : T -> nat -> promise_result E R.
Variable concurrency : Z.

Lemma launched_le : launched items concurrency <= length items.
Proof. unfold launched. lia. Qed.

(** Starting [n] workers while indices remain: worker [k] claims index [k]. *)
Lemma iter_spawn n :
  n <= length items ->
  Nat.iter n (spawn items)
    (mkState 0 (replicate (length items) None) [] [] None)
  = mkState (R := R) (E := E) n (replicate (length items) None)
      (Awaiting <$> seq 0 n) (seq 0 n) None.
Proof.
  induction n as [|n IH]; intros Hn; [reflexivity|].
  rewrite Nat.iter_succ, IH by lia.
  rewrite seq_S, fmap_app.
  unfold spawn, worker_loop; simpl.
  destruct (decide (n < length items)) as [_|]; [reflexivity|lia].
Qed.

Lemma forallb_exited_awaiting n :
  forallb (is_exited (E := E)) (Awaiting <$> seq 0 (S n)) = false.
Proof. reflexivity. Qed.

(** The state at the first suspension, in closed form. *)
Lemma mapWithConcurrency_eq :
  mapWithConcurrency (R := R) (E := E) items concurrency
  = match launched items concurrency with
    | 0 => mkState 0 (replicate (length items) None) [] []
                   (Some (Fulfilled (replicate (length items) None)))
    | S n => mkState (S n) (replicate (length items) None)
                     (Awaiting <$> seq 0 (S n)) (seq 0 (S n)) None
    end.
Proof.
  unfold mapWithConcurrency.
  rewrite iter_spawn by apply launched_le.
  destruct (launched items concurrency); reflexivity.
Qed.

Lemma awaiting_seq_lookup (n w : nat) (x : worker E) :
  (Awaiting <$> seq 0 n) !! w = Some x -> x = Awaiting w /\ w < n.
Proof.
  rewrite list_lookup_fmap. intros Hw.
  destruct (seq 0 n !! w) as [k|] eqn:Hk; simplify_eq/=.
  apply lookup_seq in Hk. destruct Hk as [-> ?]. done.
Qed.

Lemma mapWithConcurrency_invariant :
  invariant items fn concurrency (mapWithConcurrency items concurrency).
Proof.
  rewrite mapWithConcurrency_eq.
  pose proof launched_le as Hle.
  destruct (launched items concurrency) as [|n] eqn:Hl.
  - constructor; cbn [nextIndex results workers invoked settled].
    + apply length_replicate.
    + lia.
    + by rewrite Hl.
    + reflexivity.
    + intros [|w] i; discriminate.
    + intros; lia.
    + intros j _ Hj. by apply lookup_replicate_2.
    + intros [|w] e; discriminate.
    + intros [|w]; discriminate.
    + intros rs [= <-]. split; [done|]. intros [|w] x; discriminate.
    + discriminate.
    + discriminate.
  - constructor; cbn [nextIndex results workers invoked settled].
    + apply length_replicate.
    + lia.
    + by rewrite Hl, length_fmap, length_seq.
    + reflexivity.
    + intros w i Hw. apply awaiting_seq_lookup in Hw as [[= ->] ?]. done.
    + intros j x _ Hj. left. exists j.
      by rewrite list_lookup_fmap, lookup_seq_lt.
    + intros j _ Hj. by apply lookup_replicate_2.
    + intros w e Hw. by apply awaiting_seq_lookup in Hw as [? ?].
    + intros w Hw. by apply awaiting_seq_lookup in Hw as [? ?].
    + discriminate.
    + discriminate.
    + intros _. split.
      * intros w e Hw. by apply awaiting_seq_lookup in Hw as [? ?].
      * exists 0, 0. reflexivity.
Qed.

(** [Promise.all] only touches the caller's promise. *)
Lemma nextIndex_promise_all (st : state R E) :
  nextIndex (promise_all st) = nextIndex st.
Proof. unfold promise_all. by repeat case_match. Qed.
Lemma results_promise_all (st : state R E) :
  results (promise_all st) = results st.
Proof. unfold promise_all. by repeat case_match. Qed.
Lemma workers_promise_all (st : state R E) :
  workers (promise_all st) = workers st.
Proof. unfold promise_all. by repeat case_match. Qed.
Lemma invoked_promise_all (st : state R E) :
  invoked (promise_all st) = invoked st.
Proof. unfold promise_all. by repeat case_match. Qed.
Lemma settled_promise_all (st : state R E) :
  settled (promise_all st)
  = match settled st with
    | Some o => Some o
    | None => if forallb is_exited (workers st)
              then Some (Fulfilled (results st)) else None
    end.
Proof. unfold promise_all. by repeat case_match. Qed.

Lemma nextIndex_promise_all_reject e (st : state R E) :
  nextIndex (promise_all_reject e st) = nextIndex st.
Proof. unfold promise_all_reject. by case_match. Qed.
Lemma results_promise_all_reject e (st : state R E) :
  results (promise_all_reject e st) = results st.
Proof. unfold promise_all_reject. by case_match. Qed.
Lemma workers_promise_all_reject e (st : state R E) :
  workers (promise_all_reject e st) = workers st.
Proof. unfold promise_all_reject. by case_match. Qed.
Lemma invoked_promise_all_reject e (st : state R E) :
  invoked (promise_all_reject e st) = invoked st.
Proof. unfold promise_all_reject. by case_match. Qed.
Lemma settled_promise_all_reject e (st : state R E) :
  settled (promise_all_reject e st)
  = match settled st with Some o => Some o | None => Some (Rejected e) end.
Proof. unfold promise_all_reject. by case_match. Qed.

Lemma forallb_exited (ws : list (worker E)) :
  forallb is_exited ws = true <->
  forall w x, ws !! w = Some x -> x = Exited.
Proof.
  induction ws as [|a ws IH]; simpl.
  - split; [intros _ w x Hw; destruct w; discriminate | done].
  - rewrite andb_true_iff, IH. split.
    + intros [Ha Hws] [|w] x Hw; simplify_eq/=.
      * by destruct x.
      * eauto.
    + intros H. split.
      * by rewrite (H 0 a eq_refl).
      * intros w x Hw. apply (H (S w) x Hw).
Qed.

Lemma not_forallb_exited (ws : list (worker E)) :
  forallb is_exited ws = false ->
  exists w x, ws !! w = Some x /\ x <> Exited.
Proof.
  induction ws as [|a ws IH]; simpl; [discriminate|].
  destruct a as [i| |e]; simpl.
  - intros _. by exists 0, (Awaiting i).
  - intros (w & x & Hw & Hx)%IH. by exists (S w), x.
  - intros _. by exists 0, (Threw e).
Qed.

(** The three ways in which a pending invocation settles. *)
Lemma complete_cases w (st st' : state R E) :
  complete items fn w st = Some st' ->
  exists i x, workers st !! w = Some (Awaiting i) /\ items !! i = Some x /\
    ((exists r, fn x i = Fulfilled r /\ nextIndex st < length items /\
        st' = promise_all
                (mkState (S (nextIndex st)) (<[i := Some r]> (results st))
                   (<[w := Awaiting (nextIndex st)]> (workers st))
                   (invoked st ++ [nextIndex st]) (settled st)))
     \/ (exists r, fn x i = Fulfilled r /\ length items <= nextIndex st /\
        st' = promise_all
                (mkState (nextIndex st) (<[i := Some r]> (results st))
                   (<[w := Exited]> (workers st)) (invoked st) (settled st)))
     \/ (exists e, fn x i = Rejected e /\
        st' = promise_all_reject e
                (mkState (nextIndex st) (results st)
                   (<[w := Threw e]> (workers st)) (invoked st) (settled st)))).
Proof.
  unfold complete, worker_loop. intros H.
  destruct (workers st !! w) as [[i| |e]|] eqn:Hw; try discriminate.
  destruct (items !! i) as [x|] eqn:Hx; try discriminate.
  exists i, x. split; [done|]. split; [done|].
  destruct (fn x i) as [r|e] eqn:Hf.
  - cbn [nextIndex] in H.
    destruct (decide (nextIndex st < length items)); simplify_eq/=.
    + left. eauto.
    + right. left. exists r. split; [done|]. split; [lia|done].
  - right. right. simplify_eq/=. eauto.
Qed.

Ltac fields :=
  rewrite ?nextIndex_promise_all, ?results_promise_all, ?workers_promise_all,
    ?invoked_promise_all, ?settled_promise_all,
    ?nextIndex_promise_all_reject, ?results_promise_all_reject,
    ?workers_promise_all_reject, ?invoked_promise_all_reject,
    ?settled_promise_all_reject;
  cbn [nextIndex results workers invoked settled].

Ltac inserted H :=
  apply list_lookup_insert_Some in H as [(<- & H & _)|(? & H)].

(** Every completion preserves the invariant. *)
Lemma complete_invariant w (st st' : state R E) :
  invariant items fn concurrency st ->
  complete items fn w st = Some st' ->
  invariant items fn concurrency st'.
Proof.
  intros Hinv Hc.
  destruct (complete_cases _ _ _ Hc) as (i & x & Hw & Hx & Hcase).
  pose proof (inv_awaiting _ _ _ _ Hinv w i Hw) as Hi.
  pose proof (lookup_lt_Some _ _ _ Hw) as Hwlt.
  pose proof (inv_results _ _ _ _ Hinv) as Hlen.
  pose proof (inv_next _ _ _ _ Hinv) as Hnext.
  assert (Hnf : forall rs, settled st <> Some (Fulfilled rs)).
  { intros rs Hs. destruct (inv_fulfilled _ _ _ _ Hinv rs Hs) as [_ Hall].
    specialize (Hall w _ Hw). discriminate. }
  assert (Hold : forall j y, j <> i -> items !! j = Some y -> j < nextIndex st ->
            forall a r0,
            (exists w', w' <> w /\ workers st !! w' = Some (Awaiting j))
            \/ (exists r', fn y j = Fulfilled r'
                  /\ <[i := r0]> (results st) !! j = Some (Some r'))
            \/ (exists e' w', fn y j = Rejected e'
                  /\ <[w := a]> (workers st) !! w' = Some (Threw e'))).
  { intros j y Hji Hj Hjlt a r0.
    destruct (inv_slot _ _ _ _ Hinv j y Hj Hjlt)
      as [(w' & Hw') | [(r' & Hr' & Hres) | (e' & w' & He' & Hw')]].
    - left. exists w'. split; [|done]. intros ->. congruence.
    - right; left. exists r'. split; [done|].
      by rewrite list_lookup_insert_ne.
    - right; right. exists e', w'. split; [done|].
      rewrite list_lookup_insert_ne; [done|]. intros ->. congruence. }
  destruct Hcase as [(r & Hf & Hlt & ->) | [(r & Hf & Hge & ->) | (e & Hf & ->)]].
  - (* the worker stores its value and claims the next index *)
    constructor; fields.
    + by rewrite length_insert.
    + lia.
    + rewrite length_insert. apply Hinv.
    + rewrite (inv_invoked _ _ _ _ Hinv), seq_S. reflexivity.
    + intros w' i' H. inserted H; [simplify_eq; lia|].
      apply (inv_awaiting _ _ _ _ Hinv) in H. lia.
    + intros j y Hj Hjlt.
      destruct (decide (j = nextIndex st)) as [->|Hjn].
      { left. exists w. by apply list_lookup_insert_eq. }
      destruct (decide (j = i)) as [->|Hji].
      { right; left. exists r. simplify_eq. split; [done|].
        apply list_lookup_insert_eq. lia. }
      destruct (Hold j y Hji Hj ltac:(lia) (Awaiting (nextIndex st)) (Some r))
        as [(w' & Hne & Hw') | [H | H]]; [|by right; left|by right; right].
      left. exists w'. by rewrite list_lookup_insert_ne.
    + intros j Hj1 Hj2. rewrite list_lookup_insert_ne by lia.
      apply (inv_unclaimed _ _ _ _ Hinv); lia.
    + intros w' e H. inserted H; [discriminate|].
      by apply (inv_threw _ _ _ _ Hinv) in H.
    + intros w' H. inserted H; [discriminate|].
      apply (inv_exited _ _ _ _ Hinv) in H. lia.
    + intros rs Hs. destruct (settled st) as [o|] eqn:Hst.
      { simplify_eq. by destruct (Hnf rs). }
      destruct (forallb _ _) eqn:Hall; [|discriminate].
      rewrite forallb_exited in Hall.
      specialize (Hall w (Awaiting (nextIndex st))).
      rewrite list_lookup_insert_eq in Hall by done. by specialize (Hall eq_refl).
    + intros e Hs. destruct (settled st) as [o|] eqn:Hst.
      * simplify_eq. destruct (inv_rejected _ _ _ _ Hinv e Hst) as [w0 Hw0].
        exists w0. rewrite list_lookup_insert_ne; [done|]. intros ->. congruence.
      * destruct (forallb _ _); discriminate.
    + intros Hs. destruct (settled st) as [o|] eqn:Hst; [discriminate|].
      destruct (inv_pending _ _ _ _ Hinv Hst) as [Hno _]. split.
      * intros w' e H. inserted H; [discriminate|]. by apply Hno in H.
      * exists w, (nextIndex st). by apply list_lookup_insert_eq.
  - (* the worker stores its value and leaves the loop *)
    constructor; fields.
    + by rewrite length_insert.
    + lia.
    + rewrite length_insert. apply Hinv.
    + apply Hinv.
    + intros w' i' H. inserted H; [discriminate|].
      by apply (inv_awaiting _ _ _ _ Hinv) in H.
    + intros j y Hj Hjlt.
      destruct (decide (j = i)) as [->|Hji].
      { right; left. exists r. simplify_eq. split; [done|].
        apply list_lookup_insert_eq. lia. }
      destruct (Hold j y Hji Hj Hjlt Exited (Some r))
        as [(w' & Hne & Hw') | [H | H]]; [|by right; left|by right; right].
      left. exists w'. by rewrite list_lookup_insert_ne.
    + intros j Hj1 Hj2. lia.
    + intros w' e H. inserted H; [discriminate|].
      by apply (inv_threw _ _ _ _ Hinv) in H.
    + intros w' H. lia.
    + intros rs Hs. destruct (settled st) as [o|] eqn:Hst.
      { simplify_eq. by destruct (Hnf rs). }
      destruct (forallb _ _) eqn:Hall; [|discriminate].
      rewrite forallb_exited in Hall. by simplify_eq.
    + intros e Hs. destruct (settled st) as [o|] eqn:Hst.
      * simplify_eq. destruct (inv_rejected _ _ _ _ Hinv e Hst) as [w0 Hw0].
        exists w0. rewrite list_lookup_insert_ne; [done|]. intros ->. congruence.
      * destruct (forallb _ _); discriminate.
    + intros Hs. destruct (settled st) as [o|] eqn:Hst; [discriminate|].
      destruct (inv_pending _ _ _ _ Hinv Hst) as [Hno _].
      assert (Hno' : forall w' e,
                <[w := Exited]> (workers st) !! w' <> Some (Threw e)).
      { intros w' e H. inserted H; [discriminate|]. by apply Hno in H. }
      split; [done|].
      destruct (forallb _ _) eqn:Hall; [discriminate|].
      apply not_forallb_exited in Hall as (w' & [i'| |e'] & Hw' & Hx').
      * by exists w', i'.
      * done.
      * by apply Hno' in Hw'.
  - (* the awaited promise is rejected *)
    constructor; fields.
    + done.
    + done.
    + rewrite length_insert. apply Hinv.
    + apply Hinv.
    + intros w' i' H. inserted H; [discriminate|].
      by apply (inv_awaiting _ _ _ _ Hinv) in H.
    + intros j y Hj Hjlt.
      destruct (decide (j = i)) as [->|Hji].
      { right; right. exists e, w. simplify_eq. split; [done|].
        by apply list_lookup_insert_eq. }
      destruct (Hold j y Hji Hj Hjlt (Threw e) None)
        as [(w' & Hne & Hw') | [(r' & ? & H) | H]]; [| |by right; right].
      * left. exists w'. by rewrite list_lookup_insert_ne.
      * right; left. exists r'. split; [done|].
        by rewrite list_lookup_insert_ne in H.
    + apply Hinv.
    + intros w' e' H. inserted H; [simplify_eq; eauto|].
      by apply (inv_threw _ _ _ _ Hinv) in H.
    + intros w' H. inserted H; [discriminate|].
      by apply (inv_exited _ _ _ _ Hinv) in H.
    + intros rs Hs. destruct (settled st) as [o|] eqn:Hst; [|discriminate].
      simplify_eq. by destruct (Hnf rs).
    + intros e' Hs. destruct (settled st) as [o|] eqn:Hst.
      * simplify_eq. destruct (inv_rejected _ _ _ _ Hinv e' Hst) as [w0 Hw0].
        exists w0. rewrite list_lookup_insert_ne; [done|]. intros ->. congruence.
      * simplify_eq. exists w. by apply list_lookup_insert_eq.
    + intros Hs. destruct (settled st); discriminate.
Qed.

Lemma rtc_invariant (st st' : state R E) :
  invariant items fn concurrency st ->
  rtc (step items fn) st st' ->
  invariant items fn concurrency st'.
Proof.
  intros Hinv Hsteps. induction Hsteps as [|st st1 st2 [w Hw] _ IH]; [done|].
  apply IH. by eapply complete_invariant.
Qed.

Lemma reachable_invariant (st : state R E) :
  reachable items fn concurrency st -> invariant items fn concurrency st.
Proof. apply rtc_invariant, mapWithConcurrency_invariant. Qed.

(** *** Counting the pending invocations *)

Lemma inflight_insert (ws : list (worker E)) w a b :
  ws !! w = Some a ->
  length (filter (fun x => is_awaiting x = true) (<[w := b]> ws))
    + (if is_awaiting a then 1 else 0)
  = length (filter (fun x => is_awaiting x = true) ws)
    + (if is_awaiting b then 1 else 0).
Proof.
  revert w. induction ws as [|c ws IH]; intros [|w] Hw; simplify_eq/=.
  - rewrite !filter_cons.
    destruct (decide (is_awaiting b = true)) as [->|Hb%not_true_is_false];
      destruct (decide (is_awaiting a = true)) as [->|Ha%not_true_is_false];
      rewrite ?Hb, ?Ha; simpl; lia.
  - rewrite !filter_cons. specialize (IH w Hw).
    destruct (decide (is_awaiting c = true)); simpl; lia.
Qed.

Lemma inflight_le_workers (st : state R E) :
  inflight st <= length (workers st).
Proof. apply length_filter. Qed.

Lemma awaiting_inflight (st : state R E) w i :
  workers st !! w = Some (Awaiting i) -> 0 < inflight st.
Proof.
  intros Hw. unfold inflight.
  assert (Hin : Awaiting i ∈ filter (fun x => is_awaiting x = true) (workers st)).
  { apply list_elem_of_filter. split; [done|]. by eapply list_elem_of_lookup_2. }
  destruct (filter _ _); [by apply not_elem_of_nil in Hin | simpl; lia].
Qed.

Lemma inflight_awaiting (st : state R E) :
  0 < inflight st -> exists w i, workers st !! w = Some (Awaiting i).
Proof.
  unfold inflight. intros Hpos.
  destruct (filter _ _) as [|a l] eqn:Hf; [simpl in Hpos; lia|].
  assert (Hin : a ∈ filter (fun x => is_awaiting x = true) (workers st))
    by (rewrite Hf; left).
  apply list_elem_of_filter in Hin as [Ha Hin].
  apply list_elem_of_lookup_1 in Hin as [w Hw].
  destruct a as [i| |e]; try discriminate. eauto.
Qed.

(** Every completion uses up one unit of what remains. *)
Lemma complete_remaining w (st st' : state R E) :
  invariant items fn concurrency st ->
  complete items fn w st = Some st' ->
  remaining items st = S (remaining items st').
Proof.
  intros Hinv Hc.
  destruct (complete_cases _ _ _ Hc) as (i & x & Hw & Hx & Hcase).
  unfold remaining, inflight.
  destruct Hcase as [(r & Hf & Hlt & ->) | [(r & Hf & Hge & ->) | (e & Hf & ->)]];
    fields.
  - pose proof (inflight_insert _ _ _ (Awaiting (nextIndex st)) Hw). simpl in *. lia.
  - pose proof (inflight_insert _ _ _ Exited Hw). simpl in *. lia.
  - pose proof (inflight_insert _ _ _ (Threw e) Hw). simpl in *. lia.
Qed.

Lemma mapWithConcurrency_remaining :
  remaining items (mapWithConcurrency (R := R) (E := E) items concurrency)
  = length items.
Proof.
  rewrite mapWithConcurrency_eq. pose proof launched_le as Hle.
  unfold remaining, inflight.
  destruct (launched items concurrency) as [|n]; cbn [nextIndex workers].
  - simpl. lia.
  - assert (Hall : forall k m,
      length (filter (fun x : worker E => is_awaiting x = true)
                (Awaiting <$> seq k m)) = m).
    { intros k m. revert k. induction m as [|m IH]; intros k; [done|].
      rewrite <- cons_seq, fmap_cons, filter_cons_True by done.
      simpl. by rewrite IH. }
    rewrite Hall. lia.
Qed.

Lemma nsteps_remaining n (st st' : state R E) :
  invariant items fn concurrency st ->
  nsteps (step items fn) n st st' ->
  remaining items st = n + remaining items st'.
Proof.
  intros Hinv Hn. induction Hn as [|n st st1 st2 [w Hw] _ IH]; [done|].
  rewrite (complete_remaining _ _ _ Hinv Hw).
  rewrite IH by (by eapply complete_invariant). lia.
Qed.

(** A pending invocation can always settle. *)
Lemma progress (st : state R E) :
  invariant items fn concurrency st ->
  0 < inflight st ->
  exists st', step items fn st st'.
Proof.
  intros Hinv (w & i & Hw)%inflight_awaiting.
  pose proof (inv_awaiting _ _ _ _ Hinv w i Hw) as Hi.
  pose proof (inv_next _ _ _ _ Hinv) as Hnext.
  destruct (lookup_lt_is_Some_2 items i ltac:(lia)) as [x Hx].
  assert (Hc : is_Some (complete items fn w st)).
  { unfold complete. rewrite Hw, Hx.
    destruct (fn x i); [destruct (worker_loop _ _)|]; eauto. }
  destruct Hc as [st' Hc]. exists st', w. done.
Qed.

(** From any state of a call the pending invocations drain. *)
Lemma runs_to_quiescence (st : state R E) :
  invariant items fn concurrency st ->
  exists st', rtc (step items fn) st st' /\ quiescent st'.
Proof.
  remember (remaining items st) as n eqn:Hn.
  revert st Hn. induction n as [|n IH]; intros st Hn Hinv.
  - exists st. split; [done|]. unfold remaining in Hn. unfold quiescent. lia.
  - destruct (decide (inflight st = 0)) as [Hq|Hq]; [by exists st|].
    destruct (progress st Hinv ltac:(lia)) as [st1 [w Hw]].
    pose proof (complete_remaining _ _ _ Hinv Hw) as Hrem.
    destruct (IH st1) as (st2 & Hsteps & Hq2); [lia|by eapply complete_invariant|].
    exists st2. split; [|done]. eapply rtc_l; [by exists w|done].
Qed.

(** The caller's promise settles along every run. *)
Lemma runs_to_settlement (st : state R E) :
  invariant items fn concurrency st ->
  exists st', settles_at items fn st st' /\ is_Some (settled st').
Proof.
  remember (remaining items st) as n eqn:Hn.
  revert st Hn. induction n as [|n IH]; intros st Hn Hinv.
  - destruct (settled st) as [o|] eqn:Ho.
    + exists st. split; [by econstructor|by rewrite Ho].
    + destruct (inv_pending _ _ _ _ Hinv Ho) as [_ (w & i & Hw)].
      apply awaiting_inflight in Hw. unfold remaining in Hn. lia.
  - destruct (settled st) as [o|] eqn:Ho.
    + exists st. split; [by econstructor|by rewrite Ho].
    + destruct (inv_pending _ _ _ _ Hinv Ho) as [_ (w & i & Hw)].
      apply awaiting_inflight in Hw.
      destruct (progress st Hinv Hw) as [st1 [w' Hw']].
      pose proof (complete_remaining _ _ _ Hinv Hw') as Hrem.
      destruct (IH st1) as (st2 & Hsteps & Hs2);
        [lia|by eapply complete_invariant|].
      exists st2. split; [|done]. eapply settles_later; [done|by exists w'|done].
Qed.

Lemma settles_at_rtc (st st' : state R E) :
  settles_at items fn st st' -> rtc (step items fn) st st'.
Proof. induction 1; [done|by eapply rtc_l]. Qed.

Lemma settles_at_settled (st st' : state R E) :
  settles_at items fn st st' -> is_Some (settled st').
Proof. induction 1 as [st o Ho|]; [by rewrite Ho|done]. Qed.

Lemma run_rtc order (st : state R E) :
  rtc (step items fn) st (run items fn order st).
Proof.
  revert st. induction order as [|w order IH]; intros st; simpl; [done|].
  destruct (complete items fn w st) as [st'|] eqn:Hc; [|done].
  eapply rtc_l; [by exists w|done].
Qed.

Lemma run_until_settled_settles order (st : state R E) :
  is_Some (settled (run_until_settled items fn order st)) ->
  settles_at items fn st (run_until_settled items fn order st).
Proof.
  revert st. induction order as [|w order IH]; intros st; simpl.
  - destruct (settled st) as [o|] eqn:Ho.
    + intros _. by econstructor.
    + rewrite Ho. by intros [? ?].
  - destruct (settled st) as [o|] eqn:Ho; [intros _; by econstructor|].
    destruct (complete items fn w st) as [st'|] eqn:Hc.
    + intros Hs. eapply settles_later; [done|by exists w|by apply IH].
    + apply IH.
Qed.

End facts.
End SchedulerFacts.

Module SchedulerTheorems.
Import Scheduler SchedulerFacts.

(** Failure of one task, at scheduler level: whatever the order of
    completion, the caller's promise is never fulfilled, it is rejected by
    the time the invocations have drained, and the reason is the one some
    task of the batch failed with. *)
Lemma mapWithConcurrency_fail_fast {T R E : Type}
    (items : list T) (fn : T -> nat -> promise_result E R) (concurrency : Z)
    (j : nat) (x : T) (e : E) (st : state R E) :
  (1 <= concurrency)%Z ->
  items !! j = Some x -> fn x j = Rejected e ->
  reachable items fn concurrency st ->
  (forall rs, settled st <> Some (Fulfilled rs))
  /\ (quiescent st -> exists e', settled st = Some (Rejected e'))
  /\ (forall e', settled st = Some (Rejected e') ->
        exists j' x', items !! j' = Some x' /\ fn x' j' = Rejected e').
Proof.
  intros HK Hj Hf Hreach.
  pose proof (reachable_invariant _ _ _ _ Hreach) as Hinv.
  assert (Hnf : forall rs, settled st <> Some (Fulfilled rs)).
  { intros rs Hs. destruct (inv_fulfilled _ _ _ _ Hinv rs Hs) as [_ Hall].
    pose proof (lookup_lt_Some _ _ _ Hj) as Hjlt.
    assert (Hl : 0 < length (workers st)).
    { rewrite (inv_workers _ _ _ _ Hinv). unfold launched. lia. }
    destruct (lookup_lt_is_Some_2 _ _ Hl) as [w0 Hw0].
    pose proof (Hall _ _ Hw0) as ->.
    pose proof (inv_exited _ _ _ _ Hinv _ Hw0) as Hnext.
    destruct (inv_slot _ _ _ _ Hinv j x Hj ltac:(lia))
      as [(w & Hw) | [(r & Hr & _) | (e' & w & _ & Hw)]].
    - by apply Hall in Hw.
    - congruence.
    - by apply Hall in Hw. }
  split; [done|]. split.
  - intros Hq. destruct (settled st) as [[rs|e']|] eqn:Hs.
    + by destruct (Hnf rs).
    + by exists e'.
    + destruct (inv_pending _ _ _ _ Hinv Hs) as [_ (w & i & Hw)].
      apply awaiting_inflight in Hw. unfold quiescent in Hq. lia.
  - intros e' Hs. destruct (inv_rejected _ _ _ _ Hinv e' Hs) as [w Hw].
    by apply (inv_threw _ _ _ _ Hinv) in Hw.
Qed.

(** C1. For every list of N items, every cap K >= 1 and every task function
    whose invocations produce their outputs, and whatever the order in which
    the invocations complete: every run of [mapWithConcurrency] comes to an
    end, after at most N completions; at its end the call has returned
    exactly N results, [results[i]] being the output of [fn(items[i], i)];
    and whenever the call has returned, no invocation is pending and every
    one of the [min(K, N)] workers it launched has exited. *)
Theorem mapWithConcurrency_ordered_results {T R E : Type}
    (items : list T) (fn : T -> nat -> promise_result E R) (concurrency : Z) :
  (1 <= concurrency)%Z ->
  (forall i x, items !! i = Some x -> is_fulfilled (fn x i) = true) ->
  forall st, reachable items fn concurrency st ->
    (exists st', rtc (step items fn) st st' /\ quiescent st')
    /\ (forall n, nsteps (step items fn) n
                    (mapWithConcurrency items concurrency) st ->
                  n <= length items)
    /\ (quiescent st ->
        exists rs, settled st = Some (Fulfilled rs)
          /\ length rs = length items
          /\ forall i x, items !! i = Some x ->
               exists r, fn x i = Fulfilled r /\ rs !! i = Some (Some r))
    /\ (forall o, settled st = Some o ->
          quiescent st
          /\ length (workers st) = launched items concurrency
          /\ forall w x, workers st !! w = Some x -> x = Exited).
Proof.
  intros HK Hok st Hreach.
  pose proof (reachable_invariant _ _ _ _ Hreach) as Hinv.
  assert (Hno : forall w e, workers st !! w <> Some (Threw e)).
  { intros w e Hw. apply (inv_threw _ _ _ _ Hinv) in Hw as (j & x & Hj & Hf).
    specialize (Hok j x Hj). by rewrite Hf in Hok. }
  assert (Hexit : quiescent st -> forall w x, workers st !! w = Some x -> x = Exited).
  { intros Hq w [i| |e] Hw; [|done|by apply Hno in Hw].
    apply awaiting_inflight in Hw. unfold quiescent in Hq. lia. }
  split; [by apply (runs_to_quiescence items fn concurrency)|].
  split.
  { intros n Hn.
    pose proof (nsteps_remaining items fn concurrency n _ _
                  (mapWithConcurrency_invariant items fn concurrency) Hn) as H.
    rewrite mapWithConcurrency_remaining in H. lia. }
  split.
  - intros Hq. specialize (Hexit Hq).
    destruct (settled st) as [[rs|e]|] eqn:Hs.
    + destruct (inv_fulfilled _ _ _ _ Hinv rs Hs) as [-> _].
      exists (results st). split; [done|].
      split; [apply Hinv|].
      intros i x Hi. pose proof (lookup_lt_Some _ _ _ Hi) as Hilt.
      assert (Hl : 0 < length (workers st)).
      { rewrite (inv_workers _ _ _ _ Hinv). unfold launched. lia. }
      destruct (lookup_lt_is_Some_2 _ _ Hl) as [w0 Hw0].
      pose proof (Hexit _ _ Hw0) as ->.
      pose proof (inv_exited _ _ _ _ Hinv _ Hw0) as Hnext.
      destruct (inv_slot _ _ _ _ Hinv i x Hi ltac:(lia))
        as [(w & Hw) | [(r & Hr & Hres) | (e' & w & _ & Hw)]].
      * by apply Hexit in Hw.
      * by exists r.
      * by apply Hno in Hw.
    + destruct (inv_rejected _ _ _ _ Hinv e Hs) as [w Hw]. by apply Hno in Hw.
    + destruct (inv_pending _ _ _ _ Hinv Hs) as [_ (w & i & Hw)].
      by apply Hexit in Hw.
  - intros [rs|e] Hs.
    + destruct (inv_fulfilled _ _ _ _ Hinv rs Hs) as [_ Hall].
      split; [|split; [apply Hinv|done]].
      unfold quiescent. destruct (decide (inflight st = 0)) as [|Hne]; [done|].
      destruct (inflight_awaiting st ltac:(lia)) as (w & i & Hw).
      by apply Hall in Hw.
    + destruct (inv_rejected _ _ _ _ Hinv e Hs) as [w Hw]. by apply Hno in Hw.
Qed.

(** C1 at three items and two workers; the second worker's invocations
    complete first.  The results come back in input order all the same. *)
Lemma mapWithConcurrency_ordered_results_witness :
  exists rs,
    settled (run [10; 20; 30] (fun x i => Fulfilled (E := unit) (x + i))
               [1; 1; 0] (mapWithConcurrency [10; 20; 30] 2))
    = Some (Fulfilled rs)
    /\ length rs = 3
    /\ forall i x, [10; 20; 30] !! i = Some x ->
         exists r, Fulfilled (E := unit) (x + i) = Fulfilled r
                   /\ rs !! i = Some (Some r).
Proof.
  destruct (mapWithConcurrency_ordered_results
              [10; 20; 30] (fun x i => Fulfilled (E := unit) (x + i)) 2
              ltac:(lia) ltac:(reflexivity)
              (run [10; 20; 30] (fun x i => Fulfilled (E := unit) (x + i))
                   [1; 1; 0] (mapWithConcurrency [10; 20; 30] 2))
              (run_rtc _ _ _ _))
    as (_ & _ & H & _).
  apply H. reflexivity.
Defined.

(** C3, as stated, fails for a negative cap: no invocation is pending, and
    0 exceeds [min(-1, 1)]. *)
Lemma inflight_bound_fails_for_negative_cap :
  reachable [()] (fun _ _ => Fulfilled (E := unit) ())
    (-1) (mapWithConcurrency [()] (-1))
  /\ ~ (Z.of_nat (inflight (mapWithConcurrency (R := unit) (E := unit) [()] (-1)))
        <= Z.min (-1) (Z.of_nat (length [()])))%Z.
Proof.
  split; [apply rtc_refl|]. vm_compute. intros H. by apply H.
Qed.

(** C3, amended.  For every N items and cap K, at every instant of a run the
    number of invocations of the task function that are in flight is at most
    [max(0, min(K, N))], which is [min(K, N)] for every cap K >= 0. *)
Theorem inflight_bound {T R E : Type}
    (items : list T) (fn : T -> nat -> promise_result E R) (concurrency : Z)
    (st : state R E) :
  reachable items fn concurrency st ->
  (Z.of_nat (inflight st)
   <= Z.max 0 (Z.min concurrency (Z.of_nat (length items))))%Z.
Proof.
  intros Hreach.
  pose proof (reachable_invariant _ _ _ _ Hreach) as Hinv.
  pose proof (inflight_le_workers st) as Hle.
  rewrite (inv_workers _ _ _ _ Hinv) in Hle. unfold launched in Hle. lia.
Qed.

(** C3 at three items and two workers, after one completion. *)
Lemma inflight_bound_witness :
  (Z.of_nat (inflight (run [10; 20; 30]%nat
                         (fun x i : nat => Fulfilled (E := unit) (x + i)%nat)
                         [1%nat] (mapWithConcurrency [10; 20; 30]%nat 2)))
   <= Z.max 0 (Z.min 2 (Z.of_nat (length [10; 20; 30]%nat))))%Z.
Proof.
  apply (inflight_bound [10; 20; 30] (fun x i => Fulfilled (E := unit) (x + i)) 2).
  apply run_rtc.
Defined.

(** C10. For every item list (non-empty in particular) and every cap that is
    zero or negative, [mapWithConcurrency] launches no worker and returns at
    once an array of N slots none of which is assigned; the task function is
    not called, then or later: the call never leaves this state. *)
Theorem mapWithConcurrency_nonpositive_cap {T R E : Type}
    (items : list T) (fn : T -> nat -> promise_result E R) (concurrency : Z) :
  items <> [] ->
  (concurrency <= 0)%Z ->
  let st0 := mapWithConcurrency (R := R) (E := E) items concurrency in
  workers st0 = []
  /\ invoked st0 = []
  /\ settled st0 = Some (Fulfilled (replicate (length items) None))
  /\ results st0 = replicate (length items) None
  /\ length (results st0) = length items
  /\ forall st, reachable items fn concurrency st -> st = st0.
Proof.
  intros _ HK st0. subst st0. rewrite mapWithConcurrency_eq.
  replace (launched items concurrency) with 0 by (unfold launched; lia).
  cbn [workers invoked settled results].
  repeat split; try done.
  - apply length_replicate.
  - intros st Hreach. unfold reachable in Hreach.
    rewrite mapWithConcurrency_eq in Hreach.
    replace (launched items concurrency) with 0 in Hreach
      by (unfold launched; lia).
    inversion Hreach as [|? st1 ? [w Hw] ?]; [done|].
    unfold complete in Hw. cbn [workers] in Hw. by destruct w.
Qed.

(** C10 at three items and the cap -2. *)
Lemma mapWithConcurrency_nonpositive_cap_witness :
  let st0 := mapWithConcurrency (R := nat) (E := unit) [10; 20; 30] (-2) in
  workers st0 = []
  /\ invoked st0 = []
  /\ settled st0 = Some (Fulfilled [None; None; None])
  /\ results st0 = [None; None; None]
  /\ length (results st0) = 3
  /\ forall st,
       reachable [10; 20; 30] (fun x i : nat => Fulfilled (x + i)) (-2) st ->
       st = st0.
Proof.
  apply (mapWithConcurrency_nonpositive_cap
           [10; 20; 30] (fun x i => Fulfilled (E := unit) (x + i)) (-2)).
  - discriminate.
  - lia.
Defined.

End SchedulerTheorems.

(** ** The decoder's text operations *)

Module TextFacts.
Import Offers.
Local Open Scope string_scope.
#[local] Arguments String.append !_ _ / : simpl nomatch.

Lemma append_assoc (a b c : string) : (a ++ b) ++ c = a ++ b ++ c.
Proof. induction a as [|x a IH]; simpl; [done|by f_equal]. Qed.

Lemma all_ws_nonws s : all_ws s = true <-> nonws s = 0.
Proof.
  induction s as [|c s IH]; simpl; [done|].
  rewrite andb_true_iff, IH. destruct (is_ws c); simpl; [tauto|].
  split; [by intros [? _]|lia].
Qed.

Lemma nonws_app a b : nonws (a ++ b) = nonws a + nonws b.
Proof. induction a as [|c a IH]; simpl; [done|]. rewrite IH. lia. Qed.

Lemma all_ws_app a b : all_ws (a ++ b) = all_ws a && all_ws b.
Proof.
  induction a as [|c a IH]; simpl; [done|]. by rewrite IH, andb_assoc.
Qed.

Lemma nonws_trimStart s : nonws (trimStart s) = nonws s.
Proof.
  induction s as [|c s IH]; simpl; [done|].
  destruct (is_ws c) eqn:Hc; simpl; [done|by rewrite Hc].
Qed.

Lemma trimStart_ws_app a b : all_ws a = true -> trimStart (a ++ b) = trimStart b.
Proof.
  induction a as [|c a IH]; simpl; [done|].
  intros [Hc Ha]%andb_true_iff. rewrite Hc. by apply IH.
Qed.

Lemma trimStart_app a b :
  all_ws a = false -> trimStart (a ++ b) = trimStart a ++ b.
Proof.
  induction a as [|c a IH]; simpl; [done|].
  destruct (is_ws c); simpl; [apply IH|done].
Qed.

Lemma all_ws_trimStart s : all_ws s = true -> trimStart s = "".
Proof.
  induction s as [|c s IH]; simpl; [done|].
  intros [Hc Hs]%andb_true_iff. rewrite Hc. by apply IH.
Qed.

Lemma length_trimStart s : String.length (trimStart s) <= String.length s.
Proof.
  induction s as [|c s IH]; simpl; [done|]. destruct (is_ws c); simpl; lia.
Qed.

Lemma trimStart_fixed c s : trimStart (String c s) = String c s -> is_ws c = false.
Proof.
  simpl. destruct (is_ws c); [|done]. intros H.
  pose proof (length_trimStart s) as Hl. rewrite H in Hl. simpl in Hl. lia.
Qed.

Lemma trimStart_idemp s : trimStart (trimStart s) = trimStart s.
Proof.
  induction s as [|c s IH]; simpl; [done|].
  destruct (is_ws c) eqn:Hc; [done|]. simpl. by rewrite Hc.
Qed.

Lemma all_ws_trimEnd s : all_ws (trimEnd s) = all_ws s.
Proof.
  induction s as [|c s IH]; [done|].
  cbn [trimEnd]. destruct (all_ws (String c s)) eqn:Hall; [done|].
  simpl in *. by rewrite IH.
Qed.

Lemma trimEnd_idemp s : trimEnd (trimEnd s) = trimEnd s.
Proof.
  induction s as [|c s IH]; [done|].
  cbn [trimEnd]. destruct (all_ws (String c s)) eqn:Hall; [done|].
  cbn [trimEnd]. replace (all_ws (String c (trimEnd s))) with false.
  - by rewrite IH.
  - simpl in *. by rewrite all_ws_trimEnd.
Qed.

Lemma trimStart_trimEnd u : trimStart u = u -> trimStart (trimEnd u) = trimEnd u.
Proof.
  destruct u as [|c u]; [done|]. intros Hc%trimStart_fixed.
  cbn [trimEnd]. destruct (all_ws (String c u)); [done|].
  simpl. by rewrite Hc.
Qed.

(** Trimming twice is trimming once. *)
Lemma trim_trimEnd_trimStart t : trim (trimEnd (trimStart t)) = trim t.
Proof.
  unfold trim. rewrite trimStart_trimEnd by apply trimStart_idemp.
  apply trimEnd_idemp.
Qed.

Lemma strip_prefix_app p s : strip_prefix p (p ++ s) = Some s.
Proof.
  induction p as [|a p IH]; simpl; [by destruct s|].
  by rewrite Ascii.eqb_refl.
Qed.

Lemma strip_prefix_Some p s r : strip_prefix p s = Some r -> s = p ++ r.
Proof.
  revert s. induction p as [|a p IH]; intros [|b s]; simpl; try congruence.
  destruct (Ascii.eqb_spec a b) as [->|]; [|done].
  intros H. by rewrite (IH _ H).
Qed.

Lemma strip_prefix_prefix p s :
  String.prefix p s = false -> strip_prefix p s = None.
Proof.
  revert s. induction p as [|a p IH]; intros [|b s]; simpl; try done.
  destruct (ascii_dec a b) as [->|Hne].
  - rewrite Ascii.eqb_refl. apply IH.
  - intros _. by destruct (Ascii.eqb_spec a b).
Qed.

Lemma closing_fence_nonws s : closing_fence s = true -> nonws s = 3.
Proof.
  unfold closing_fence. intros H.
  destruct (strip_prefix fence (trimStart s)) as [r|] eqn:Hr; [|done].
  apply strip_prefix_Some in Hr. apply all_ws_nonws in H.
  rewrite <- nonws_trimStart, Hr, nonws_app, H. reflexivity.
Qed.

Lemma closing_fence_ws a b :
  all_ws a = true -> all_ws b = true -> closing_fence (a ++ fence ++ b) = true.
Proof.
  intros Ha Hb. unfold closing_fence.
  rewrite trimStart_ws_app by done.
  change (trimStart (fence ++ b)) with (fence ++ b).
  by rewrite strip_prefix_app.
Qed.

(** The closing pattern matches from a position in front of the closing
    marker exactly when only white space lies between. *)
Lemma closing_fence_before u w2 w3 :
  all_ws w2 = true -> all_ws w3 = true ->
  closing_fence (u ++ w2 ++ fence ++ w3) = all_ws u.
Proof.
  intros H2 H3. destruct (all_ws u) eqn:Hu.
  - rewrite <- append_assoc. apply closing_fence_ws; [|done].
    by rewrite all_ws_app, Hu, H2.
  - destruct (closing_fence _) eqn:Hc; [|done].
    apply closing_fence_nonws in Hc.
    rewrite !nonws_app in Hc.
    apply all_ws_nonws in H2, H3. rewrite H2, H3 in Hc.
    change (nonws fence) with 3 in Hc.
    assert (Hz : nonws u = 0) by lia.
    apply all_ws_nonws in Hz. congruence.
Qed.

Lemma strip_closing_fence_unfold s :
  strip_closing_fence s
  = if closing_fence s then ""
    else match s with
         | "" => ""
         | String c s' => String c (strip_closing_fence s')
         end.
Proof. by destruct s. Qed.

(** The second [replace] removes the closing marker with the white space
    around it, and so trims the end of what precedes. *)
Lemma strip_closing_fence_app u w2 w3 :
  all_ws w2 = true -> all_ws w3 = true ->
  strip_closing_fence (u ++ w2 ++ fence ++ w3) = trimEnd u.
Proof.
  intros H2 H3. induction u as [|c u IH].
  - rewrite strip_closing_fence_unfold.
    by rewrite (closing_fence_before "" w2 w3).
  - rewrite strip_closing_fence_unfold, closing_fence_before by done.
    change (String c u ++ w2 ++ fence ++ w3)
      with (String c (u ++ w2 ++ fence ++ w3)).
    cbn [trimEnd]. destruct (all_ws (String c u)); [done|].
    by rewrite IH.
Qed.

Lemma closing_fence_ends_with_fence s :
  closing_fence s = true -> ends_with_fence s = true.
Proof.
  induction s as [|c s IH]; [done|].
  unfold closing_fence. cbn [trimStart ends_with_fence].
  destruct (is_ws c) eqn:Hc.
  - intros H. specialize (IH H).
    destruct (strip_prefix fence (String c s)); rewrite IH; [apply orb_true_r|done].
  - destruct (strip_prefix fence (String c s)); [|done].
    intros ->. done.
Qed.

Lemma ends_with_fence_tail c s :
  ends_with_fence (String c s) = false -> ends_with_fence s = false.
Proof.
  cbn [ends_with_fence].
  destruct (strip_prefix fence (String c s)); [|done].
  by intros [_ ?]%orb_false_iff.
Qed.

(** The two [replace] calls leave an unwrapped text as it is. *)
Lemma strip_closing_fence_unwrapped s :
  ends_with_fence s = false -> strip_closing_fence s = s.
Proof.
  induction s as [|c s IH]; [done|]. intros H.
  rewrite strip_closing_fence_unfold.
  destruct (closing_fence (String c s)) eqn:Hc.
  - apply closing_fence_ends_with_fence in Hc. congruence.
  - by rewrite IH by (by eapply ends_with_fence_tail).
Qed.

Lemma strip_fences_unwrapped t :
  unwrapped t = true -> strip_closing_fence (strip_opening_fence t) = t.
Proof.
  unfold unwrapped. intros [Hp He]%andb_true_iff.
  apply negb_true_iff in Hp, He.
  unfold strip_opening_fence. rewrite (strip_prefix_prefix _ _ Hp).
  by apply strip_closing_fence_unwrapped.
Qed.

Lemma ws_not_tag_letter c : is_ws c = true -> tag_letter c = false.
Proof.
  intros Hc. unfold tag_letter, letter.
  repeat match goal with
  | |- context [Ascii.eqb c ?l] =>
      destruct (Ascii.eqb_spec c l) as [->|_]; [discriminate Hc|]
  end.
  reflexivity.
Qed.

Lemma json_tag_ahead_ws c s : is_ws c = true -> json_tag_ahead (String c s) = false.
Proof.
  intros Hc%ws_not_tag_letter. unfold tag_letter in Hc.
  apply orb_false_iff in Hc as [[[Hj _]%orb_false_iff _]%orb_false_iff _].
  destruct s as [|? [|? [|? ?]]]; simpl; try done. by rewrite Hj.
Qed.

Lemma json_tag_ahead_app t d r :
  json_tag_ahead t = false -> tag_letter d = false ->
  json_tag_ahead (t ++ String d r) = false.
Proof.
  intros Ht Hd. unfold tag_letter in Hd.
  apply orb_false_iff in Hd as [[[Hj Hs]%orb_false_iff Ho]%orb_false_iff Hn].
  destruct t as [|c1 [|c2 [|c3 [|c4 t]]]]; simpl in *.
  - destruct r as [|? [|? [|? ?]]]; simpl; try done. by rewrite Hj.
  - destruct r as [|? [|? ?]]; simpl; try done.
    by rewrite Hs, andb_false_r.
  - destruct r as [|? ?]; simpl; try done.
    by rewrite Ho, andb_false_r.
  - by rewrite Hn, andb_false_r.
  - done.
Qed.

(** What follows the wrapped text starts with white space or a back-tick. *)
Lemma closing_part_head w2 w3 :
  all_ws w2 = true ->
  exists d r, w2 ++ fence ++ w3 = String d r /\ tag_letter d = false.
Proof.
  destruct w2 as [|c w2]; simpl.
  - intros _. by eexists _, _.
  - intros [Hc _]%andb_true_iff. eexists _, _. split; [done|].
    by apply ws_not_tag_letter.
Qed.

Lemma skip_json_tag_tag tag r : is_json_tag tag = true -> skip_json_tag (tag ++ r) = r.
Proof.
  unfold is_json_tag. intros [Hl Ht]%andb_true_iff.
  destruct tag as [|c1 [|c2 [|c3 [|c4 [|c5 tag]]]]]; try done.
  unfold skip_json_tag. simpl in *. by rewrite Ht.
Qed.

Lemma skip_json_tag_none s : json_tag_ahead s = false -> skip_json_tag s = s.
Proof. unfold skip_json_tag. by intros ->. Qed.

(** The first [replace] on a fenced text removes the opening marker, its tag
    and the white space up to the first other code unit. *)
Lemma strip_opening_fence_fenced t s :
  fenced t s ->
  exists w2 w3, all_ws w2 = true /\ all_ws w3 = true
    /\ strip_opening_fence s = trimStart (t ++ w2 ++ fence ++ w3).
Proof.
  intros [tag w1 w2 w3 Htag H1 H2 H3 | w1 w2 w3 H1 H2 H3 Hsep];
    exists w2, w3; (split; [done|]); (split; [done|]);
    unfold strip_opening_fence; rewrite strip_prefix_app.
  - by rewrite skip_json_tag_tag, trimStart_ws_app.
  - rewrite skip_json_tag_none; [by rewrite trimStart_ws_app|].
    destruct w1 as [|c w1].
    + destruct Hsep as [|Ht]; [done|].
      destruct (closing_part_head w2 w3 H2) as (d & r & -> & Hd).
      by apply json_tag_ahead_app.
    + simpl in H1. apply andb_true_iff in H1 as [Hc _].
      by apply json_tag_ahead_ws.
Qed.

(** Cleaning a fenced text gives the trimmed text. *)
Lemma cleaned_fenced t s : fenced t s -> cleaned s = trim t.
Proof.
  intros (w2 & w3 & H2 & H3 & Hopen)%strip_opening_fence_fenced.
  unfold cleaned. rewrite Hopen.
  destruct (all_ws t) eqn:Ht.
  - rewrite trimStart_ws_app, trimStart_ws_app by done.
    change (trimStart (fence ++ w3)) with ("" ++ "" ++ fence ++ w3).
    rewrite strip_closing_fence_app by done.
    unfold trim. by rewrite (all_ws_trimStart t Ht).
  - rewrite trimStart_app, strip_closing_fence_app by done.
    apply trim_trimEnd_trimStart.
Qed.

Lemma cleaned_unwrapped t : unwrapped t = true -> cleaned t = trim t.
Proof. intros Ht. unfold cleaned. by rewrite strip_fences_unwrapped. Qed.

End TextFacts.

(** ** The schemas *)

Module SchemaFacts.

Lemma z_string_Some v s : z.string v = Some s <-> v = Some (JString s).
Proof.
  unfold z.string. destruct v as [[]|]; split; intros; by simplify_eq.
Qed.

Lemma z_nullable_string_Some v o :
  z.nullable z.string v = Some o <-> nullable_text v o.
Proof.
  unfold z.nullable, z.string, nullable_text.
  destruct v as [[]|], o; simpl; split; intros; by simplify_eq.
Qed.

Lemma z_optional_max_Some n v o :
  z.optional (z.max n z.string) v = Some o <-> optional_text n v o.
Proof.
  unfold z.optional, z.max, z.string, optional_text.
  destruct v as [[]|], o; simpl; try (split; intros; by simplify_eq).
  - destruct (String.length s <=? n) eqn:Hn; simpl.
    + apply Nat.leb_le in Hn. split; [by intros [= ->]|by intros [-> _]].
    + apply Nat.leb_gt in Hn. split; [done|]. intros [_ ?]. lia.
  - destruct (String.length s <=? n); simpl; split; intros; by simplify_eq.
Qed.

Lemma z_enum_Some values v s :
  z.enum values v = Some s <-> v = Some (JString s) /\ s ∈ values.
Proof.
  unfold z.enum. destruct v as [[]|]; try (split; [done|by intros [? _]]).
  case_bool_decide; split.
  - by intros [= ->].
  - by intros [[= ->] _].
  - done.
  - intros [[= ->] ?]. done.
Qed.

Lemma z_min_max_Some lo hi v s :
  z.max hi (z.min lo z.string) v = Some s
  <-> v = Some (JString s) /\ lo <= String.length s <= hi.
Proof.
  unfold z.max, z.min, z.string.
  destruct v as [[]|]; simpl; try (split; [done|by intros [? _]]).
  destruct (lo <=? String.length s0) eqn:Hlo; simpl.
  - apply Nat.leb_le in Hlo.
    destruct (String.length s0 <=? hi) eqn:Hhi.
    + apply Nat.leb_le in Hhi. split; [by intros [= ->]|by intros [[= ->] _]].
    + apply Nat.leb_gt in Hhi. split; [done|]. intros [[= ->] ?]. lia.
  - apply Nat.leb_gt in Hlo. split; [done|]. intros [[= ->] ?]. lia.
Qed.

(** [offerCopySchema] accepts a document exactly when the five named
    properties have their types; it does not look at any other property. *)
Lemma offerCopySchema_Some doc copy :
  offerCopySchema (Some doc) = Some copy <-> record_of doc copy.
Proof.
  unfold offerCopySchema, z.object, record_of.
  destruct doc as [| | | | |fields]; try done.
  split.
  - intros H.
    apply bind_Some in H as (h & Hh & H).
    apply bind_Some in H as (sh & Hsh & H).
    apply bind_Some in H as (b & Hb & H).
    apply bind_Some in H as (c & Hc & H).
    apply bind_Some in H as (l & Hl & H).
    injection H as <-. simpl.
    by rewrite <- !z_string_Some, <- !z_nullable_string_Some.
  - destruct copy as [h sh b c l]; simpl.
    rewrite <- !z_string_Some, <- !z_nullable_string_Some.
    intros (-> & -> & -> & -> & ->). reflexivity.
Qed.

Lemma offerInputSchema_Some item offer :
  offerInputSchema (Some item) = Some offer <-> item_within_bounds item offer.
Proof.
  unfold offerInputSchema, z.object, item_within_bounds.
  destruct item as [| | | | |fields]; try done.
  split.
  - intros H.
    apply bind_Some in H as (t & Ht & H).
    apply bind_Some in H as (d & Hd & H).
    apply bind_Some in H as (c & Hc & H).
    injection H as <-. simpl.
    apply z_enum_Some in Ht as [? ?]. apply z_min_max_Some in Hd as [? ?].
    by apply z_optional_max_Some in Hc.
  - destruct offer as [t d c]; simpl. intros (Ht & Hin & Hd & Hlen & Hc).
    assert (H1 : z.enum OFFER_TYPES (get "offerType"%string fields) = Some t)
      by (by apply z_enum_Some).
    assert (H2 : z.max 2000 (z.min 1 z.string)
                   (get "offerDescription"%string fields) = Some d)
      by (by apply z_min_max_Some).
    apply z_optional_max_Some in Hc.
    by rewrite H1, H2, Hc.
Qed.

Lemma offerRequestBodySchema_Some body offers :
  offerRequestBodySchema body = Some offers <-> batch_shape body offers.
Proof.
  unfold offerRequestBodySchema, z.object, batch_shape.
  destruct body as [[| | | | |fields]|]; try done.
  unfold z.array_max, z.array_min, z.array.
  destruct (get "offers"%string fields) as [[| | | |items|]|];
    try (split; [done|by intros (? & ? & _)]).
  split.
  - intros H.
    apply bind_Some in H as (l & Hl & H).
    apply bind_Some in Hl as (l' & Hl' & Hl).
    destruct (1 <=? length l') eqn:H1; [|done].
    destruct (length l <=? 50) eqn:H50; [|done].
    simplify_eq. apply Nat.leb_le in H1, H50.
    pose proof (length_mapM _ _ _ Hl') as Hlen.
    exists items. split; [done|]. split; [lia|].
    apply mapM_Some in Hl'.
    eapply Forall2_impl; [exact Hl'|].
    intros item offer. apply offerInputSchema_Some.
  - intros (items' & [= <-] & Hlen & Hall).
    assert (Hm : mapM (fun x => offerInputSchema (Some x)) items = Some offers).
    { apply mapM_Some. eapply Forall2_impl; [exact Hall|].
      intros item offer. apply offerInputSchema_Some. }
    pose proof (length_mapM _ _ _ Hm) as Hl.
    assert (H1 : (1 <=? length offers) = true) by (apply Nat.leb_le; lia).
    assert (H50 : (length offers <=? 50) = true) by (apply Nat.leb_le; lia).
    rewrite Hm. cbn -[Nat.leb]. rewrite H1. cbn -[Nat.leb]. by rewrite H50.
Qed.

End SchemaFacts.

(** ** The decoder and the route *)

Module RouteTheorems.
Import Scheduler SchedulerFacts Offers TextFacts SchemaFacts.

Lemma length_padding n : String.length (padding n) = n.
Proof. induction n as [|n IH]; simpl; [done|by rewrite IH]. Qed.

Lemma offerCopySchema_document_of copy :
  offerCopySchema (Some (document_of copy)) = Some copy.
Proof.
  apply offerCopySchema_Some. destruct copy as [h [sh|] b c [l|]]; by simpl.
Qed.

Lemma offerCopySchema_None doc :
  offerCopySchema (Some doc) = None <-> ~ exists copy, record_of doc copy.
Proof.
  split.
  - intros Hn [copy Hc]. apply offerCopySchema_Some in Hc. congruence.
  - intros Hn. destruct (offerCopySchema (Some doc)) as [copy|] eqn:Hc; [|done].
    destruct Hn. exists copy. by apply offerCopySchema_Some.
Qed.

(** C4, as stated, fails: a document with a sixth property is accepted, and
    the record is made of the five named ones. *)
Lemma extra_field_is_accepted :
  offerCopySchema
    (Some (JObject [("headline", JString "Save 20%"); ("subheadline", JNull);
                    ("body", JString "..."); ("callToAction", JString "Shop Now");
                    ("legalDisclaimer", JNull); ("note", JString "draft")]%string))
  = Some Sample.copy_record
  /\ ~ exactly_the_five_fields
        (JObject [("headline", JString "Save 20%"); ("subheadline", JNull);
                  ("body", JString "..."); ("callToAction", JString "Shop Now");
                  ("legalDisclaimer", JNull); ("note", JString "draft")]%string).
Proof. split; [reflexivity|]. intros [Hlen _]. discriminate Hlen. Qed.

(** C4, amended.  The decoder's validation accepts a parsed document exactly
    when it is an object whose [headline], [body] and [callToAction] are
    text and whose [subheadline] and [legalDisclaimer] are text or an
    explicit [null]; the record holds these five values.  Other properties
    of the document are not looked at.  A document in which one of the five
    is missing (a renamed field is missing under its name), or is neither
    text nor a permitted [null], is rejected, with a [ZodError]; a text that
    does not parse is rejected with the error built around [JSON.parse],
    which is a different failure. *)
Theorem offerCopySchema_validation
    (JSON_parse : string -> option json) (offer : OfferInput) (text : string) :
  (forall doc copy, offerCopySchema (Some doc) = Some copy <-> record_of doc copy)
  /\ (forall fields fields',
        (forall k, k ∈ COPY_FIELDS -> get k fields = get k fields') ->
        offerCopySchema (Some (JObject fields))
        = offerCopySchema (Some (JObject fields')))
  /\ (forall fields k,
        k ∈ COPY_FIELDS -> get k fields = None ->
        offerCopySchema (Some (JObject fields)) = None)
  /\ (forall fields k v,
        k ∈ COPY_FIELDS -> get k fields = Some v -> is_text v = false ->
        is_null v = false \/ k ∈ TEXT_FIELDS ->
        offerCopySchema (Some (JObject fields)) = None)
  /\ (JSON_parse (cleaned text) = None ->
      decode JSON_parse offer text
      = Rejected (InvalidJSONError (slice0 60 (offerDescription offer))
                                   (slice0 200 text)))
  /\ (forall doc,
        JSON_parse (cleaned text) = Some doc ->
        offerCopySchema (Some doc) = None ->
        decode JSON_parse offer text = Rejected (ZodError doc))
  /\ (forall doc copy,
        JSON_parse (cleaned text) = Some doc ->
        offerCopySchema (Some doc) = Some copy ->
        decode JSON_parse offer text = Fulfilled copy)
  /\ (forall doc description60 text200,
        ZodError doc <> InvalidJSONError description60 text200).
Proof.
  split; [apply offerCopySchema_Some|].
  split.
  { intros fields fields' Hsame. unfold offerCopySchema, z.object.
    rewrite !Hsame; [done|unfold COPY_FIELDS; repeat constructor..]. }
  split.
  { intros fields k Hk Hget. apply offerCopySchema_None. intros [copy Hc].
    simpl in Hc. destruct Hc as (H1 & H2 & H3 & H4 & H5).
    unfold COPY_FIELDS in Hk.
    repeat (apply elem_of_cons in Hk as [->|Hk]);
      [..|by apply elem_of_nil in Hk];
      rewrite Hget in *; done. }
  split.
  { intros fields k v Hk Hget Htext Hnull.
    apply offerCopySchema_None. intros [copy Hc].
    simpl in Hc. destruct Hc as (H1 & H2 & H3 & H4 & H5).
    unfold COPY_FIELDS in Hk.
    repeat (apply elem_of_cons in Hk as [->|Hk]);
      [..|by apply elem_of_nil in Hk];
      rewrite Hget in *; simplify_eq; try done.
    - destruct v; try done. destruct Hnull as [|Hin]; [done|].
      unfold TEXT_FIELDS in Hin.
      repeat (apply elem_of_cons in Hin as [Hin|Hin]; [discriminate Hin|]).
      by apply elem_of_nil in Hin.
    - destruct v; try done. destruct Hnull as [|Hin]; [done|].
      unfold TEXT_FIELDS in Hin.
      repeat (apply elem_of_cons in Hin as [Hin|Hin]; [discriminate Hin|]).
      by apply elem_of_nil in Hin. }
  unfold decode.
  split; [by intros ->|].
  split; [by intros doc -> ->|].
  split; [by intros doc copy -> ->|].
  done.
Qed.

(** C9, as stated, fails: no bound on the length of the headline is
    enforced; for every bound a longer headline is validated. *)
Lemma headline_length_is_unbounded :
  ~ exists bound, forall doc copy,
      offerCopySchema (Some doc) = Some copy ->
      String.length (headline copy) <= bound.
Proof.
  intros [bound H].
  specialize (H _ _ (offerCopySchema_document_of
                       (mkOfferCopy (padding (S bound)) None "" "" None))).
  simpl in H. rewrite length_padding in H. lia.
Qed.

(** C9, amended.  The headline and the call-to-action of a validated record
    are text of any length: whatever the five values, the document made of
    them is accepted and the record holds them unchanged; a headline of 101
    code units and a call-to-action of 41 are validated. *)
Theorem offerCopySchema_puts_no_bound (copy : OfferCopy) :
  offerCopySchema (Some (document_of copy)) = Some copy
  /\ offerCopySchema
       (Some (document_of (mkOfferCopy (padding 101) (subheadline copy)
                             (body copy) (padding 41) (legalDisclaimer copy))))
     = Some (mkOfferCopy (padding 101) (subheadline copy)
               (body copy) (padding 41) (legalDisclaimer copy))
  /\ String.length (padding 101) = 101
  /\ String.length (padding 41) = 41.
Proof.
  split; [apply offerCopySchema_document_of|].
  split; [apply offerCopySchema_document_of|].
  split; apply length_padding.
Qed.

(** *** Batch shape *)

Lemma request_body_shape items offers :
  batch_shape (request_body items) offers
  <-> 1 <= length items <= 50 /\ Forall2 item_within_bounds items offers.
Proof.
  unfold batch_shape, request_body. simpl. split.
  - by intros (items' & [= <-] & ? & ?).
  - intros [? ?]. by exists items.
Qed.

Lemma request_body_accepted items offers :
  Forall2 item_within_bounds items offers ->
  1 <= length items <= 50 ->
  offerRequestBodySchema (request_body items) = Some offers.
Proof.
  intros Hall Hlen. apply offerRequestBodySchema_Some.
  by apply request_body_shape.
Qed.

Lemma request_body_rejected items :
  ~ 1 <= length items <= 50 ->
  offerRequestBodySchema (request_body items) = None.
Proof.
  intros Hlen.
  destruct (offerRequestBodySchema (request_body items)) as [offers|] eqn:H;
    [|done].
  apply offerRequestBodySchema_Some, request_body_shape in H as [? _]. done.
Qed.

Lemma Forall2_replicate {A B} (P : A -> B -> Prop) n x y :
  P x y -> Forall2 P (replicate n x) (replicate n y).
Proof. intros H. induction n; simpl; by constructor. Qed.

Section route.
Context {Model : Type}.
Variable languageModel : string -> promise_result thrown Model.
Variable generateText : GenerateTextRequest Model -> promise_result thrown string.
Variable buildOfferSystemPrompt : string -> string.
Variable JSON_parse : string -> option json.

(** C5. The handler validates the shape of the request body first.  The
    schema accepts a body exactly when it is an object whose [offers] is a
    sequence of 1 to 50 items, each with an [offerType] among the 8 tags, an
    [offerDescription] of length 1 to 2000 and an [existingCopy] that is
    absent or of length at most 5000.  A body it refuses is answered with
    the bad-request response and nothing else happens: no request is sent to
    the generation service.  With items within their bounds, batches of 0
    and of 51 items are refused, batches of 1 and of 50 items are accepted. *)
Theorem batch_shape_validated_first (body : option json) :
  (forall offers,
     offerRequestBodySchema body = Some offers <-> batch_shape body offers)
  /\ length OFFER_TYPES = 8
  /\ (offerRequestBodySchema body = None ->
      handles languageModel generateText buildOfferSystemPrompt JSON_parse
        body (ChatSDKErrorResponse "bad_request:api") []
      /\ forall resp requests,
          handles languageModel generateText buildOfferSystemPrompt JSON_parse
            body resp requests ->
          resp = ChatSDKErrorResponse "bad_request:api" /\ requests = [])
  /\ (forall items offers,
        Forall2 item_within_bounds items offers ->
        is_Some (offerRequestBodySchema (request_body items))
        <-> 1 <= length items <= 50)
  /\ (forall item offer,
        item_within_bounds item offer ->
        offerRequestBodySchema (request_body (replicate 0 item)) = None
        /\ offerRequestBodySchema (request_body (replicate 1 item))
           = Some (replicate 1 offer)
        /\ offerRequestBodySchema (request_body (replicate 50 item))
           = Some (replicate 50 offer)
        /\ offerRequestBodySchema (request_body (replicate 51 item)) = None).
Proof.
  split; [intros offers; apply offerRequestBodySchema_Some|].
  split; [reflexivity|].
  split.
  { intros Hbad. split; [by constructor|].
    intros resp requests Hh. destruct Hh as [_|offers st outcome sent Hok _ _ _ _].
    - done.
    - congruence. }
  split.
  { intros items offers Hall. split.
    - intros [offers' H].
      by apply offerRequestBodySchema_Some, request_body_shape in H as [? _].
    - intros Hlen. exists offers. by apply request_body_accepted. }
  intros item offer Hitem.
  split; [apply request_body_rejected; rewrite length_replicate; lia|].
  split; [apply request_body_accepted;
          [by apply Forall2_replicate|rewrite length_replicate; lia]|].
  split; [apply request_body_accepted;
          [by apply Forall2_replicate|rewrite length_replicate; lia]|].
  apply request_body_rejected; rewrite length_replicate; lia.
Qed.

(** C6, amended.  The mode of a result is [modified] when [existingCopy] is
    present and not empty, and [generated] when it is absent or the empty
    text. *)
Theorem mode_follows_existingCopy (offer : OfferInput) (result : OfferResult) :
  snd (processOffer languageModel generateText buildOfferSystemPrompt
         JSON_parse offer) = Fulfilled result ->
  (mode result = modified
   <-> exists s, existingCopy offer = Some s /\ s <> EmptyString)
  /\ (mode result = generated
      <-> existingCopy offer = None \/ existingCopy offer = Some EmptyString).
Proof.
  unfold processOffer.
  destruct (languageModel _) as [model|]; [|done].
  destruct (generateText _) as [text|]; [|done].
  destruct (decode _ _ _) as [copy|]; [|done].
  intros [= <-]. simpl.
  destruct (existingCopy offer) as [[|c s]|]; simpl.
  - split; split; try done; [by intros (s & [= <-] & ?)|by right].
  - split; split; try done; [by exists (String c s)|by intros [|]].
  - split; split; try done; [by intros (s & ? & _)|by left].
Qed.

(** C2. If a task of an accepted batch fails, then along every order of
    completion the scheduler's promise is never fulfilled (no result set,
    partial or otherwise, is returned) and it is rejected by the time the
    invocations have drained, with the failure of a task of the batch; the
    handler answers, and what it answers is the response to one such
    failure, never the 200 response with results.  When no other task fails,
    the failure answered is that task's. *)
Theorem batch_fails_as_a_whole
    (body : option json) (offers : list OfferInput)
    (j : nat) (offer : OfferInput) (e : thrown) :
  let task := task languageModel generateText buildOfferSystemPrompt JSON_parse in
  let handles :=
    handles languageModel generateText buildOfferSystemPrompt JSON_parse in
  offerRequestBodySchema body = Some offers ->
  offers !! j = Some offer ->
  task offer j = Rejected e ->
  (forall st, reachable offers task BATCH_CONCURRENCY st ->
     (forall rs, settled st <> Some (Fulfilled rs))
     /\ (quiescent st -> exists e', settled st = Some (Rejected e'))
     /\ (forall e', settled st = Some (Rejected e') ->
           exists j' offer', offers !! j' = Some offer'
                             /\ task offer' j' = Rejected e'))
  /\ (exists resp requests, handles body resp requests)
  /\ (forall resp requests, handles body resp requests ->
        (forall results, resp <> Status200 results)
        /\ (exists e' j' offer',
              offers !! j' = Some offer' /\ task offer' j' = Rejected e'
              /\ resp = respond (Rejected e'))
        /\ ((forall j' offer' e', offers !! j' = Some offer' ->
                task offer' j' = Rejected e' -> e' = e) ->
            resp = respond (Rejected e))).
Proof.
  intros task0 handles0 Hbody Hj He.
  assert (Hff := fun st =>
    SchedulerTheorems.mapWithConcurrency_fail_fast offers task0 BATCH_CONCURRENCY j offer e st
      ltac:(done) Hj He).
  split; [exact Hff|]. split.
  - destruct (runs_to_settlement offers task0 BATCH_CONCURRENCY _
                (mapWithConcurrency_invariant offers task0 BATCH_CONCURRENCY))
      as (st & Hst & [o Ho]).
    eexists _, _. eapply (handles_batch _ _ _ _ _ _ st o (invoked st)); try done.
    intros i Hi. by left.
  - intros resp requests Hh.
    destruct Hh as [Hbad|offers' st outcome sent Hok Hst Ho _ _]; [congruence|].
    assert (offers' = offers) as -> by congruence.
    apply settles_at_rtc in Hst.
    destruct (Hff st Hst) as (Hnf & _ & Hrej).
    destruct outcome as [rs|e']; [by destruct (Hnf rs)|].
    destruct (Hrej e' Ho) as (j' & offer' & Hj' & He').
    split; [by destruct e'|].
    split; [by exists e', j', offer'|].
    intros Honly. by rewrite (Honly j' offer' e' Hj' He').
Qed.

(** C7. Decoding a text wrapped in a fenced code block, tagged [json] or
    not, gives what decoding the unwrapped text gives: the same cleaned text
    goes to [JSON.parse], so the same record comes out or both fail; and the
    two [replace] calls leave an unwrapped text as it is, so that it is
    decoded from its trimmed form. *)
Theorem fenced_text_decodes_as_unwrapped (offer : OfferInput) (t s : string) :
  unwrapped t = true ->
  fenced t s ->
  cleaned s = cleaned t
  /\ (forall copy,
        decode JSON_parse offer s = Fulfilled copy
        <-> decode JSON_parse offer t = Fulfilled copy)
  /\ is_fulfilled (decode JSON_parse offer s)
     = is_fulfilled (decode JSON_parse offer t)
  /\ strip_closing_fence (strip_opening_fence t) = t
  /\ cleaned t = trim t.
Proof.
  intros Ht Hs.
  assert (Hc : cleaned s = cleaned t)
    by (by rewrite (cleaned_fenced t s Hs), cleaned_unwrapped).
  split; [done|]. unfold decode. rewrite Hc.
  split; [|split; [|split; [by apply strip_fences_unwrapped
                           |by apply cleaned_unwrapped]]].
  - intros copy. destruct (JSON_parse (cleaned t)) as [doc|]; [|done].
    by destruct (offerCopySchema (Some doc)).
  - destruct (JSON_parse (cleaned t)) as [doc|]; [|done].
    by destruct (offerCopySchema (Some doc)).
Qed.

End route.

(** *** The deadline of the generation call *)

Lemma length_requests_of {Model : Type}
    (languageModel : string -> promise_result thrown Model)
    (generateText : GenerateTextRequest Model -> promise_result thrown string)
    (buildOfferSystemPrompt : string -> string)
    (JSON_parse : string -> option json)
    (offers : list OfferInput) (sent : list nat) :
  (forall offer,
     length (fst (processOffer languageModel generateText buildOfferSystemPrompt
                    JSON_parse offer)) <= 1) ->
  length (requests_of languageModel generateText buildOfferSystemPrompt
            JSON_parse offers sent) <= length sent.
Proof.
  intros Hone. unfold requests_of.
  induction sent as [|i sent IH]; [done|].
  cbn [flat_map]. rewrite length_app. cbn [length].
  destruct (offers !! i) as [offer|]; [specialize (Hone offer)|simpl]; lia.
Qed.

(** C8. The generation call of a task is made under the fixed deadline of
    5000 ms and is made once.  [processOffer] makes at most one call, whose
    signal is [AbortSignal.timeout(5000)], and whatever the service does,
    also when it never answers, the call settles no later than 5000 ms after
    it was made.  When the provider has supplied the model the call is made
    exactly once: if the service has not answered by the deadline the call
    settles at the deadline and the task fails with the timeout; if it
    answers in time with a failure the task fails with that failure; if it
    answers in time with text the task goes on to decode it.  In each case
    the one request is all that was sent.  The scheduler calls the task
    function once per index, and the requests a handler has sent come from
    distinct tasks, so there are no more of them than offers. *)
Theorem processOffer_one_attempt_under_deadline {Model : Type}
    (languageModel : string -> promise_result thrown Model)
    (service : GenerateTextRequest Model -> service_behaviour)
    (buildOfferSystemPrompt : string -> string)
    (JSON_parse : string -> option json)
    (offer : OfferInput) :
  let processOffer :=
    processOffer languageModel (generateText_of service)
      buildOfferSystemPrompt JSON_parse in
  let task :=
    task languageModel (generateText_of service)
      buildOfferSystemPrompt JSON_parse in
  let handles :=
    handles languageModel (generateText_of service)
      buildOfferSystemPrompt JSON_parse in
  let requests_of :=
    requests_of languageModel (generateText_of service)
      buildOfferSystemPrompt JSON_parse in
  length (fst (processOffer offer)) <= 1
  /\ (forall request,
        request ∈ fst (processOffer offer) ->
        abortSignal_timeout request = 5000%Z
        /\ (settles_after service request <= 5000)%Z)
  /\ (forall model,
        languageModel "chat-model"%string = Fulfilled model ->
        let request :=
          mkRequest model (buildOfferSystemPrompt (offerType offer))
                    (userPrompt offer) 5000%Z in
        fst (processOffer offer) = [request]
        /\ (service request = NeverAnswers
            \/ (exists after answer,
                  service request = Answers after answer /\ (5000 < after)%Z) ->
            settles_after service request = 5000%Z
            /\ snd (processOffer offer) = Rejected TimeoutError)
        /\ (forall after e,
              service request = Answers after (Rejected e) ->
              (after <= 5000)%Z ->
              settles_after service request = after
              /\ snd (processOffer offer) = Rejected e)
        /\ (forall after text,
              service request = Answers after (Fulfilled text) ->
              (after <= 5000)%Z ->
              settles_after service request = after
              /\ is_fulfilled (snd (processOffer offer))
                 = is_fulfilled (decode JSON_parse offer text)))
  /\ (forall offers concurrency st,
        reachable offers task concurrency st ->
        invoked st = seq 0 (nextIndex st) /\ NoDup (invoked st))
  /\ (forall body offers resp requests,
        offerRequestBodySchema body = Some offers ->
        handles body resp requests ->
        (exists sent, NoDup sent /\ requests = requests_of offers sent)
        /\ length requests <= length offers
        /\ forall request, request ∈ requests ->
             abortSignal_timeout request = 5000%Z).
Proof.
  intros processOffer0 task0 handles0 requests_of0.
  assert (Hone : forall o, length (fst (processOffer0 o)) <= 1).
  { intros o. unfold processOffer0, processOffer.
    destruct (languageModel _) as [model|]; [|simpl; lia].
    destruct (generateText_of _ _) as [text|]; [|simpl; lia].
    destruct (decode _ _ _); simpl; lia. }
  assert (Hsig : forall o request, request ∈ fst (processOffer0 o) ->
            abortSignal_timeout request = 5000%Z).
  { intros o request. unfold processOffer0, processOffer.
    destruct (languageModel _) as [model|];
      [|by intros ?%elem_of_nil].
    destruct (generateText_of _ _) as [text|];
      [destruct (decode _ _ _)|]; simpl;
      by intros ->%list_elem_of_singleton. }
  split; [apply Hone|]. split.
  { intros request Hin. split; [by apply (Hsig offer)|].
    unfold settles_after. rewrite (Hsig offer request Hin).
    unfold call_under_deadline.
    destruct (service request) as [after answer|]; [|simpl; lia].
    destruct (Z.leb_spec after 5000); simpl; lia. }
  split.
  { intros model Hm request.
    assert (Hp : processOffer0 offer
                 = match generateText_of service request with
                   | Rejected e => ([request], Rejected e)
                   | Fulfilled text =>
                       match decode JSON_parse offer text with
                       | Rejected e => ([request], Rejected e)
                       | Fulfilled copy =>
                           ([request],
                            Fulfilled
                              (mkOfferResult (offerType offer)
                                 (offerDescription offer)
                                 (if truthy (existingCopy offer)
                                  then modified else generated) copy))
                       end
                   end).
    { unfold processOffer0, processOffer. by rewrite Hm. }
    rewrite Hp. unfold generateText_of, settles_after, call_under_deadline.
    change (abortSignal_timeout request) with 5000%Z.
    split; [|split; [|split]].
    - destruct (service request) as [after [text|e]|]; [| |done];
        destruct (after <=? 5000)%Z; simpl; try done.
      by destruct (decode _ _ _).
    - intros [->|(after & answer & -> & Hlate)]; [done|].
      destruct (Z.leb_spec after 5000); [lia|done].
    - intros after e -> Hle.
      destruct (Z.leb_spec after 5000); [done|lia].
    - intros after text -> Hle.
      destruct (Z.leb_spec after 5000); [|lia]. simpl.
      split; [done|]. by destruct (decode _ _ _). }
  split.
  { intros offers concurrency st Hreach.
    apply reachable_invariant in Hreach.
    rewrite (inv_invoked _ _ _ _ Hreach). split; [done|apply NoDup_seq]. }
  intros body offers resp requests Hbody Hh.
  destruct Hh as [Hbad|offers' st outcome sent Hok Hst Ho Hsub _]; [congruence|].
  assert (offers' = offers) as -> by congruence.
  apply settles_at_rtc, reachable_invariant in Hst.
  assert (Hnd : NoDup sent).
  { pose proof Hsub as (l & Hp & Hl)%submseteq_sublist_r. rewrite Hp.
    eapply sublist_NoDup; [|exact Hl].
    rewrite (inv_invoked _ _ _ _ Hst). apply NoDup_seq. }
  split; [by exists sent|]. split.
  - etrans; [by apply length_requests_of|].
    etrans; [by apply submseteq_length|].
    rewrite (inv_invoked _ _ _ _ Hst), length_seq. apply Hst.
  - intros request Hin. unfold requests_of in Hin.
    apply list_elem_of_In, in_flat_map in Hin as (i & _ & Hin).
    apply list_elem_of_In in Hin.
    destruct (offers !! i) as [o|]; [by apply (Hsig o)|by apply elem_of_nil in Hin].
Qed.

(** *** The theorems at the end-to-end example *)

(** The example of the specification: one offer, the stub service. *)
Example processOffer_example :
  Sample.processOffer (mkOfferInput "discount" "20% off shoes" None)
  = ([mkRequest () "discount"
        (join_lines ["OFFER DESCRIPTION:"; "20% off shoes"; "";
                     "Please generate new customer-facing copy for this offer."])
        5000%Z],
     Fulfilled (mkOfferResult "discount" "20% off shoes" generated
                  Sample.copy_record)).
Proof. reflexivity. Qed.

Example decode_fenced_example :
  decode Sample.JSON_parse (mkOfferInput "discount" "20% off shoes" None)
    Sample.fenced_copy_text
  = Fulfilled Sample.copy_record.
Proof. reflexivity. Qed.

(** A fenced text inside a second fence is not unwrapped by the decoder. *)
Example decode_twice_fenced_example :
  decode Sample.JSON_parse (mkOfferInput "discount" "20% off shoes" None)
    (fence ++ Sample.newline ++ Sample.fenced_copy_text
       ++ Sample.newline ++ fence)
  = Rejected (InvalidJSONError "20% off shoes"
                (slice0 200 (fence ++ Sample.newline ++ Sample.fenced_copy_text
                               ++ Sample.newline ++ fence))).
Proof. reflexivity. Qed.

(** A service that never answers: the one call settles at the deadline and
    the task fails with the timeout. *)
Example never_answering_service_example :
  let offer := mkOfferInput "discount" "20% off shoes" None in
  let request :=
    mkRequest () "discount"%string (userPrompt offer) 5000%Z in
  processOffer Sample.languageModel (generateText_of (fun _ => NeverAnswers))
    Sample.buildOfferSystemPrompt Sample.JSON_parse offer
  = ([request], Rejected TimeoutError)
  /\ settles_after (fun _ => NeverAnswers) request = 5000%Z.
Proof. by vm_compute. Qed.

(** A service that answers one millisecond late is cut off as well; one
    that answers at the deadline is heard. *)
Example late_service_example :
  let offer := mkOfferInput "discount" "20% off shoes" None in
  snd (processOffer Sample.languageModel
         (generateText_of (fun _ => Answers 5001 (Fulfilled Sample.copy_text)))
         Sample.buildOfferSystemPrompt Sample.JSON_parse offer)
  = Rejected TimeoutError
  /\ snd (processOffer Sample.languageModel
            (generateText_of (fun _ => Answers 5000 (Fulfilled Sample.copy_text)))
            Sample.buildOfferSystemPrompt Sample.JSON_parse offer)
     = Fulfilled (mkOfferResult "discount" "20% off shoes" generated
                    Sample.copy_record).
Proof. by vm_compute. Qed.

(** The second task fails while the first is pending: the batch is rejected
    at once, and the first worker still goes on to the third offer. *)
Example fail_fast_example :
  let st := run Sample.three_offers Sample.task [1; 0]
              (mapWithConcurrency Sample.three_offers 2) in
  settled st = Some (Rejected TimeoutError)
  /\ workers st = [Awaiting 2; Threw TimeoutError]
  /\ invoked st = [0; 1; 2].
Proof. by vm_compute. Qed.

(** C2 at the batch of three offers: whatever the order of completion, the
    answer is the 500 response carrying the timeout of the second task. *)
Lemma batch_fails_as_a_whole_witness :
  offerRequestBodySchema (request_body Sample.three_items)
  = Some Sample.three_offers
  /\ Sample.task (mkOfferInput "clearance" "Last pairs" None) 1
     = Rejected TimeoutError
  /\ (exists resp requests,
        Sample.handles (request_body Sample.three_items) resp requests)
  /\ (forall resp requests,
        Sample.handles (request_body Sample.three_items) resp requests ->
        resp = Status500 TimeoutError).
Proof.
  destruct (batch_fails_as_a_whole
              Sample.languageModel Sample.generateText
              Sample.buildOfferSystemPrompt Sample.JSON_parse
              (request_body Sample.three_items) Sample.three_offers
              1 (mkOfferInput "clearance" "Last pairs" None) TimeoutError
              eq_refl eq_refl eq_refl) as (_ & Hex & H).
  split; [reflexivity|]. split; [reflexivity|]. split; [exact Hex|].
  intros resp requests Hh.
  destruct (H resp requests Hh) as (_ & _ & Honly).
  apply Honly. intros j' offer' e' Hj' He'.
  destruct j' as [|[|[|j']]]; simpl in Hj'; simplify_eq;
    vm_compute in He'; congruence.
Defined.

(** C6, as stated, fails: an [existingCopy] that is present and empty passes
    the input schema and yields the mode [generated]. *)
Lemma empty_existingCopy_is_generated :
  offerInputSchema
    (Some (JObject [("offerType", JString "discount");
                    ("offerDescription", JString "20% off shoes");
                    ("existingCopy", JString "")]%string))
  = Some (mkOfferInput "discount" "20% off shoes" (Some ""%string))
  /\ existingCopy (mkOfferInput "discount" "20% off shoes" (Some ""%string))
     = Some ""%string
  /\ snd (Sample.processOffer
            (mkOfferInput "discount" "20% off shoes" (Some ""%string)))
     = Fulfilled (mkOfferResult "discount" "20% off shoes" generated
                    Sample.copy_record).
Proof. by vm_compute. Qed.

(** C6 at an offer with existing copy to revise. *)
Lemma mode_follows_existingCopy_witness :
  (modified = modified
   <-> exists s, Some "Get a discount on shoes!"%string = Some s
                 /\ s <> EmptyString)
  /\ (modified = generated
      <-> Some "Get a discount on shoes!"%string = None
          \/ Some "Get a discount on shoes!"%string = Some EmptyString).
Proof.
  apply (mode_follows_existingCopy
           Sample.languageModel Sample.generateText
           Sample.buildOfferSystemPrompt Sample.JSON_parse
           (mkOfferInput "discount" "20% off shoes"
              (Some "Get a discount on shoes!"%string))
           (mkOfferResult "discount" "20% off shoes" modified
              Sample.copy_record)).
  reflexivity.
Defined.

(** C7 at the text of the example and the same text in a [json] block. *)
Lemma fenced_text_decodes_as_unwrapped_witness :
  cleaned Sample.fenced_copy_text = cleaned Sample.copy_text
  /\ (forall copy,
        decode Sample.JSON_parse (mkOfferInput "discount" "20% off shoes" None)
          Sample.fenced_copy_text = Fulfilled copy
        <-> decode Sample.JSON_parse
              (mkOfferInput "discount" "20% off shoes" None)
              Sample.copy_text = Fulfilled copy)
  /\ is_fulfilled
       (decode Sample.JSON_parse (mkOfferInput "discount" "20% off shoes" None)
          Sample.fenced_copy_text)
     = is_fulfilled
         (decode Sample.JSON_parse
            (mkOfferInput "discount" "20% off shoes" None) Sample.copy_text)
  /\ strip_closing_fence (strip_opening_fence Sample.copy_text)
     = Sample.copy_text
  /\ cleaned Sample.copy_text = trim Sample.copy_text.
Proof.
  apply (fenced_text_decodes_as_unwrapped Sample.JSON_parse
           (mkOfferInput "discount" "20% off shoes" None)
           Sample.copy_text Sample.fenced_copy_text).
  - reflexivity.
  - apply (fenced_json Sample.copy_text "json" Sample.newline Sample.newline "");
      reflexivity.
Defined.

End RouteTheorems.

(** ** Further properties of the scheduler *)

Module SchedulerExtras.
Import Scheduler SchedulerFacts.

Section slots.
Context {T R E : Type}.
Variable items : list T.
Variable fn : T -> nat -> promise_result E R.
Variable concurrency : Z.

Ltac fields :=
  rewrite ?nextIndex_promise_all, ?results_promise_all, ?workers_promise_all,
    ?invoked_promise_all, ?settled_promise_all,
    ?nextIndex_promise_all_reject, ?results_promise_all_reject,
    ?workers_promise_all_reject, ?invoked_promise_all_reject,
    ?settled_promise_all_reject;
  cbn [nextIndex results workers invoked settled].

Lemma mapWithConcurrency_slots :
  slots_invariant items fn (mapWithConcurrency (R := R) (E := E) items concurrency).
Proof.
  rewrite mapWithConcurrency_eq.
  pose proof (launched_le items concurrency) as Hle.
  destruct (launched items concurrency) as [|n];
    constructor; cbn [workers results].
  - intros [|w] w' i; discriminate.
  - intros [|w] i; discriminate.
  - intros j r Hj. apply lookup_replicate in Hj as [? _]. discriminate.
  - intros w w' i Hw Hw'.
    apply awaiting_seq_lookup in Hw as [Hw _], Hw' as [Hw' _]. congruence.
  - intros w i Hw. apply awaiting_seq_lookup in Hw as [[= ->] Hlt].
    apply lookup_replicate_2. lia.
  - intros j r Hj. apply lookup_replicate in Hj as [? _]. discriminate.
Qed.

(** Every completion preserves it. *)
Lemma complete_slots w (st st' : state R E) :
  invariant items fn concurrency st ->
  slots_invariant items fn st ->
  complete items fn w st = Some st' ->
  slots_invariant items fn st'.
Proof.
  intros Hinv Hs Hc.
  destruct (complete_cases _ _ _ _ _ Hc) as (i & x & Hw & Hx & Hcase).
  pose proof (inv_awaiting _ _ _ _ Hinv w i Hw) as Hi.
  pose proof (lookup_lt_Some _ _ _ Hw) as Hwlt.
  pose proof (inv_results _ _ _ _ Hinv) as Hlen.
  pose proof (inv_next _ _ _ _ Hinv) as Hnext.
  assert (Hother : forall w' i', w' <> w ->
            workers st !! w' = Some (Awaiting i') -> i' <> i).
  { intros w' i' Hne Hw' ->. by apply Hne, (slots_distinct _ _ _ Hs w' w i). }
  destruct Hcase as [(r & Hf & Hlt & ->) | [(r & Hf & Hge & ->) | (e & Hf & ->)]].
  - constructor; fields.
    + intros w1 w2 i' H1 H2.
      apply list_lookup_insert_Some in H1 as [(<- & H1 & _)|(Hn1 & H1)];
        apply list_lookup_insert_Some in H2 as [(<- & H2 & _)|(Hn2 & H2)];
        simplify_eq; try done.
      * apply (inv_awaiting _ _ _ _ Hinv) in H2. lia.
      * apply (inv_awaiting _ _ _ _ Hinv) in H1. lia.
      * by apply (slots_distinct _ _ _ Hs w1 w2 i').
    + intros w1 i' H1.
      apply list_lookup_insert_Some in H1 as [(<- & H1 & _)|(Hn1 & H1)].
      * simplify_eq. rewrite list_lookup_insert_ne by lia.
        apply (inv_unclaimed _ _ _ _ Hinv); lia.
      * rewrite list_lookup_insert_ne by (intros ->; by eapply Hother).
        by apply (slots_awaited _ _ _ Hs w1).
    + intros j r' Hj. destruct (decide (i = j)) as [<-|Hne].
      * rewrite list_lookup_insert_eq in Hj by lia. simplify_eq. eauto.
      * rewrite list_lookup_insert_ne in Hj by done.
        by apply (slots_assigned _ _ _ Hs).
  - constructor; fields.
    + intros w1 w2 i' H1 H2.
      apply list_lookup_insert_Some in H1 as [(<- & H1 & _)|(Hn1 & H1)];
        [discriminate|].
      apply list_lookup_insert_Some in H2 as [(<- & H2 & _)|(Hn2 & H2)];
        [discriminate|].
      by apply (slots_distinct _ _ _ Hs w1 w2 i').
    + intros w1 i' H1.
      apply list_lookup_insert_Some in H1 as [(<- & H1 & _)|(Hn1 & H1)];
        [discriminate|].
      rewrite list_lookup_insert_ne by (intros ->; by eapply Hother).
      by apply (slots_awaited _ _ _ Hs w1).
    + intros j r' Hj. destruct (decide (i = j)) as [<-|Hne].
      * rewrite list_lookup_insert_eq in Hj by lia. simplify_eq. eauto.
      * rewrite list_lookup_insert_ne in Hj by done.
        by apply (slots_assigned _ _ _ Hs).
  - constructor; fields.
    + intros w1 w2 i' H1 H2.
      apply list_lookup_insert_Some in H1 as [(<- & H1 & _)|(Hn1 & H1)];
        [discriminate|].
      apply list_lookup_insert_Some in H2 as [(<- & H2 & _)|(Hn2 & H2)];
        [discriminate|].
      by apply (slots_distinct _ _ _ Hs w1 w2 i').
    + intros w1 i' H1.
      apply list_lookup_insert_Some in H1 as [(<- & H1 & _)|(Hn1 & H1)];
        [discriminate|].
      by apply (slots_awaited _ _ _ Hs w1).
    + apply Hs.
Qed.

Lemma reachable_slots (st : state R E) :
  reachable items fn concurrency st ->
  invariant items fn concurrency st /\ slots_invariant items fn st.
Proof.
  unfold reachable. intros Hsteps.
  assert (Hgen : forall st0 st1 : state R E,
            rtc (step items fn) st0 st1 ->
            invariant items fn concurrency st0 /\ slots_invariant items fn st0 ->
            invariant items fn concurrency st1 /\ slots_invariant items fn st1).
  { intros st0 st1 H. induction H as [|a b c [w Hw] _ IH]; [done|].
    intros [Hi Hs]. apply IH. split.
    - by eapply complete_invariant.
    - by eapply complete_slots. }
  apply (Hgen _ _ Hsteps). split.
  - apply mapWithConcurrency_invariant.
  - apply mapWithConcurrency_slots.
Qed.

(** A completion writes the slot of the awaited index and no other. *)
Lemma complete_results w (st st' : state R E) j :
  complete items fn w st = Some st' ->
  results st' !! j = results st !! j
  \/ workers st !! w = Some (Awaiting j).
Proof.
  intros Hc.
  destruct (complete_cases _ _ _ _ _ Hc) as (i & x & Hw & Hx & Hcase).
  destruct Hcase as [(r & Hf & Hlt & ->) | [(r & Hf & Hge & ->) | (e & Hf & ->)]];
    fields; try by left.
  - destruct (decide (i = j)) as [<-|]; [by right|left].
    by rewrite list_lookup_insert_ne.
  - destruct (decide (i = j)) as [<-|]; [by right|left].
    by rewrite list_lookup_insert_ne.
Qed.

Lemma complete_settled w (st st' : state R E) o :
  complete items fn w st = Some st' ->
  settled st = Some o -> settled st' = Some o.
Proof.
  intros Hc Ho.
  destruct (complete_cases _ _ _ _ _ Hc) as (i & x & Hw & Hx & Hcase).
  destruct Hcase as [(r & Hf & Hlt & ->) | [(r & Hf & Hge & ->) | (e & Hf & ->)]];
    fields; by rewrite Ho.
Qed.

(** *** Counting the failures *)

Lemma awaits_true i (x : worker E) : awaits i x = true <-> x = Awaiting i.
Proof.
  destruct x as [j| |e]; simpl; try done.
  rewrite Nat.eqb_eq. split; [by intros ->|by intros [= ->]].
Qed.

Lemma existsb_awaits (ws : list (worker E)) i :
  existsb (awaits i) ws = true <-> exists w, ws !! w = Some (Awaiting i).
Proof.
  rewrite existsb_exists. split.
  - intros (x & Hin & ->%awaits_true).
    apply list_elem_of_In, list_elem_of_lookup_1 in Hin. done.
  - intros [w Hw]. exists (Awaiting i). split; [|by apply awaits_true].
    apply list_elem_of_In. by eapply list_elem_of_lookup_2.
Qed.

(** What is awaited once worker [w], which awaited [i], has moved on. *)
Lemma existsb_awaits_insert (ws : list (worker E)) w i b j :
  (forall w1 w2 k,
     ws !! w1 = Some (Awaiting k) -> ws !! w2 = Some (Awaiting k) -> w1 = w2) ->
  ws !! w = Some (Awaiting i) ->
  existsb (awaits j) (<[w := b]> ws) = true
  <-> b = Awaiting j \/ (j <> i /\ existsb (awaits j) ws = true).
Proof.
  intros Hdistinct Hw. rewrite !existsb_awaits. split.
  - intros [w' Hw'].
    apply list_lookup_insert_Some in Hw' as [(<- & ? & _)|(Hne & Hw')];
      [by left|right].
    split; [|by exists w'].
    intros ->. by apply Hne, (Hdistinct w w' i).
  - intros [->|(Hne & w' & Hw')].
    + exists w. apply list_lookup_insert_eq. by eapply lookup_lt_Some.
    + exists w'. rewrite list_lookup_insert_ne; [done|].
      intros ->. congruence.
Qed.

Lemma filter_ext_in {A} (P Q : A -> Prop)
    `{!forall x, Decision (P x)} `{!forall x, Decision (Q x)} (l : list A) :
  (forall x, x ∈ l -> P x <-> Q x) -> filter P l = filter Q l.
Proof.
  induction l as [|a l IH]; intros Hext; [done|].
  assert (Ha : P a <-> Q a) by (apply Hext; left).
  rewrite !filter_cons, IH by (intros x Hx; apply Hext; by right).
  destruct (decide (P a)), (decide (Q a)); tauto.
Qed.

Lemma filter_none {A} (P : A -> Prop) `{!forall x, Decision (P x)} (l : list A) :
  (forall x, x ∈ l -> ~ P x) -> filter P l = [].
Proof.
  induction l as [|a l IH]; intros Hno; [done|].
  rewrite filter_cons_False by (apply Hno; left).
  apply IH. intros x Hx. apply Hno. by right.
Qed.

(** One more element passes the filter. *)
Lemma length_filter_one_more {A} (P Q : A -> Prop)
    `{!forall x, Decision (P x)} `{!forall x, Decision (Q x)}
    (l : list A) (i : A) :
  NoDup l -> i ∈ l -> ~ P i -> Q i ->
  (forall x, x ∈ l -> x <> i -> P x <-> Q x) ->
  length (filter Q l) = S (length (filter P l)).
Proof.
  induction l as [|a l IH]; intros Hnd Hin HP HQ Hext;
    [by apply elem_of_nil in Hin|].
  apply NoDup_cons in Hnd as [Ha Hnd]. rewrite !filter_cons.
  apply elem_of_cons in Hin as [<-|Hin].
  - rewrite (filter_ext_in P Q l).
    + destruct (decide (P i)), (decide (Q i)); try tauto; try done.
    + intros x Hx. apply Hext; [by right|]. by intros ->.
  - assert (a <> i) by (by intros ->).
    assert (Hpa : P a <-> Q a) by (apply Hext; [left|done]).
    assert (Hl : length (filter Q l) = S (length (filter P l))).
    { apply IH; try done. intros x Hx. apply Hext. by right. }
    destruct (decide (P a)), (decide (Q a)); try tauto; simpl; lia.
Qed.

Lemma threw_insert (ws : list (worker E)) w a b :
  ws !! w = Some a ->
  length (filter (fun x => is_threw x = true) (<[w := b]> ws))
    + (if is_threw a then 1 else 0)
  = length (filter (fun x => is_threw x = true) ws)
    + (if is_threw b then 1 else 0).
Proof.
  revert w. induction ws as [|c ws IH]; intros [|w] Hw; simplify_eq/=.
  - rewrite !filter_cons.
    destruct (decide (is_threw b = true)) as [->|Hb%not_true_is_false];
      destruct (decide (is_threw a = true)) as [->|Ha%not_true_is_false];
      rewrite ?Hb, ?Ha; simpl; lia.
  - rewrite !filter_cons. specialize (IH w Hw).
    destruct (decide (is_threw c = true)); simpl; lia.
Qed.

Lemma fails_Rejected i x e :
  items !! i = Some x -> fn x i = Rejected e -> fails items fn i = true.
Proof. unfold fails. by intros -> ->. Qed.

Lemma fails_Fulfilled i x r :
  items !! i = Some x -> fn x i = Fulfilled r -> fails items fn i = false.
Proof. unfold fails. by intros -> ->. Qed.

Lemma mapWithConcurrency_failures :
  failures_invariant items fn
    (mapWithConcurrency (R := R) (E := E) items concurrency).
Proof.
  rewrite mapWithConcurrency_eq.
  destruct (launched items concurrency) as [|n];
    constructor; unfold rejected_workers, failed, awaited;
    cbn [workers invoked].
  - done.
  - intros [|w] e; discriminate.
  - set (k := S n). clearbody k.
    assert (Hno : filter (fun x : worker E => is_threw x = true)
                    (Awaiting <$> seq 0 k) = []).
    { apply filter_none. intros x (i & -> & _)%list_elem_of_fmap. done. }
    rewrite Hno. symmetry. apply length_zero_iff_nil.
    apply filter_none. intros i Hi [_ Hnone].
    assert (Hsome : existsb (awaits i) (Awaiting (E := E) <$> seq 0 k) = true).
    { apply existsb_awaits. exists i. rewrite list_lookup_fmap.
      apply elem_of_seq in Hi. rewrite lookup_seq_lt by lia. done. }
    congruence.
  - intros w e Hw. apply awaiting_seq_lookup in Hw as [? _]. done.
Qed.

(** Every completion preserves it. *)
Lemma complete_failures w (st st' : state R E) :
  invariant items fn concurrency st ->
  slots_invariant items fn st ->
  failures_invariant items fn st ->
  complete items fn w st = Some st' ->
  failures_invariant items fn st'.
Proof.
  intros Hinv Hs Hf Hc.
  destruct (complete_cases _ _ _ _ _ Hc) as (i & x & Hw & Hx & Hcase).
  pose proof (inv_awaiting _ _ _ _ Hinv w i Hw) as Hi.
  pose proof (inv_invoked _ _ _ _ Hinv) as Hinvoked.
  pose proof (slots_distinct _ _ _ Hs) as Hdistinct.
  pose proof (failures_count _ _ _ Hf) as Hcount.
  pose proof (failures_own _ _ _ Hf) as Hown.
  assert (Hawaited : awaited st i = true)
    by (apply existsb_awaits; by exists w).
  unfold rejected_workers, failed, awaited in *.
  assert (Hstay : forall b : worker E,
            (forall k, b = Awaiting k -> nextIndex st <= k) ->
            fails items fn i = false ->
            filter (fun j => fails items fn j = true
                             /\ existsb (awaits j) (<[w := b]> (workers st)) = false)
                   (invoked st)
            = filter (fun j => fails items fn j = true
                               /\ existsb (awaits j) (workers st) = false)
                     (invoked st)).
  { intros b Hb Hnf. apply filter_ext_in. intros j Hj.
    rewrite Hinvoked in Hj. apply elem_of_seq in Hj.
    rewrite <- !not_true_iff_false.
    rewrite (existsb_awaits_insert _ w i b j Hdistinct Hw).
    split; intros [Hfj Hna]; (split; [done|]).
    - intros Ha. apply Hna. right. split; [|done]. intros ->. congruence.
    - intros [->|[_ Ha]]; [|done]. specialize (Hb j eq_refl). lia. }
  destruct Hcase as [(r & Hfn & Hlt & ->) | [(r & Hfn & Hge & ->) | (e & Hfn & ->)]].
  - pose proof (fails_Fulfilled i x r Hx Hfn) as Hnf.
    assert (Hfailed :
      filter (fun j => fails items fn j = true
                       /\ existsb (awaits j)
                            (<[w := Awaiting (nextIndex st)]> (workers st)) = false)
             (invoked st ++ [nextIndex st])
      = filter (fun j => fails items fn j = true
                         /\ existsb (awaits j) (workers st) = false)
               (invoked st)).
    { rewrite filter_app, Hstay; [|intros k [= <-]; lia|done].
      rewrite filter_cons_False, filter_nil, app_nil_r; [done|].
      intros [_ Hna]. apply not_true_iff_false in Hna. apply Hna.
      apply (existsb_awaits_insert _ w i _ _ Hdistinct Hw). by left. }
    constructor; unfold rejected_workers, failed, awaited; fields.
    + rewrite Hfailed, <- Hcount.
      pose proof (threw_insert (workers st) w _ (Awaiting (nextIndex st)) Hw).
      simpl in *. lia.
    + rewrite Hfailed. intros w' e Hw'.
      apply list_lookup_insert_Some in Hw' as [(_ & ? & _)|(_ & Hw')];
        [done|by apply (Hown w')].
  - pose proof (fails_Fulfilled i x r Hx Hfn) as Hnf.
    constructor; unfold rejected_workers, failed, awaited; fields.
    + rewrite Hstay, <- Hcount; [|done|done].
      pose proof (threw_insert (workers st) w _ Exited Hw).
      simpl in *. lia.
    + rewrite Hstay; [|done|done]. intros w' e Hw'.
      apply list_lookup_insert_Some in Hw' as [(_ & ? & _)|(_ & Hw')];
        [done|by apply (Hown w')].
  - pose proof (fails_Rejected i x e Hx Hfn) as Hyes.
    assert (Hin : i ∈ invoked st)
      by (rewrite Hinvoked; apply elem_of_seq; lia).
    assert (Hnow : existsb (awaits i) (<[w := Threw e]> (workers st)) = false).
    { apply not_true_iff_false.
      rewrite (existsb_awaits_insert _ w i _ _ Hdistinct Hw).
      by intros [|[? _]]. }
    assert (Hkeep : forall j, j <> i ->
              existsb (awaits j) (<[w := Threw e]> (workers st))
              = existsb (awaits j) (workers st)).
    { intros j Hne. apply eq_true_iff_eq.
      rewrite (existsb_awaits_insert _ w i _ _ Hdistinct Hw).
      split; [by intros [|[_ ?]]|by right]. }
    constructor; unfold rejected_workers, failed, awaited; fields.
    + rewrite (length_filter_one_more
                 (fun j => fails items fn j = true
                           /\ existsb (awaits j) (workers st) = false)
                 _ (invoked st) i).
      * rewrite <- Hcount.
        pose proof (threw_insert (workers st) w _ (Threw e) Hw).
        simpl in *. lia.
      * rewrite Hinvoked. apply NoDup_seq.
      * done.
      * intros [_ Hna]. congruence.
      * done.
      * intros j _ Hne. by rewrite Hkeep.
    + intros w' e' Hw'.
      apply list_lookup_insert_Some in Hw' as [(<- & [= <-] & _)|(Hne & Hw')].
      * exists i, x. split; [|done]. by apply list_elem_of_filter.
      * destruct (Hown w' e' Hw') as (j & y & Hj & Hy & Hfj).
        exists j, y. split; [|done].
        apply list_elem_of_filter in Hj as [[Hfails Hna] Hj].
        assert (j <> i) by (intros ->; congruence).
        apply list_elem_of_filter. by rewrite Hkeep.
Qed.

Lemma reachable_failures (st : state R E) :
  reachable items fn concurrency st ->
  failures_invariant items fn st.
Proof.
  unfold reachable. intros Hsteps.
  assert (Hgen : forall st0 st1 : state R E,
            rtc (step items fn) st0 st1 ->
            invariant items fn concurrency st0 /\ slots_invariant items fn st0
            /\ failures_invariant items fn st0 ->
            failures_invariant items fn st1).
  { intros st0 st1 H. induction H as [|a b c [w Hw] _ IH]; [by intros (_ & _ & ?)|].
    intros (Hi & Hs & Hf). apply IH. split; [|split].
    - by eapply complete_invariant.
    - by eapply complete_slots.
    - by eapply complete_failures. }
  apply (Hgen _ _ Hsteps). split; [|split].
  - apply mapWithConcurrency_invariant.
  - apply mapWithConcurrency_slots.
  - apply mapWithConcurrency_failures.
Qed.

(** A completion is that of the invocation its worker awaits: it settles as
    the task function does at that index and leaves the other workers as
    they are. *)
Lemma complete_own w (st st' : state R E) :
  complete items fn w st = Some st' ->
  exists i x,
    workers st !! w = Some (Awaiting i) /\ items !! i = Some x
    /\ (forall w', w' <> w -> workers st' !! w' = workers st !! w')
    /\ match fn x i with
       | Fulfilled r =>
           (i < length (results st) -> results st' !! i = Some (Some r))
           /\ exists b, workers st' !! w = Some b /\ is_threw b = false
       | Rejected e =>
           workers st' !! w = Some (Threw e) /\ results st' = results st
       end.
Proof.
  intros Hc.
  destruct (complete_cases _ _ _ _ _ Hc) as (i & x & Hw & Hx & Hcase).
  pose proof (lookup_lt_Some _ _ _ Hw) as Hwlt.
  exists i, x. split; [done|]. split; [done|].
  destruct Hcase as [(r & Hfn & Hlt & ->) | [(r & Hfn & Hge & ->) | (e & Hfn & ->)]];
    rewrite Hfn; fields.
  - split; [intros w' Hne; by rewrite list_lookup_insert_ne|].
    split; [intros ?; by rewrite list_lookup_insert_eq|].
    eexists. by rewrite list_lookup_insert_eq.
  - split; [intros w' Hne; by rewrite list_lookup_insert_ne|].
    split; [intros ?; by rewrite list_lookup_insert_eq|].
    eexists. by rewrite list_lookup_insert_eq.
  - split; [intros w' Hne; by rewrite list_lookup_insert_ne|].
    split; [by rewrite list_lookup_insert_eq|done].
Qed.

Lemma exited_or_none (ws : list (worker E)) :
  (exists w, ws !! w = Some Exited)
  \/ (forall w x, ws !! w = Some x -> x <> Exited).
Proof.
  induction ws as [|a ws [[w Hw]|IH]].
  - right. intros [|w] x; discriminate.
  - left. by exists (S w).
  - destruct a as [i| |e].
    + right. intros [|w] x Hx; simplify_eq/=; [done|by eapply IH].
    + left. by exists 0.
    + right. intros [|w] x Hx; simplify_eq/=; [done|by eapply IH].
Qed.

End slots.

(** X1. The claim of an index is exclusive: at every instant of a run no
    index is awaited by two workers, and an index that is awaited is in
    range, has been passed to the task function, and has its slot still
    unassigned. *)
Theorem claims_are_exclusive {T R E : Type}
    (items : list T) (fn : T -> nat -> promise_result E R) (concurrency : Z)
    (st : state R E) :
  reachable items fn concurrency st ->
  (forall w w' i,
     workers st !! w = Some (Awaiting i) ->
     workers st !! w' = Some (Awaiting i) -> w = w')
  /\ (forall w i,
        workers st !! w = Some (Awaiting i) ->
        i < length items /\ i ∈ invoked st /\ results st !! i = Some None).
Proof.
  intros [Hinv Hs]%reachable_slots. split; [apply Hs|].
  intros w i Hw.
  pose proof (inv_awaiting _ _ _ _ Hinv w i Hw) as Hi.
  pose proof (inv_next _ _ _ _ Hinv) as Hn.
  split; [lia|]. split.
  - rewrite (inv_invoked _ _ _ _ Hinv). apply elem_of_seq. lia.
  - by apply (slots_awaited _ _ _ Hs w).
Qed.

(** X1 at three items and two workers, after one completion. *)
Lemma claims_are_exclusive_witness :
  (forall w w' i,
     workers (run [10; 20; 30] (fun x i : nat => Fulfilled (E := unit) (x + i))
                [1] (mapWithConcurrency [10; 20; 30] 2)) !! w
       = Some (Awaiting i) ->
     workers (run [10; 20; 30] (fun x i : nat => Fulfilled (E := unit) (x + i))
                [1] (mapWithConcurrency [10; 20; 30] 2)) !! w'
       = Some (Awaiting i) -> w = w')
  /\ (forall w i,
        workers (run [10; 20; 30] (fun x i : nat => Fulfilled (E := unit) (x + i))
                   [1] (mapWithConcurrency [10; 20; 30] 2)) !! w
          = Some (Awaiting i) ->
        i < length [10; 20; 30]
        /\ i ∈ invoked (run [10; 20; 30]
                          (fun x i : nat => Fulfilled (E := unit) (x + i))
                          [1] (mapWithConcurrency [10; 20; 30] 2))
        /\ results (run [10; 20; 30]
                      (fun x i : nat => Fulfilled (E := unit) (x + i))
                      [1] (mapWithConcurrency [10; 20; 30] 2)) !! i
           = Some None).
Proof.
  apply (claims_are_exclusive [10; 20; 30]
           (fun x i : nat => Fulfilled (E := unit) (x + i)) 2).
  apply run_rtc.
Defined.

(** X2. The results buffer only ever holds outputs in their own slots: at
    every instant of a run, failing runs included, the buffer has N slots,
    an assigned slot [j] holds the value that [fn(items[j], j)] was
    fulfilled with, and a slot once assigned keeps its value for the rest of
    the run. *)
Theorem results_hold_outputs_only {T R E : Type}
    (items : list T) (fn : T -> nat -> promise_result E R) (concurrency : Z)
    (st : state R E) :
  reachable items fn concurrency st ->
  length (results st) = length items
  /\ (forall j r, results st !! j = Some (Some r) ->
        exists x, items !! j = Some x /\ fn x j = Fulfilled r)
  /\ (forall st' j r,
        rtc (step items fn) st st' ->
        results st !! j = Some (Some r) -> results st' !! j = Some (Some r)).
Proof.
  intros Hreach. destruct (reachable_slots _ _ _ _ Hreach) as [Hinv Hs].
  split; [apply Hinv|]. split; [apply Hs|].
  intros st' j r Hsteps. revert Hreach Hinv Hs.
  induction Hsteps as [|a b c [w Hw] _ IH]; [done|].
  intros Hreach Hinv Hs Hj.
  assert (Hb : reachable items fn concurrency b)
    by (eapply rtc_r; [exact Hreach|by exists w]).
  destruct (reachable_slots _ _ _ _ Hb) as [Hinvb Hsb].
  apply (IH Hb Hinvb Hsb).
  destruct (complete_results items fn w a b j Hw) as [->|Haw]; [done|].
  apply (slots_awaited _ _ _ Hs) in Haw. congruence.
Qed.

(** X2 in a run where the second task fails. *)
Lemma results_hold_outputs_only_witness :
  length (results (run [10; 20; 30]
                     (fun x i : nat =>
                        if i =? 1 then Rejected () else Fulfilled (x + i))
                     [1; 0] (mapWithConcurrency [10; 20; 30] 2)))
  = length [10; 20; 30]
  /\ (forall j r,
        results (run [10; 20; 30]
                   (fun x i : nat =>
                      if i =? 1 then Rejected () else Fulfilled (x + i))
                   [1; 0] (mapWithConcurrency [10; 20; 30] 2)) !! j
          = Some (Some r) ->
        exists x, [10; 20; 30] !! j = Some x
          /\ (if j =? 1 then Rejected () else Fulfilled (x + j)) = Fulfilled r)
  /\ (forall st' j r,
        rtc (step [10; 20; 30]
               (fun x i : nat =>
                  if i =? 1 then Rejected () else Fulfilled (x + i)))
            (run [10; 20; 30]
               (fun x i : nat =>
                  if i =? 1 then Rejected () else Fulfilled (x + i))
               [1; 0] (mapWithConcurrency [10; 20; 30] 2)) st' ->
        results (run [10; 20; 30]
                   (fun x i : nat =>
                      if i =? 1 then Rejected () else Fulfilled (x + i))
                   [1; 0] (mapWithConcurrency [10; 20; 30] 2)) !! j
          = Some (Some r) ->
        results st' !! j = Some (Some r)).
Proof.
  apply (results_hold_outputs_only [10; 20; 30]
           (fun x i : nat => if i =? 1 then Rejected () else Fulfilled (x + i))
           2).
  apply run_rtc.
Defined.

(** X3. A failure cancels nothing.  From every state of a run, also after
    the caller's promise has been rejected: the pending invocations drain,
    and what the caller's promise settled with is not changed by it.  Every
    pending invocation can still settle, and a completion is that of the
    invocation its worker awaits: it settles as the task function does at
    that index, writing the slot of that index or rejecting that worker, and
    leaves every other worker as it is.  No invocation is abandoned: each
    index passed to the task function is still awaited, or has its value in
    its slot, or has failed and rejected a worker.  A worker is rejected
    only by the failure of an invocation of its own: there are exactly as
    many rejected workers as invocations that have failed, and each carries
    the reason of one of them.  When nothing is pending any more, either the
    task function has been called on every item or every worker launched has
    been rejected. *)
Theorem failure_cancels_nothing {T R E : Type}
    (items : list T) (fn : T -> nat -> promise_result E R) (concurrency : Z)
    (st : state R E) :
  reachable items fn concurrency st ->
  (exists st', rtc (step items fn) st st' /\ quiescent st')
  /\ (forall o st', settled st = Some o ->
        rtc (step items fn) st st' -> settled st' = Some o)
  /\ (forall w i, workers st !! w = Some (Awaiting i) ->
        is_Some (complete items fn w st))
  /\ (forall w st',
        complete items fn w st = Some st' ->
        exists i x,
          workers st !! w = Some (Awaiting i) /\ items !! i = Some x
          /\ (forall w', w' <> w -> workers st' !! w' = workers st !! w')
          /\ match fn x i with
             | Fulfilled r =>
                 results st' !! i = Some (Some r)
                 /\ exists b, workers st' !! w = Some b /\ is_threw b = false
             | Rejected e =>
                 workers st' !! w = Some (Threw e) /\ results st' = results st
             end)
  /\ (forall j x, j ∈ invoked st -> items !! j = Some x ->
        (exists w, workers st !! w = Some (Awaiting j))
        \/ (exists r, fn x j = Fulfilled r /\ results st !! j = Some (Some r))
        \/ (exists e w, fn x j = Rejected e
                        /\ workers st !! w = Some (Threw e)))
  /\ rejected_workers st = length (failed items fn st)
  /\ (forall w e, workers st !! w = Some (Threw e) ->
        exists j x, j ∈ failed items fn st
                    /\ items !! j = Some x /\ fn x j = Rejected e)
  /\ (quiescent st ->
      (nextIndex st = length items /\ invoked st = seq 0 (length items))
      \/ (forall w x, workers st !! w = Some x -> exists e, x = Threw e)).
Proof.
  intros Hreach.
  pose proof (reachable_invariant _ _ _ _ Hreach) as Hinv.
  pose proof (reachable_failures _ _ _ _ Hreach) as Hfail.
  split; [by apply (runs_to_quiescence items fn concurrency)|].
  split.
  { intros o st' Ho Hsteps.
    induction Hsteps as [|a b c [w Hw] _ IH]; [done|].
    apply IH; try by eapply complete_settled.
    - eapply rtc_r; [exact Hreach|by exists w].
    - eapply complete_invariant; [exact Hinv|exact Hw].
    - eapply complete_failures; [exact Hinv| |exact Hfail|exact Hw].
      by apply (reachable_slots items fn concurrency). }
  split.
  { intros w i Hw.
    pose proof (inv_awaiting _ _ _ _ Hinv w i Hw) as Hi.
    pose proof (inv_next _ _ _ _ Hinv) as Hn.
    destruct (lookup_lt_is_Some_2 items i) as [x Hx]; [lia|].
    unfold complete. rewrite Hw, Hx.
    destruct (fn x i); [|done]. by destruct (worker_loop _ _). }
  split.
  { intros w st' Hc.
    destruct (complete_own _ _ _ _ _ Hc) as (i & x & Hw & Hx & Hframe & Hout).
    exists i, x. split; [done|]. split; [done|]. split; [done|].
    destruct (fn x i) as [r|e]; [|done].
    destruct Hout as [Hres Hb]. split; [|done]. apply Hres.
    rewrite (inv_results _ _ _ _ Hinv). by eapply lookup_lt_Some. }
  split.
  { intros j x Hj Hx. apply (inv_slot _ _ _ _ Hinv j x Hx).
    rewrite (inv_invoked _ _ _ _ Hinv) in Hj. apply elem_of_seq in Hj. lia. }
  split; [apply Hfail|]. split; [apply Hfail|].
  intros Hq.
  destruct (exited_or_none (workers st)) as [[w Hw]|Hno].
  - left. pose proof (inv_exited _ _ _ _ Hinv w Hw) as Hn.
    split; [done|]. by rewrite (inv_invoked _ _ _ _ Hinv), Hn.
  - right. intros w [i| |e] Hw.
    + apply awaiting_inflight in Hw. unfold quiescent in Hq. lia.
    + by destruct (Hno w Exited Hw).
    + by exists e.
Qed.

(** X3 in a run of three items and two workers where the second task fails
    while the first is pending: the first worker is still suspended on its
    invocation, which can settle, and the one rejected worker stands for the
    one invocation that has failed. *)
Lemma failure_cancels_nothing_witness :
  settled
    (run [10; 20; 30]
            (fun x i : nat => if i =? 1 then Rejected () else Fulfilled (x + i))
            [1] (mapWithConcurrency [10; 20; 30] 2))
  = Some (Rejected ())
  /\ workers
       (run [10; 20; 30]
            (fun x i : nat => if i =? 1 then Rejected () else Fulfilled (x + i))
            [1] (mapWithConcurrency [10; 20; 30] 2))
     = [Awaiting 0; Threw ()]
  /\ is_Some
       (complete [10; 20; 30]
          (fun x i : nat => if i =? 1 then Rejected () else Fulfilled (x + i))
          0
          (run [10; 20; 30]
            (fun x i : nat => if i =? 1 then Rejected () else Fulfilled (x + i))
            [1] (mapWithConcurrency [10; 20; 30] 2)))
  /\ rejected_workers
       (run [10; 20; 30]
            (fun x i : nat => if i =? 1 then Rejected () else Fulfilled (x + i))
            [1] (mapWithConcurrency [10; 20; 30] 2))
     = length
         (failed [10; 20; 30]
            (fun x i : nat => if i =? 1 then Rejected () else Fulfilled (x + i))
            (run [10; 20; 30]
            (fun x i : nat => if i =? 1 then Rejected () else Fulfilled (x + i))
            [1] (mapWithConcurrency [10; 20; 30] 2)))
  /\ failed [10; 20; 30]
       (fun x i : nat => if i =? 1 then Rejected () else Fulfilled (x + i))
       (run [10; 20; 30]
            (fun x i : nat => if i =? 1 then Rejected () else Fulfilled (x + i))
            [1] (mapWithConcurrency [10; 20; 30] 2))
     = [1].
Proof.
  destruct (failure_cancels_nothing [10; 20; 30]
              (fun x i : nat => if i =? 1 then Rejected () else Fulfilled (x + i))
              2 _ (run_rtc _ _ [1] _)) as (_ & _ & Hgo & _ & _ & Hcount & _).
  split; [reflexivity|]. split; [reflexivity|].
  split; [exact (Hgo 0 0 eq_refl)|]. split; [exact Hcount|reflexivity].
Defined.

Lemma all_awaiting_inflight {E : Type} (ws : list (worker E)) :
  (forall w x, ws !! w = Some x -> exists i, x = Awaiting i) ->
  length (filter (fun w => is_awaiting w = true) ws) = length ws.
Proof.
  induction ws as [|a ws IH]; intros Hall; [done|].
  destruct (Hall 0 a eq_refl) as [i ->].
  rewrite filter_cons_True by done. simpl. f_equal.
  apply IH. intros w x Hw. apply (Hall (S w) x Hw).
Qed.

(** X15. The pool is kept full.  As long as an index remains unclaimed, no
    worker has left the loop: every worker launched is awaiting an
    invocation or has been rejected; so when no worker has been rejected,
    exactly [max(0, min(K, N))] invocations are in flight. *)
Theorem pool_is_kept_full {T R E : Type}
    (items : list T) (fn : T -> nat -> promise_result E R) (concurrency : Z)
    (st : state R E) :
  reachable items fn concurrency st ->
  nextIndex st < length items ->
  (forall w x, workers st !! w = Some x ->
     (exists i, x = Awaiting i) \/ (exists e, x = Threw e))
  /\ ((forall w e, workers st !! w <> Some (Threw e)) ->
      Z.of_nat (inflight st)
      = Z.max 0 (Z.min concurrency (Z.of_nat (length items)))).
Proof.
  intros Hreach Hnext.
  pose proof (reachable_invariant _ _ _ _ Hreach) as Hinv.
  assert (Hbusy : forall w x, workers st !! w = Some x ->
            (exists i, x = Awaiting i) \/ (exists e, x = Threw e)).
  { intros w [i| |e] Hw; [left; by exists i| |right; by exists e].
    apply (inv_exited _ _ _ _ Hinv) in Hw. lia. }
  split; [done|]. intros Hno. unfold inflight.
  rewrite all_awaiting_inflight.
  - rewrite (inv_workers _ _ _ _ Hinv). unfold launched. lia.
  - intros w x Hw. destruct (Hbusy w x Hw) as [|[e ->]]; [done|].
    by apply Hno in Hw.
Qed.

(** X15 at four items and two workers, after one completion. *)
Lemma pool_is_kept_full_witness :
  Z.of_nat (inflight (run [10; 20; 30; 40]%nat
                        (fun x i : nat => Fulfilled (E := unit) (x + i)%nat)
                        [0%nat] (mapWithConcurrency [10; 20; 30; 40]%nat 2)))
  = Z.max 0 (Z.min 2 (Z.of_nat (length [10; 20; 30; 40]%nat))).
Proof.
  destruct (pool_is_kept_full [10; 20; 30; 40]
              (fun x i : nat => Fulfilled (E := unit) (x + i)) 2 _
              (run_rtc _ _ [0] _)) as [_ H].
  - vm_compute. lia.
  - apply H. intros [|[|w]] e; discriminate.
Defined.

End SchedulerExtras.

(** ** Further properties of the route and of the response schemas *)

Module RouteExtras.
Import Scheduler SchedulerFacts Offers SchemaFacts ResponseSchemas.

Lemma length_slice0 n s : String.length (slice0 n s) <= n.
Proof.
  unfold slice0. revert s. induction n as [|n IH]; intros [|c s]; simpl; try lia.
  specialize (IH s). lia.
Qed.

Lemma length_slice0_short n s :
  String.length s <= n -> slice0 n s = s.
Proof.
  unfold slice0. revert s. induction n as [|n IH]; intros [|c s]; simpl;
    try done; try lia.
  intros H. f_equal. apply IH. lia.
Qed.

Lemma prefix_slice0 n s : String.prefix (slice0 n s) s = true.
Proof.
  unfold slice0. revert s. induction n as [|n IH]; intros [|c s]; simpl; try done.
  destruct (ascii_dec c c); [apply IH|done].
Qed.

(** The requests of the invocations at all indices, in order. *)
Lemma flat_map_lookup_seq {A B} (f : A -> list B) (pre l : list A) :
  flat_map (fun i => match (pre ++ l) !! i with
                     | Some x => f x
                     | None => []
                     end) (seq (length pre) (length l))
  = flat_map f l.
Proof.
  revert pre. induction l as [|a l IH]; intros pre; [done|].
  cbn [length seq flat_map].
  rewrite lookup_app_r, Nat.sub_diag by lia. cbn [lookup list_lookup].
  f_equal. specialize (IH (pre ++ [a])).
  rewrite <- app_assoc, length_app in IH. cbn in IH.
  by rewrite Nat.add_1_r in IH.
Qed.

Section route.
Context {Model : Type}.
Variable languageModel : string -> promise_result thrown Model.
Variable generateText : GenerateTextRequest Model -> promise_result thrown string.
Variable buildOfferSystemPrompt : string -> string.
Variable JSON_parse : string -> option json.

Local Abbreviation processOffer' :=
  (processOffer languageModel generateText buildOfferSystemPrompt JSON_parse).
Local Abbreviation task' :=
  (task languageModel generateText buildOfferSystemPrompt JSON_parse).
Local Abbreviation handles' :=
  (handles languageModel generateText buildOfferSystemPrompt JSON_parse).

(** A task that succeeds has sent one request and echoes its input. *)
Lemma processOffer_Fulfilled offer r :
  snd (processOffer' offer) = Fulfilled r ->
  exists model text,
    languageModel "chat-model"%string = Fulfilled model
    /\ generateText (mkRequest model (buildOfferSystemPrompt (offerType offer))
                       (userPrompt offer) PER_OFFER_TIMEOUT_MS) = Fulfilled text
    /\ decode JSON_parse offer text = Fulfilled (copy r)
    /\ fst (processOffer' offer)
       = [mkRequest model (buildOfferSystemPrompt (offerType offer))
            (userPrompt offer) PER_OFFER_TIMEOUT_MS]
    /\ result_offerType r = offerType offer
    /\ result_offerDescription r = offerDescription offer.
Proof.
  unfold processOffer.
  destruct (languageModel _) as [model|] eqn:Hm; [|done].
  destruct (generateText _) as [text|] eqn:Hg; [|done].
  destruct (decode _ _ _) as [c|] eqn:Hd; [|done].
  intros [= <-]. exists model, text. by rewrite Hg.
Qed.

(** What lies behind a 200 response. *)
Lemma handles_200 body results requests :
  handles' body (Status200 results) requests ->
  exists offers sent,
    offerRequestBodySchema body = Some offers
    /\ length results = length offers
    /\ sent ≡ₚ seq 0 (length offers)
    /\ requests
       = requests_of languageModel generateText buildOfferSystemPrompt JSON_parse
           offers sent
    /\ forall i offer, offers !! i = Some offer ->
         exists r, snd (processOffer' offer) = Fulfilled r
                   /\ results !! i = Some (Some r).
Proof.
  intros Hh.
  inversion Hh as [|offers st outcome sent Hok Hst Ho Hsub Hsent Hresp Hreq].
  destruct outcome as [rs|e]; [|by destruct e].
  simpl in Hresp. injection Hresp as ->.
  exists offers, sent. split; [done|].
  apply settles_at_rtc in Hst.
  pose proof (reachable_invariant _ _ _ _ Hst) as Hinv.
  destruct (inv_fulfilled _ _ _ _ Hinv _ Ho) as [-> Hall].
  apply offerRequestBodySchema_Some in Hok.
  assert (Hlen : 1 <= length offers).
  { unfold batch_shape in Hok. destruct body as [[]|]; try done.
    destruct Hok as (items & _ & Hl & Hf). apply Forall2_length in Hf. lia. }
  assert (Hl : 0 < length (workers st)).
  { rewrite (inv_workers _ _ _ _ Hinv). unfold launched, BATCH_CONCURRENCY. lia. }
  destruct (lookup_lt_is_Some_2 _ _ Hl) as [w0 Hw0].
  pose proof (Hall _ _ Hw0) as ->.
  pose proof (inv_exited _ _ _ _ Hinv _ Hw0) as Hnext.
  split; [apply Hinv|]. split; [|split; [done|]].
  - rewrite (inv_invoked _ _ _ _ Hinv), Hnext in Hsub, Hsent.
    apply (anti_symm submseteq); [done|].
    apply NoDup_submseteq; [apply NoDup_seq|].
    intros i Hi. destruct (Hsent i Hi) as [|[w Hw]]; [done|].
    by apply Hall in Hw.
  - intros i offer Hi. pose proof (lookup_lt_Some _ _ _ Hi) as Hilt.
    destruct (inv_slot _ _ _ _ Hinv i offer Hi ltac:(lia))
      as [(w & Hw) | [(r & Hr & Hres) | (e' & w & _ & Hw)]].
    + by apply Hall in Hw.
    + by exists r.
    + by apply Hall in Hw.
Qed.

(** X4. A 200 response is complete: when the handler answers 200, the body
    was accepted, every task of the batch succeeded, the response carries
    one result per offer with no unassigned slot, result [i] being what
    [processOffer] returned for offer [i] and echoing its [offerType] and
    [offerDescription]; and the requests that have gone to the generation
    service are one per offer, each the request [processOffer] builds for
    its offer, in some order of the offers, which need not be theirs. *)
Theorem ok_response_is_complete
    (body : option json) (results : list (option OfferResult))
    (requests : list (GenerateTextRequest Model)) :
  handles' body (Status200 results) requests ->
  exists offers,
    offerRequestBodySchema body = Some offers
    /\ length results = length offers
    /\ (exists sent,
          sent ≡ₚ seq 0 (length offers)
          /\ Forall2 (fun i request =>
                        exists offer, offers !! i = Some offer
                          /\ fst (processOffer' offer) = [request])
               sent requests)
    /\ forall i offer, offers !! i = Some offer ->
         exists r, snd (processOffer' offer) = Fulfilled r
           /\ results !! i = Some (Some r)
           /\ result_offerType r = offerType offer
           /\ result_offerDescription r = offerDescription offer.
Proof.
  intros (offers & sent & Hok & Hlen & Hperm & -> & Hall)%handles_200.
  exists offers. split; [done|]. split; [done|]. split.
  - exists sent. split; [done|].
    assert (Hin : forall i, i ∈ sent -> i < length offers).
    { intros i Hi. rewrite Hperm in Hi. apply elem_of_seq in Hi. lia. }
    clear Hperm. induction sent as [|i sent IH]; [constructor|].
    destruct (lookup_lt_is_Some_2 offers i) as [offer Ho];
      [apply Hin; left|].
    destruct (Hall i offer Ho) as (r & Hr & _).
    apply processOffer_Fulfilled in Hr as (m & t & _ & _ & _ & Hreq & _).
    unfold requests_of. cbn [flat_map]. rewrite Ho, Hreq. simpl.
    constructor; [by exists offer|].
    apply IH. intros i' Hi'. apply Hin. by right.
  - intros i offer Hi. destruct (Hall i offer Hi) as (r & Hr & Hres).
    exists r. split; [done|]. split; [done|].
    by apply processOffer_Fulfilled in Hr as (m & t & _ & _ & _ & _ & ? & ?).
Qed.

(** X5. The decoder fails in two ways only.  A text whose cleaned form
    [JSON.parse] refuses gives the error that carries an excerpt of at most
    60 code units of the description and of at most 200 of the raw text,
    each a prefix of its source (the whole of it when it is that short);
    a document the schema refuses gives the [ZodError] of that document.
    There is no third failure and no partial record. *)
Theorem decode_failures (offer : OfferInput) (text : string) (e : thrown) :
  decode JSON_parse offer text = Rejected e ->
  (exists description60 text200,
     e = InvalidJSONError description60 text200
     /\ JSON_parse (cleaned text) = None
     /\ String.length description60 <= 60 /\ String.length text200 <= 200
     /\ String.prefix description60 (offerDescription offer) = true
     /\ String.prefix text200 text = true
     /\ (String.length (offerDescription offer) <= 60 ->
         description60 = offerDescription offer)
     /\ (String.length text <= 200 -> text200 = text))
  \/ (exists doc,
        e = ZodError doc
        /\ JSON_parse (cleaned text) = Some doc
        /\ offerCopySchema (Some doc) = None).
Proof.
  unfold decode. destruct (JSON_parse (cleaned text)) as [doc|] eqn:Hp.
  - destruct (offerCopySchema (Some doc)) eqn:Hs; [done|].
    intros [= <-]. right. by exists doc.
  - intros [= <-]. left. eexists _, _. split; [done|]. split; [done|].
    split; [apply length_slice0|]. split; [apply length_slice0|].
    split; [apply prefix_slice0|]. split; [apply prefix_slice0|].
    split; apply length_slice0_short.
Qed.

End route.

(** *** The response schemas *)

Lemma modeSchema_mode_tag m : modeSchema (Some (JString (mode_tag m))) = Some m.
Proof. by destruct m. Qed.

Lemma offerResultSchema_result_json r ms :
  offerResultSchema (Some (result_json (Some r) ms)) = Some (r, ms)
  <-> result_offerType r ∈ OFFER_TYPES.
Proof.
  destruct r as [t d m c]. unfold offerResultSchema, z.object, result_json.
  cbn [get String.eqb Ascii.eqb Bool.eqb result_offerType
       result_offerDescription mode copy]. 
  cbn [z.enum z.string mbind option_bind].
  case_bool_decide as Ht; cbn [mbind option_bind].
  - rewrite modeSchema_mode_tag. cbn [mbind option_bind].
    rewrite RouteTheorems.offerCopySchema_document_of. by cbn.
  - split; [done|]. intros. done.
Qed.

Lemma offerResultSchema_null ms :
  offerResultSchema (Some (result_json None ms)) = None.
Proof. reflexivity. Qed.

Lemma mapM_result_json rs times :
  length times = length rs ->
  (forall r, r ∈ rs -> result_offerType r ∈ OFFER_TYPES) ->
  mapM (fun x => offerResultSchema (Some x))
       (zip_with result_json (Some <$> rs) times)
  = Some (zip rs times).
Proof.
  intros Hlen Hok. apply mapM_Some. revert times Hlen.
  induction rs as [|r rs IH]; intros [|ms times] Hlen; try done.
  cbn [fmap list_fmap zip_with zip]. constructor.
  - apply offerResultSchema_result_json, Hok. left.
  - apply IH; [|by injection Hlen]. intros r' Hr'. apply Hok. by right.
Qed.

Lemma offerResponseSchema_response_json rs times total :
  length times = length rs ->
  (forall r, r ∈ rs -> result_offerType r ∈ OFFER_TYPES) ->
  offerResponseSchema (Some (response_json (Some <$> rs) times total))
  = Some (zip rs times, total).
Proof.
  intros Hlen Hok. unfold offerResponseSchema, z.object, response_json.
  cbn [get String.eqb Ascii.eqb Bool.eqb]. unfold z.array.
  by rewrite mapM_result_json.
Qed.

(** X6. The response schemas read back what the route sends.  The document
    of a 200 response whose slots are all assigned is accepted by
    [offerResponseSchema], with the results and times that went in, exactly
    when every [offerType] echoed is one of the 8 tags; a response with an
    unassigned slot, sent as [null], is refused. *)
Theorem response_round_trip
    (rs : list OfferResult) (times : list Z) (total : Z) :
  length times = length rs ->
  (offerResponseSchema (Some (response_json (Some <$> rs) times total))
   = Some (zip rs times, total)
   <-> forall r, r ∈ rs -> result_offerType r ∈ OFFER_TYPES)
  /\ (forall results,
        length times = length results -> None ∈ results ->
        offerResponseSchema (Some (response_json results times total)) = None).
Proof.
  intros Hlen. split; [split|].
  - unfold offerResponseSchema, z.object, response_json.
    cbn [get String.eqb Ascii.eqb Bool.eqb]. unfold z.array.
    intros H r Hr.
    apply bind_Some in H as (parsed & Hm & H).
    apply bind_Some in H as (t & _ & H). simplify_eq.
    apply mapM_Some in Hm.
    apply list_elem_of_lookup_1 in Hr as [i Hi].
    destruct (lookup_lt_is_Some_2 times i) as [ms Hms].
    { rewrite Hlen. by eapply lookup_lt_Some. }
    assert (Hz : zip_with result_json (Some <$> rs) times !! i
                 = Some (result_json (Some r) ms)).
    { apply lookup_zip_with_Some. exists (Some r), ms.
      by rewrite list_lookup_fmap, Hi. }
    assert (Hp : zip rs times !! i = Some (r, ms)) by (by apply lookup_zip_Some).
    pose proof (Forall2_lookup_lr _ _ _ _ _ _ Hm Hz Hp) as Hacc.
    simpl in Hacc. by apply (offerResultSchema_result_json r ms).
  - intros Hok. by apply offerResponseSchema_response_json.
  - intros results Hl [i Hi]%list_elem_of_lookup_1.
    unfold offerResponseSchema, z.object, response_json.
    cbn [get String.eqb Ascii.eqb Bool.eqb]. unfold z.array.
    destruct (lookup_lt_is_Some_2 times i) as [ms Hms].
    { rewrite Hl. by eapply lookup_lt_Some. }
    replace (mapM _ _) with (@None (list (OfferResult * Z))); [done|].
    symmetry. apply mapM_None. apply Exists_exists.
    exists (result_json None ms). split; [|done].
    apply (list_elem_of_lookup_2 _ i).
    apply lookup_zip_with_Some. by exists None, ms.
Qed.

Lemma all_assigned {A} (results : list (option A)) :
  (forall i, i < length results -> exists r, results !! i = Some (Some r)) ->
  exists rs, results = Some <$> rs.
Proof.
  induction results as [|o results IH]; intros Hall.
  - by exists [].
  - destruct (Hall 0 ltac:(simpl; lia)) as [r [= ->]].
    destruct IH as [rs ->].
    { intros i Hi. apply (Hall (S i)). simpl. lia. }
    by exists (r :: rs).
Qed.

Lemma accepted_offer_types body offers offer :
  offerRequestBodySchema body = Some offers ->
  offer ∈ offers -> offerType offer ∈ OFFER_TYPES.
Proof.
  intros Hok%offerRequestBodySchema_Some [i Hi]%list_elem_of_lookup_1.
  unfold batch_shape in Hok. destruct body as [[]|]; try done.
  destruct Hok as (items & _ & _ & Hall).
  destruct (Forall2_lookup_r _ _ _ _ _ Hall Hi) as (item & _ & Hitem).
  unfold item_within_bounds in Hitem. destruct item; try done.
  by destruct Hitem as (_ & ? & _).
Qed.

(** X7. Every 200 response the handler sends conforms to the response
    schema: whatever the times measured, the document sent is accepted by
    [offerResponseSchema], which reads back the results and the times. *)
Theorem ok_response_conforms {Model : Type}
    (languageModel : string -> promise_result thrown Model)
    (generateText : GenerateTextRequest Model -> promise_result thrown string)
    (buildOfferSystemPrompt : string -> string)
    (JSON_parse : string -> option json)
    (body : option json) (results : list (option OfferResult))
    (requests : list (GenerateTextRequest Model))
    (times : list Z) (total : Z) :
  handles languageModel generateText buildOfferSystemPrompt JSON_parse
    body (Status200 results) requests ->
  length times = length results ->
  exists rs,
    results = Some <$> rs
    /\ offerResponseSchema (Some (response_json results times total))
       = Some (zip rs times, total).
Proof.
  intros (offers & sent & Hok & Hlen & _ & _ & Hall)%handles_200 Htimes.
  destruct (all_assigned results) as [rs ->].
  { intros i Hi. rewrite Hlen in Hi.
    destruct (lookup_lt_is_Some_2 _ _ Hi) as [offer Ho].
    destruct (Hall i offer Ho) as (r & _ & Hr). by exists r. }
  exists rs. split; [done|].
  rewrite length_fmap in Htimes, Hlen.
  apply (offerResponseSchema_response_json rs times total Htimes).
  intros r [i Hi]%list_elem_of_lookup_1.
  destruct (lookup_lt_is_Some_2 offers i) as [offer Ho].
  { rewrite <- Hlen. by eapply lookup_lt_Some. }
  destruct (Hall i offer Ho) as (r' & Hr' & Hres).
  rewrite list_lookup_fmap, Hi in Hres. simplify_eq/=.
  apply processOffer_Fulfilled in Hr' as (_ & _ & _ & _ & _ & _ & -> & _).
  eapply accepted_offer_types; [exact Hok|]. by eapply list_elem_of_lookup_2.
Qed.

(** *** At the end-to-end example *)

(** The handler on the one-offer batch of the example. *)
Lemma sample_handles_200 :
  Sample.handles (request_body [Sample.item "discount" "20% off shoes"])
    (Status200 [Some (mkOfferResult "discount" "20% off shoes" generated
                        Sample.copy_record)])
    [mkRequest () "discount"%string
       (join_lines ["OFFER DESCRIPTION:"; "20% off shoes"; "";
                    "Please generate new customer-facing copy for this offer."]%string)
       5000%Z].
Proof.
  pose (offers := [mkOfferInput "discount" "20% off shoes" None]).
  pose (st := run_until_settled offers Sample.task [0]
                (mapWithConcurrency offers BATCH_CONCURRENCY)).
  apply (handles_batch Sample.languageModel Sample.generateText
           Sample.buildOfferSystemPrompt Sample.JSON_parse
           (request_body [Sample.item "discount" "20% off shoes"])
           offers st
           (Fulfilled [Some (mkOfferResult "discount" "20% off shoes" generated
                               Sample.copy_record)])
           [0]).
  - reflexivity.
  - apply run_until_settled_settles. by eexists.
  - reflexivity.
  - done.
  - intros i Hi. by left.
Qed.

(** The handler on a batch of two offers, when the provider answers the
    second task first: the request of the second offer goes out before the
    request of the first. *)
Lemma sample_handles_200_second_first :
  Sample.handles
    (request_body [Sample.item "discount" "20% off shoes";
                   Sample.item "bundle" "Shoes and socks"])
    (Status200 [Some (mkOfferResult "discount" "20% off shoes" generated
                        Sample.copy_record);
                Some (mkOfferResult "bundle" "Shoes and socks" generated
                        Sample.copy_record)])
    [mkRequest () "bundle"%string
       (join_lines ["OFFER DESCRIPTION:"; "Shoes and socks"; "";
                    "Please generate new customer-facing copy for this offer."]%string)
       5000%Z;
     mkRequest () "discount"%string
       (join_lines ["OFFER DESCRIPTION:"; "20% off shoes"; "";
                    "Please generate new customer-facing copy for this offer."]%string)
       5000%Z].
Proof.
  pose (offers := [mkOfferInput "discount" "20% off shoes" None;
                   mkOfferInput "bundle" "Shoes and socks" None]).
  pose (st := run_until_settled offers Sample.task [1; 0]
                (mapWithConcurrency offers BATCH_CONCURRENCY)).
  apply (handles_batch Sample.languageModel Sample.generateText
           Sample.buildOfferSystemPrompt Sample.JSON_parse
           (request_body [Sample.item "discount" "20% off shoes";
                          Sample.item "bundle" "Shoes and socks"])
           offers st
           (Fulfilled [Some (mkOfferResult "discount" "20% off shoes" generated
                               Sample.copy_record);
                       Some (mkOfferResult "bundle" "Shoes and socks" generated
                               Sample.copy_record)])
           [1; 0]).
  - reflexivity.
  - apply run_until_settled_settles. by eexists.
  - reflexivity.
  - apply Permutation_submseteq. apply perm_swap.
  - intros i Hi. left.
    change (invoked st) with [0; 1] in Hi.
    apply elem_of_cons in Hi as [->|Hi]; [by right; left|].
    apply elem_of_cons in Hi as [->|Hi]; [by left|].
    by apply elem_of_nil in Hi.
Qed.

(** X4 at a batch of two offers whose requests went out in the other
    order. *)
Lemma ok_response_is_complete_witness :
  exists offers,
    offerRequestBodySchema
      (request_body [Sample.item "discount" "20% off shoes";
                     Sample.item "bundle" "Shoes and socks"]) = Some offers
    /\ length [Some (mkOfferResult "discount" "20% off shoes" generated
                       Sample.copy_record);
               Some (mkOfferResult "bundle" "Shoes and socks" generated
                       Sample.copy_record)] = length offers
    /\ (exists sent,
          sent ≡ₚ seq 0 (length offers)
          /\ Forall2 (fun i request =>
                        exists offer, offers !! i = Some offer
                          /\ fst (Sample.processOffer offer) = [request])
               sent
               [mkRequest () "bundle"%string
                  (join_lines ["OFFER DESCRIPTION:"; "Shoes and socks"; "";
                               "Please generate new customer-facing copy for this offer."]%string)
                  5000%Z;
                mkRequest () "discount"%string
                  (join_lines ["OFFER DESCRIPTION:"; "20% off shoes"; "";
                               "Please generate new customer-facing copy for this offer."]%string)
                  5000%Z])
    /\ forall i offer, offers !! i = Some offer ->
         exists r, snd (Sample.processOffer offer) = Fulfilled r
           /\ [Some (mkOfferResult "discount" "20% off shoes" generated
                       Sample.copy_record);
               Some (mkOfferResult "bundle" "Shoes and socks" generated
                       Sample.copy_record)] !! i = Some (Some r)
           /\ result_offerType r = offerType offer
           /\ result_offerDescription r = offerDescription offer.
Proof.
  exact (ok_response_is_complete Sample.languageModel Sample.generateText
           Sample.buildOfferSystemPrompt Sample.JSON_parse _ _ _
           sample_handles_200_second_first).
Defined.

(** X5 at a text that is not JSON. *)
Lemma decode_failures_witness :
  (exists description60 text200,
     InvalidJSONError "20% off shoes" "Sure! Here is your copy."
     = InvalidJSONError description60 text200
     /\ Sample.JSON_parse (cleaned "Sure! Here is your copy.") = None
     /\ String.length description60 <= 60 /\ String.length text200 <= 200
     /\ String.prefix description60 "20% off shoes" = true
     /\ String.prefix text200 "Sure! Here is your copy." = true
     /\ (String.length "20% off shoes" <= 60 ->
         description60 = "20% off shoes"%string)
     /\ (String.length "Sure! Here is your copy." <= 200 ->
         text200 = "Sure! Here is your copy."%string))
  \/ (exists doc,
        InvalidJSONError "20% off shoes" "Sure! Here is your copy." = ZodError doc
        /\ Sample.JSON_parse (cleaned "Sure! Here is your copy.") = Some doc
        /\ offerCopySchema (Some doc) = None).
Proof.
  apply (decode_failures Sample.JSON_parse
           (mkOfferInput "discount" "20% off shoes" None)
           "Sure! Here is your copy.").
  reflexivity.
Defined.

(** X6 at the result of the example. *)
Lemma response_round_trip_witness :
  (offerResponseSchema
     (Some (response_json
              [Some (mkOfferResult "discount" "20% off shoes" generated
                       Sample.copy_record)] [1850%Z] 1900%Z))
   = Some ([(mkOfferResult "discount" "20% off shoes" generated
               Sample.copy_record, 1850%Z)], 1900%Z)
   <-> forall r,
         r ∈ [mkOfferResult "discount" "20% off shoes" generated
                Sample.copy_record] ->
         result_offerType r ∈ OFFER_TYPES)
  /\ (forall results,
        length [1850%Z] = length results -> None ∈ results ->
        offerResponseSchema (Some (response_json results [1850%Z] 1900%Z))
        = None).
Proof.
  apply (response_round_trip
           [mkOfferResult "discount" "20% off shoes" generated Sample.copy_record]
           [1850%Z] 1900%Z).
  reflexivity.
Defined.

(** X7 at the example. *)
Lemma ok_response_conforms_witness :
  exists rs,
    [Some (mkOfferResult "discount" "20% off shoes" generated Sample.copy_record)]
    = Some <$> rs
    /\ offerResponseSchema
         (Some (response_json
                  [Some (mkOfferResult "discount" "20% off shoes" generated
                           Sample.copy_record)] [1850%Z] 1900%Z))
       = Some (zip rs [1850%Z], 1900%Z).
Proof.
  exact (ok_response_conforms Sample.languageModel Sample.generateText
           Sample.buildOfferSystemPrompt Sample.JSON_parse _ _ _ [1850%Z] 1900%Z
           sample_handles_200 eq_refl).
Defined.

End RouteExtras.

(** ** The page: submission, import and form state *)

Module OfferPageFacts.
Import Offers OfferPage TextFacts SchemaFacts.
#[local] Arguments String.append !_ _ / : simpl nomatch.

(** *** What is submitted and what the server reads *)

Lemma nonblank_nonempty s : trim s <> EmptyString -> 1 <= String.length s.
Proof. destruct s; [done|simpl; lia]. Qed.

(** The server reads from the item of an entry the Task Input of that entry,
    when the fields are within bounds, and nothing otherwise. *)
Lemma payload_item_within_bounds e offer :
  item_within_bounds (payload_item e) offer
  <-> offer = offer_of_entry e
      /\ entry_offerType e ∈ OFFER_TYPES
      /\ 1 <= String.length (entry_offerDescription e) <= 2000
      /\ String.length (entry_existingCopy e) <= 5000.
Proof.
  destruct e as [i t d c], offer as [t' d' c'].
  unfold item_within_bounds, payload_item, offer_of_entry.
  cbn [entry_offerType entry_offerDescription entry_existingCopy
       offerType offerDescription existingCopy].
  destruct c as [|a c], c' as [c'|];
    cbn [app get String.eqb Ascii.eqb Bool.eqb optional_text String.length];
    split; intros H; destruct_and?; simplify_eq; repeat split;
    try done; simpl in *; lia.
Qed.

Lemma payload_items_within_bounds entries offers :
  Forall2 item_within_bounds (payload_item <$> entries) offers
  <-> offers = offer_of_entry <$> entries
      /\ forall e, e ∈ entries ->
           entry_offerType e ∈ OFFER_TYPES
           /\ 1 <= String.length (entry_offerDescription e) <= 2000
           /\ String.length (entry_existingCopy e) <= 5000.
Proof.
  revert offers. induction entries as [|e entries IH]; intros offers.
  - cbn. split.
    + intros ->%Forall2_nil_inv_l. split; [done|]. by intros e ?%elem_of_nil.
    + intros [-> _]. constructor.
  - cbn [fmap list_fmap]. split.
    + intros (offer & offers' & Hitem & Hrest & ->)%Forall2_cons_inv_l.
      apply payload_item_within_bounds in Hitem as (-> & Hb).
      apply IH in Hrest as [-> Hall]. split; [done|].
      intros e' [->|He']%elem_of_cons; [done|by apply Hall].
    + intros [-> Hall]. constructor.
      * apply payload_item_within_bounds. split; [done|]. apply Hall. left.
      * apply IH. split; [done|]. intros e' He'. apply Hall. by right.
Qed.

Lemma valid_nonblank entries e :
  e ∈ valid entries ->
  e ∈ entries /\ 1 <= String.length (entry_offerDescription e).
Proof.
  unfold valid. intros [Hb He]%list_elem_of_filter.
  split; [done|by apply nonblank_nonempty].
Qed.

(** X8. What the page submits and what the server accepts.  Nothing is sent
    when every description is blank.  Otherwise the body holds the entries
    with a description that is not blank, and the server's schema accepts it
    exactly when there are at most 50 of them, each with an [offerType]
    among the 8 tags, a description of at most 2000 code units and existing
    copy of at most 5000; the Task Inputs it reads are these entries in
    order, with [existingCopy] absent where the field of the form is empty,
    so on this path [existingCopy] is never present and empty. *)
Theorem submitted_body_accepted (entries : list OfferFormEntry) :
  (handleSubmit_body entries = None
   <-> forall e, e ∈ entries -> trim (entry_offerDescription e) = EmptyString)
  /\ (forall body,
        handleSubmit_body entries = Some body ->
        body = request_body (payload_item <$> valid entries)
        /\ (forall offers,
              offerRequestBodySchema body = Some offers
              <-> offers = offer_of_entry <$> valid entries
                  /\ length (valid entries) <= 50
                  /\ forall e, e ∈ valid entries ->
                       entry_offerType e ∈ OFFER_TYPES
                       /\ String.length (entry_offerDescription e) <= 2000
                       /\ String.length (entry_existingCopy e) <= 5000)
        /\ (forall offers offer,
              offerRequestBodySchema body = Some offers -> offer ∈ offers ->
              existingCopy offer <> Some EmptyString
              /\ (truthy (existingCopy offer) = true
                  <-> is_Some (existingCopy offer)))).
Proof.
  split.
  - unfold handleSubmit_body, valid. split.
    + destruct (filter _ entries) as [|e0 l] eqn:Hf; [|done]. intros _ e He.
      destruct (decide (trim (entry_offerDescription e) = EmptyString)) as [|Hne];
        [done|].
      assert (Hin : e ∈ filter (fun e => trim (entry_offerDescription e)
                                          <> EmptyString) entries)
        by (by apply list_elem_of_filter).
      rewrite Hf in Hin. by apply elem_of_nil in Hin.
    + intros Hall. destruct (filter _ entries) as [|e0 l] eqn:Hf; [done|].
      assert (Hin : e0 ∈ filter (fun e => trim (entry_offerDescription e)
                                           <> EmptyString) entries)
        by (rewrite Hf; left).
      apply list_elem_of_filter in Hin as [Hne Hin]. destruct Hne. by apply Hall.
  - intros body Hbody. unfold handleSubmit_body in Hbody.
    destruct (valid entries) as [|e0 sent] eqn:Hv; [done|].
    injection Hbody as <-.
    assert (Hiff : forall offers,
      offerRequestBodySchema (request_body (payload_item <$> e0 :: sent))
      = Some offers
      <-> offers = offer_of_entry <$> e0 :: sent
          /\ length (e0 :: sent) <= 50
          /\ forall e, e ∈ e0 :: sent ->
               entry_offerType e ∈ OFFER_TYPES
               /\ String.length (entry_offerDescription e) <= 2000
               /\ String.length (entry_existingCopy e) <= 5000).
    { intros offers.
      rewrite offerRequestBodySchema_Some, RouteTheorems.request_body_shape,
        payload_items_within_bounds, length_fmap.
      split.
      - intros (Hlen & -> & Hall). split; [done|]. split; [lia|].
        intros e He. destruct (Hall e He) as (? & ? & ?). repeat split; [done|lia|done].
      - intros (-> & Hlen & Hall). split; [simpl in *; lia|]. split; [done|].
        intros e He. destruct (Hall e He) as (? & ? & ?).
        rewrite <- Hv in He. apply valid_nonblank in He as [_ ?].
        repeat split; try done; lia. }
    split; [done|]. split; [exact Hiff|].
    intros offers offer Hok Hin. apply Hiff in Hok as (-> & _ & _).
    apply list_elem_of_fmap in Hin as (e & -> & _).
    unfold offer_of_entry. simpl. destruct (entry_existingCopy e); simpl.
    + split; [done|]. split; [done|]. by intros [? ?].
    + split; [done|]. split; [by eexists|done].
Qed.

(** *** Import from JSON *)

Section import.
Variable randomUUID : nat -> string.
Variable JSON_parse : string -> option json.
Variable String_of : json -> option string.

Local Abbreviation parseJsonBatch' :=
  (parseJsonBatch randomUUID JSON_parse String_of).
Local Abbreviation parseCsvBatch' := (parseCsvBatch randomUUID).
Local Abbreviation handleFileImport' :=
  (handleFileImport randomUUID JSON_parse String_of).
Local Abbreviation imported_from' :=
  (imported_from randomUUID JSON_parse String_of).

Lemma keeps_None item : keeps item = None <-> item = JNull.
Proof.
  unfold keeps. destruct item as [| | | | |fields]; try done.
  by destruct (get "offerType" fields) as [[]|].
Qed.

Lemma keeps_true item :
  keeps item = Some true <->
  exists fields offerType,
    item = JObject fields
    /\ get "offerType"%string fields = Some (JString offerType)
    /\ offerType ∈ OFFER_TYPES.
Proof.
  unfold keeps. split.
  - destruct item as [| | | | |fields]; try done.
    destruct (get "offerType" fields) as [[| | |t| |]|] eqn:Hg; try done.
    intros [= Ht]. apply bool_decide_eq_true in Ht. by exists fields, t.
  - intros (fields & t & -> & -> & Ht). f_equal. by apply bool_decide_eq_true.
Qed.

Lemma mapM_keeps_None items :
  mapM keeps items = None <-> JNull ∈ items.
Proof.
  rewrite mapM_None. split.
  - intros (item & Hin & ->%keeps_None)%Exists_exists. done.
  - intros Hin. apply Exists_exists. exists JNull. split; [done|by apply keeps_None].
Qed.

Lemma offers_of_data_cases data :
  (data = JNull /\ offers_of_data data = None)
  \/ (exists items, offers_of_data data = Some (JArray items))
  \/ (exists fields v,
        data = JObject fields /\ get "offers"%string fields = Some v
        /\ offers_of_data data = Some v
        /\ v <> JNull /\ forall items, v <> JArray items).
Proof.
  destruct data as [| | | |items|fields]; cbn [offers_of_data].
  - by left.
  - right; left. by exists [].
  - right; left. by exists [].
  - right; left. by exists [].
  - right; left. by exists items.
  - destruct (get "offers" fields) as [[| | | |items|]|] eqn:Hg.
    + right; left. by exists [].
    + right; right. eexists _, _. by repeat split.
    + right; right. eexists _, _. by repeat split.
    + right; right. eexists _, _. by repeat split.
    + right; left. by exists items.
    + right; right. eexists _, _. by repeat split.
    + right; left. by exists [].
Qed.

Lemma entry_of_columns_lookup drawn cols j e :
  imap (entry_of_columns randomUUID drawn) cols !! j = Some e ->
  exists c, cols !! j = Some c /\ e = entry_of_columns randomUUID drawn j c.
Proof.
  rewrite list_lookup_imap. destruct (cols !! j) as [c|]; [|done].
  intros [= <-]. by exists c.
Qed.

Lemma String_or_empty_None v :
  String_or_empty String_of v = None <->
  exists x, v = Some x /\ x <> JNull /\ (forall s, x <> JString s)
            /\ String_of x = None.
Proof.
  split.
  - destruct v as [x|]; [|done]. intros H. exists x.
    destruct x; try done; by repeat split.
  - intros (x & -> & Hn & Hs & H). destruct x; try done. by destruct (Hs s).
Qed.

Lemma columns_of_item_None fields :
  columns_of_item String_of (JObject fields) = None <->
  exists v,
    (get "offerDescription"%string fields = Some v
     \/ get "existingCopy"%string fields = Some v)
    /\ v <> JNull /\ (forall s, v <> JString s) /\ String_of v = None.
Proof.
  cbn [columns_of_item]. split.
  - destruct (String_or_empty String_of (get "offerDescription" fields))
      as [d|] eqn:Hd.
    + destruct (String_or_empty String_of (get "existingCopy" fields))
        as [c|] eqn:Hc; [done|].
      intros _. apply String_or_empty_None in Hc as (v & Hv & ?).
      exists v. split; [by right|done].
    + intros _. apply String_or_empty_None in Hd as (v & Hv & ?).
      exists v. split; [by left|done].
  - intros (v & [Hv|Hv] & H).
    + assert (Hd : String_or_empty String_of (get "offerDescription" fields) = None)
        by (apply String_or_empty_None; by exists v).
      by rewrite Hd.
    + assert (Hc : String_or_empty String_of (get "existingCopy" fields) = None)
        by (apply String_or_empty_None; by exists v).
      rewrite Hc.
      by destruct (String_or_empty String_of (get "offerDescription" fields)).
Qed.

Lemma columns_of_item_Some item cols :
  keeps item = Some true ->
  columns_of_item String_of item = Some cols ->
  exists fields,
    item = JObject fields
    /\ get "offerType"%string fields = Some (JString cols.1.1)
    /\ cols.1.1 ∈ OFFER_TYPES
    /\ String_or_empty String_of (get "offerDescription"%string fields)
       = Some cols.1.2
    /\ String_or_empty String_of (get "existingCopy"%string fields)
       = Some cols.2.
Proof.
  intros (fields & t & -> & Hg & Ht)%keeps_true. cbn [columns_of_item].
  intros H. apply bind_Some in H as (d & Hd & H).
  apply bind_Some in H as (c & Hc & [= <-]).
  exists fields. unfold offerType_of. rewrite Hg. by repeat split.
Qed.

(** What [parseJsonBatch] does with the array it has found. *)
Lemma mapM_columns_None items :
  mapM (columns_of_item String_of)
       (filter (fun item => keeps item = Some true) items) = None
  <-> exists fields v,
        JObject fields ∈ items
        /\ keeps (JObject fields) = Some true
        /\ (get "offerDescription"%string fields = Some v
            \/ get "existingCopy"%string fields = Some v)
        /\ v <> JNull /\ (forall s, v <> JString s) /\ String_of v = None.
Proof.
  rewrite mapM_None. split.
  - intros (item & [Hk Hin]%list_elem_of_filter & Hnone)%Exists_exists.
    pose proof Hk as (fields & t & -> & _)%keeps_true.
    apply columns_of_item_None in Hnone as (v & Hv & H).
    by exists fields, v.
  - intros (fields & v & Hin & Hk & Hv & H). apply Exists_exists.
    exists (JObject fields). split; [by apply list_elem_of_filter|].
    apply columns_of_item_None. by exists v.
Qed.

(** What comes out of [parseJsonBatch] when it does not throw. *)
Lemma parseJsonBatch_Some drawn text entries :
  parseJsonBatch' drawn text = Some entries ->
  exists data items columns,
    JSON_parse text = Some data
    /\ offers_of_data data = Some (JArray items)
    /\ entries = imap (entry_of_columns randomUUID drawn) columns
    /\ Forall2
         (fun item cols =>
            exists fields,
              item = JObject fields
              /\ get "offerType"%string fields = Some (JString cols.1.1)
              /\ cols.1.1 ∈ OFFER_TYPES
              /\ String_or_empty String_of
                   (get "offerDescription"%string fields) = Some cols.1.2
              /\ String_or_empty String_of
                   (get "existingCopy"%string fields) = Some cols.2)
         (filter (fun item => keeps item = Some true) items) columns.
Proof.
  unfold parseJsonBatch. intros H.
  apply bind_Some in H as (data & Hd & H).
  apply bind_Some in H as (arr & Harr & H).
  destruct arr as [| | | |items|]; try done.
  apply bind_Some in H as (kept & Hk & H).
  apply bind_Some in H as (columns & Hc & [= <-]).
  exists data, items, columns. split; [done|]. split; [done|]. split; [done|].
  apply mapM_Some in Hc.
  assert (Hkept : Forall (fun item => keeps item = Some true)
                    (filter (fun item => keeps item = Some true) items)).
  { apply Forall_forall. by intros item [? _]%list_elem_of_filter. }
  clear Hd Harr Hk. induction Hc as [|item cols l k Hcol _ IH]; [constructor|].
  apply Forall_cons in Hkept as [Hkeep Hkept].
  constructor; [by apply columns_of_item_Some|by apply IH].
Qed.

Lemma parseJsonBatch_types drawn text entries e :
  parseJsonBatch' drawn text = Some entries ->
  e ∈ entries -> entry_offerType e ∈ OFFER_TYPES.
Proof.
  intros (data & items & columns & _ & _ & -> & Hcols)%parseJsonBatch_Some
         [j He]%list_elem_of_lookup_1.
  apply entry_of_columns_lookup in He as (c & Hcj & ->).
  destruct (Forall2_lookup_r _ _ _ _ _ Hcols Hcj)
    as (item & _ & fields & _ & _ & ? & _).
  done.
Qed.

(** X9. Import from JSON.  [parseJsonBatch] throws exactly when
    [JSON.parse] does, when the data is [null], when [offers] is present and
    neither [null] nor an array, when an item of the array is [null], or
    when an item that the filter keeps has a description or existing copy,
    neither [null] nor a string, on which [String] throws.  Otherwise it
    yields one entry for every item the filter keeps, in the order of the
    array: the entry has the item's [offerType], which is one of the 8
    tags, the texts of its description and existing copy (empty where they
    are absent or [null]), and the next identifier drawn. *)
Theorem parseJsonBatch_outcome (drawn : nat) (text : string) :
  (parseJsonBatch' drawn text = None <->
   JSON_parse text = None
   \/ exists data, JSON_parse text = Some data
        /\ (data = JNull
            \/ (exists fields v,
                  data = JObject fields
                  /\ get "offers"%string fields = Some v
                  /\ v <> JNull /\ forall items, v <> JArray items)
            \/ (exists items,
                  offers_of_data data = Some (JArray items)
                  /\ (JNull ∈ items
                      \/ exists fields v,
                           JObject fields ∈ items
                           /\ keeps (JObject fields) = Some true
                           /\ (get "offerDescription"%string fields = Some v
                               \/ get "existingCopy"%string fields = Some v)
                           /\ v <> JNull /\ (forall s, v <> JString s)
                           /\ String_of v = None))))
  /\ (forall entries,
        parseJsonBatch' drawn text = Some entries ->
        exists data items,
          JSON_parse text = Some data
          /\ offers_of_data data = Some (JArray items)
          /\ Forall2
               (fun item e =>
                  exists fields,
                    item = JObject fields
                    /\ get "offerType"%string fields
                       = Some (JString (entry_offerType e))
                    /\ String_or_empty String_of
                         (get "offerDescription"%string fields)
                       = Some (entry_offerDescription e)
                    /\ String_or_empty String_of
                         (get "existingCopy"%string fields)
                       = Some (entry_existingCopy e))
               (filter (fun item => keeps item = Some true) items) entries
          /\ length entries <= length items
          /\ (forall e, e ∈ entries -> entry_offerType e ∈ OFFER_TYPES)
          /\ (forall j e, entries !! j = Some e ->
                id e = randomUUID (drawn + j))).
Proof.
  unfold parseJsonBatch. split.
  - destruct (JSON_parse text) as [data|]; [|split; [by left|done]].
    cbn [mbind option_bind].
    destruct (offers_of_data_cases data)
      as [[-> Hn]|[(items & Hi)|(fields & v & -> & Hg & Hv & Hnn & Hna)]].
    + split; [|done]. intros _. right. exists JNull. split; [done|by left].
    + rewrite Hi. cbn [mbind option_bind]. split.
      * intros H. right. exists data. split; [done|]. right; right.
        exists items. split; [done|].
        destruct (mapM keeps items) as [kept|] eqn:Hk;
          [|left; by apply mapM_keeps_None].
        right. apply mapM_columns_None. cbn [mbind option_bind] in H.
        by destruct (mapM (columns_of_item String_of) _).
      * intros [|(data' & [= <-] & [->|[(fields & v & -> & Hg & Hn & Ha)
                                       |(items' & Hi' & Hin)]])]; [done|done| |].
        -- cbn [offers_of_data] in Hi. rewrite Hg in Hi.
           destruct v; simplify_eq; by destruct (Ha items).
        -- rewrite Hi in Hi'. injection Hi' as <-.
           destruct Hin as [Hin|Hin].
           ++ apply mapM_keeps_None in Hin. by rewrite Hin.
           ++ apply mapM_columns_None in Hin. rewrite Hin.
              by destruct (mapM keeps items).
    + rewrite Hv. cbn [mbind option_bind]. split.
      * intros _. right. eexists. split; [done|]. right; left.
        by exists fields, v.
      * intros _. destruct v; try done. by destruct (Hna elements).
  - intros entries H. pose proof H as Htypes.
    apply parseJsonBatch_Some in H
      as (data & items & columns & Hd & Harr & -> & Hcols).
    exists data, items. split; [done|]. split; [done|].
    split; [|split; [|split]].
    + apply Forall2_same_length_lookup. split.
      { rewrite length_imap. by eapply Forall2_length. }
      intros j item e Hitem He.
      apply entry_of_columns_lookup in He as (c & Hcj & ->).
      destruct (Forall2_lookup_lr _ _ _ _ _ _ Hcols Hitem Hcj)
        as (fields & -> & ? & _ & ? & ?).
      by exists fields.
    + rewrite length_imap, <- (Forall2_length _ _ _ Hcols). apply length_filter.
    + intros e He. by eapply parseJsonBatch_types.
    + intros j e He. by apply entry_of_columns_lookup in He as (c & _ & ->).
Qed.

Lemma filter_keeps_payload (entries : list OfferFormEntry) :
  (forall e, e ∈ entries -> entry_offerType e ∈ OFFER_TYPES) ->
  mapM keeps (payload_item <$> entries) = Some ((fun _ => true) <$> entries)
  /\ filter (fun item => keeps item = Some true) (payload_item <$> entries)
     = payload_item <$> entries.
Proof.
  induction entries as [|e entries IH]; intros Hall; [done|].
  destruct IH as [IH1 IH2]; [intros e' He'; apply Hall; by right|].
  assert (He : keeps (payload_item e) = Some true).
  { apply keeps_true. eexists _, _. split; [reflexivity|]. split; [done|].
    apply Hall. left. }
  cbn [fmap list_fmap]. split.
  - cbn [mapM]. rewrite He. cbn [mbind option_bind].
    change (mapM keeps (list_fmap _ _ payload_item entries))
      with (mapM keeps (payload_item <$> entries)).
    by rewrite IH1.
  - rewrite filter_cons_True by done. f_equal. exact IH2.
Qed.

Lemma columns_of_payload_item e :
  columns_of_item String_of (payload_item e)
  = Some (entry_offerType e, entry_offerDescription e, entry_existingCopy e).
Proof. destruct e as [i t d [|a c]]; reflexivity. Qed.

Lemma mapM_columns_payload (entries : list OfferFormEntry) :
  mapM (columns_of_item String_of) (payload_item <$> entries)
  = Some ((fun e => (entry_offerType e, entry_offerDescription e,
                     entry_existingCopy e)) <$> entries).
Proof.
  apply mapM_Some. induction entries as [|e entries IH]; [constructor|].
  cbn [fmap list_fmap]. constructor; [apply columns_of_payload_item|exact IH].
Qed.

(** X10. A request body read back.  When the text of the file parses to
    the body the page would submit for a list of entries with valid
    [offerType], or to the bare array of its items, [parseJsonBatch] yields
    these entries, field by field and in order, under new identifiers; an
    empty [existingCopy], left out of the body, comes back empty. *)
Theorem parseJsonBatch_reads_back_a_body
    (drawn : nat) (text : string) (entries : list OfferFormEntry) :
  (forall e, e ∈ entries -> entry_offerType e ∈ OFFER_TYPES) ->
  JSON_parse text = Some (JArray (payload_item <$> entries))
  \/ JSON_parse text = request_body (payload_item <$> entries) ->
  parseJsonBatch' drawn text
  = Some (imap (fun j e => mkEntry (randomUUID (drawn + j)) (entry_offerType e)
                             (entry_offerDescription e) (entry_existingCopy e))
            entries).
Proof.
  intros Hall Hparse. destruct (filter_keeps_payload entries Hall) as [Hm Hf].
  assert (Harr : exists data, JSON_parse text = Some data
            /\ offers_of_data data = Some (JArray (payload_item <$> entries))).
  { destruct Hparse as [H|H]; eexists; (split; [exact H|]); reflexivity. }
  destruct Harr as (data & Hd & Harr).
  unfold parseJsonBatch. rewrite Hd. cbn [mbind option_bind]. rewrite Harr.
  cbn [mbind option_bind]. rewrite Hm. cbn [mbind option_bind]. rewrite Hf.
  rewrite mapM_columns_payload. cbn [mbind option_bind].
  f_equal. rewrite imap_fmap. by apply imap_ext.
Qed.

End import.

(** *** Lines and columns *)

Lemma append_char c x : (String c EmptyString ++ x)%string = String c x.
Proof. reflexivity. Qed.

Lemma split_nonempty sep s : split sep s <> [].
Proof.
  destruct s as [|c s]; simpl; [done|].
  destruct (Ascii.eqb c sep); [done|]. by destruct (split sep s).
Qed.

Lemma free_of_app c a b :
  free_of c (a ++ b)%string = free_of c a && free_of c b.
Proof.
  induction a as [|x a IH]; simpl; [done|]. by rewrite IH, andb_assoc.
Qed.

Lemma split_free sep s : free_of sep s = true -> split sep s = [s].
Proof.
  induction s as [|c s IH]; simpl; [done|].
  intros [Hc Hs]%andb_true_iff. apply negb_true_iff in Hc.
  by rewrite Hc, IH.
Qed.

Lemma split_app sep a b :
  free_of sep a = true ->
  split sep (a ++ String sep b)%string = a :: split sep b.
Proof.
  induction a as [|c a IH]; simpl.
  - intros _. by rewrite Ascii.eqb_refl.
  - intros [Hc Ha]%andb_true_iff. apply negb_true_iff in Hc.
    by rewrite Hc, IH.
Qed.

Lemma split_concat sep (lines : list string) :
  lines <> [] ->
  (forall line, line ∈ lines -> free_of sep line = true) ->
  split sep (String.concat (String sep EmptyString) lines) = lines.
Proof.
  induction lines as [|line lines IH]; [done|]. intros _ Hfree.
  destruct lines as [|line' lines].
  - simpl. apply split_free, Hfree. left.
  - cbn [String.concat]. change (String sep "" ++ ?x)%string with (String sep x).
    rewrite split_app by (apply Hfree; left). f_equal.
    apply IH; [done|]. intros l Hl. apply Hfree. by right.
Qed.

Lemma free_of_trimStart c s : free_of c s = true -> free_of c (trimStart s) = true.
Proof.
  induction s as [|x s IH]; simpl; [done|].
  intros [Hx Hs]%andb_true_iff. destruct (is_ws x); [by apply IH|].
  simpl. by rewrite Hx, Hs.
Qed.

Lemma free_of_trimEnd c s : free_of c s = true -> free_of c (trimEnd s) = true.
Proof.
  induction s as [|x s IH]; [done|]. cbn [trimEnd free_of].
  intros [Hx Hs]%andb_true_iff. destruct (all_ws (String x s)); [done|].
  simpl. by rewrite Hx, IH.
Qed.

Lemma trimEnd_app a b :
  all_ws b = false -> trimEnd (a ++ b)%string = (a ++ trimEnd b)%string.
Proof.
  intros Hb. induction a as [|c a IH]; [done|].
  change (String c a ++ b)%string with (String c (a ++ b)%string). cbn [trimEnd].
  replace (all_ws (String c (a ++ b)%string)) with false.
  - by rewrite IH.
  - simpl. by rewrite all_ws_app, Hb, !andb_false_r.
Qed.

Lemma trimEnd_app_ws a b :
  all_ws b = true -> trimEnd (a ++ b)%string = trimEnd a.
Proof.
  intros Hb. induction a as [|c a IH].
  - simpl. destruct b as [|x b]; [done|]. cbn [trimEnd]. by rewrite Hb.
  - change (String c a ++ b)%string with (String c (a ++ b)%string). cbn [trimEnd].
    rewrite IH. simpl. by rewrite all_ws_app, Hb, andb_true_r.
Qed.

Lemma length_trimEnd s : String.length (trimEnd s) <= String.length s.
Proof.
  induction s as [|c s IH]; [done|]. cbn [trimEnd].
  destruct (all_ws (String c s)); simpl; lia.
Qed.

Lemma trimStart_same_length s :
  String.length (trimStart s) = String.length s -> trimStart s = s.
Proof.
  destruct s as [|c s]; simpl; [done|]. destruct (is_ws c); [|done].
  pose proof (length_trimStart s). lia.
Qed.

Lemma trimEnd_same_length s :
  String.length (trimEnd s) = String.length s -> trimEnd s = s.
Proof.
  induction s as [|c s IH]; [done|]. cbn [trimEnd].
  destruct (all_ws (String c s)); simpl; [done|].
  intros [= H]. by rewrite IH.
Qed.

(** A text that [trim] leaves alone has no white space at either end. *)
Lemma trim_fixed s : trim s = s -> trimStart s = s /\ trimEnd s = s.
Proof.
  unfold trim. intros H.
  pose proof (length_trimStart s) as H1.
  pose proof (length_trimEnd (trimStart s)) as H2. rewrite H in H2.
  assert (Hs : trimStart s = s) by (apply trimStart_same_length; lia).
  split; [done|]. by rewrite Hs in H.
Qed.

Lemma trim_idemp s : trim (trim s) = trim s.
Proof. unfold trim at 2. apply trim_trimEnd_trimStart. Qed.

Lemma csv_field_spec s :
  csv_field s = true ->
  free_of "," s = true /\ free_of "010" s = true
  /\ trim s = s /\ trimEnd s = s.
Proof.
  unfold csv_field. intros [[H1 H2]%andb_true_iff H3%String.eqb_eq]%andb_true_iff.
  by destruct (trim_fixed s H3).
Qed.

Lemma offer_type_csv_field t : t ∈ OFFER_TYPES -> csv_field t = true.
Proof.
  unfold OFFER_TYPES. intros H.
  repeat (apply elem_of_cons in H as [->|H]; [by vm_compute|]).
  by apply elem_of_nil in H.
Qed.

(** A line written from three columns is read back as these columns. *)
Lemma parseCsvLine_csv_line t d c :
  t ∈ OFFER_TYPES -> csv_field d = true -> csv_field c = true ->
  parseCsvLine (csv_line (t, d, c)) = Some (t, d, c).
Proof.
  intros Ht (Hd1 & _ & Hd2 & _)%csv_field_spec (Hc1 & _ & Hc2 & _)%csv_field_spec.
  destruct (csv_field_spec t (offer_type_csv_field t Ht)) as (Ht1 & _ & Ht2 & _).
  unfold parseCsvLine, csv_line. cbn [fst snd].
  rewrite !append_char.
  rewrite !split_app, split_free by done.
  cbn [fmap list_fmap head default lookup list_lookup drop String.concat].
  rewrite Ht2, Hd2, Hc2. by rewrite bool_decide_true.
Qed.

Lemma free_of_csv_line t d c :
  t ∈ OFFER_TYPES -> csv_field d = true -> csv_field c = true ->
  free_of "010" (csv_line (t, d, c)) = true
  /\ all_ws (csv_line (t, d, c)) = false
  /\ trimEnd (csv_line (t, d, c)) = csv_line (t, d, c).
Proof.
  intros Ht (_ & Hd & _)%csv_field_spec (_ & Hc & _ & Hce)%csv_field_spec.
  destruct (csv_field_spec t (offer_type_csv_field t Ht)) as (_ & Ht1 & _).
  unfold csv_line. cbn [fst snd]. rewrite !append_char.
  split; [|split].
  - rewrite free_of_app. cbn [free_of]. rewrite free_of_app. cbn [free_of].
    by rewrite Ht1, Hd, Hc.
  - rewrite all_ws_app. simpl. apply andb_false_r.
  - rewrite trimEnd_app by done.
    change (String "," (d ++ String "," c)%string)
      with (String "," d ++ String "," c)%string.
    rewrite trimEnd_app by done. cbn [trimEnd].
    change (all_ws (String "," c)) with false. cbn. by rewrite Hce.
Qed.

Lemma all_ws_concat_lines (line : string) (lines : list string) :
  all_ws line = false ->
  all_ws (String.concat (String "010" EmptyString) (line :: lines)) = false.
Proof.
  intros Hws. destruct lines as [|line' lines]; [done|].
  cbn [String.concat]. by rewrite all_ws_app, Hws.
Qed.

Lemma trimEnd_concat_lines (lines : list string) :
  (forall line, line ∈ lines -> all_ws line = false /\ trimEnd line = line) ->
  trimEnd (String.concat (String "010" EmptyString) lines)
  = String.concat (String "010" EmptyString) lines.
Proof.
  induction lines as [|line lines IH]; [done|]. intros Hall.
  destruct (Hall line ltac:(left)) as [Hws Hend].
  destruct lines as [|line' lines]; [exact Hend|].
  destruct (Hall line' ltac:(right; left)) as [Hws' _].
  pose proof (all_ws_concat_lines line' lines Hws') as Hrest.
  change (String.concat (String "010" "") (line :: line' :: lines))
    with (line ++ String "010" (String.concat (String "010" "") (line' :: lines)))%string.
  set (rest := String.concat (String "010" "") (line' :: lines)) in *.
  assert (Hb : all_ws (String "010" rest) = false)
    by (cbn [all_ws]; rewrite Hrest; apply andb_false_r).
  rewrite trimEnd_app by done.
  cbn [trimEnd]. rewrite Hb, IH; [done|].
  intros l Hl. apply Hall. by right.
Qed.

Lemma csv_rows_text (rows : list (string * string * string)) :
  rows <> [] ->
  (forall row, row ∈ rows ->
     row.1.1 ∈ OFFER_TYPES /\ csv_field row.1.2 = true /\ csv_field row.2 = true) ->
  all_ws (String.concat (String "010" EmptyString) (csv_line <$> rows)) = false
  /\ trimEnd (String.concat (String "010" EmptyString) (csv_line <$> rows))
     = String.concat (String "010" EmptyString) (csv_line <$> rows)
  /\ split "010" (String.concat (String "010" EmptyString) (csv_line <$> rows))
     = csv_line <$> rows.
Proof.
  intros Hne Hall.
  assert (Hline : forall line, line ∈ csv_line <$> rows ->
            free_of "010" line = true
            /\ all_ws line = false /\ trimEnd line = line).
  { intros line ([[t d] c] & -> & Hrow)%list_elem_of_fmap.
    destruct (Hall _ Hrow) as (? & ? & ?). by apply free_of_csv_line. }
  split; [|split].
  - destruct rows as [|row rows]; [done|]. cbn [fmap list_fmap].
    apply all_ws_concat_lines. apply (Hline (csv_line row)). left.
  - apply trimEnd_concat_lines. intros line Hl.
    by destruct (Hline line Hl) as (_ & ? & ?).
  - apply split_concat; [by destruct rows|].
    intros line Hl. by destruct (Hline line Hl) as (? & _).
Qed.

Lemma omap_parseCsvLine_csv_line (rows : list (string * string * string)) :
  (forall row, row ∈ rows ->
     row.1.1 ∈ OFFER_TYPES /\ csv_field row.1.2 = true /\ csv_field row.2 = true) ->
  omap parseCsvLine (csv_line <$> rows) = rows.
Proof.
  induction rows as [|[[t d] c] rows IH]; intros Hall; [done|].
  cbn [fmap list_fmap omap list_omap].
  destruct (Hall (t, d, c) ltac:(left)) as (? & ? & ?).
  rewrite parseCsvLine_csv_line by done. f_equal.
  apply IH. intros r Hr. apply Hall. by right.
Qed.

Lemma length_omap_le {A B} (f : A -> option B) (l : list A) :
  length (omap f l) <= length l.
Proof.
  induction l as [|a l IH]; [done|]. cbn [omap list_omap].
  destruct (f a); simpl; lia.
Qed.

Lemma parseCsvLine_Some line t d c :
  parseCsvLine line = Some (t, d, c) ->
  t ∈ OFFER_TYPES /\ trim d = d.
Proof.
  unfold parseCsvLine. case_bool_decide as Ht; [|done].
  intros [= <- <- <-]. split; [done|].
  destruct ((trim <$> split "," line) !! 1) as [x|] eqn:Hx; [|done].
  rewrite list_lookup_fmap in Hx.
  destruct (split "," line !! 1) as [y|]; simplify_eq/=. apply trim_idemp.
Qed.

Section csv.
Variable randomUUID : nat -> string.

(** The trimmed form of a text that starts with a line that is not blank. *)
Lemma trim_header header rest :
  all_ws header = false ->
  trim (header ++ String "010" rest)
  = if all_ws rest then trim header
    else (trimStart header ++ String "010" (trimEnd rest))%string.
Proof.
  intros Hws. unfold trim. rewrite trimStart_app by done.
  destruct (all_ws rest) eqn:Hrest.
  - apply trimEnd_app_ws. cbn [all_ws]. by rewrite Hrest.
  - assert (Hb : all_ws (String "010" rest) = false)
      by (cbn [all_ws]; rewrite Hrest; apply andb_false_r).
    rewrite trimEnd_app by done. cbn [trimEnd]. by rewrite Hb.
Qed.

(** The entries come from the lines after the first. *)
Lemma parseCsvBatch_lines drawn text line rest :
  trim text = (line ++ String "010" rest)%string ->
  free_of "010" line = true ->
  parseCsvBatch randomUUID drawn text
  = imap (entry_of_columns randomUUID drawn)
      (omap parseCsvLine (split "010" rest)).
Proof.
  intros Ht Hfree. unfold parseCsvBatch. rewrite Ht, split_app by done.
  cbn [tail length].
  replace (S (length (split "010" rest)) <? 2) with false; [done|].
  symmetry. apply Nat.ltb_ge.
  pose proof (split_nonempty "010" rest). destruct (split "010" rest); [done|].
  simpl. lia.
Qed.

Lemma parseCsvBatch_header drawn header rest :
  free_of "010" header = true -> all_ws header = false ->
  parseCsvBatch randomUUID drawn (header ++ String "010" rest)
  = if all_ws rest then []
    else imap (entry_of_columns randomUUID drawn)
           (omap parseCsvLine (split "010" (trimEnd rest))).
Proof.
  intros Hfree Hws. pose proof (trim_header header rest Hws) as Ht.
  destruct (all_ws rest).
  - unfold parseCsvBatch. rewrite Ht, split_free; [done|].
    by apply free_of_trimEnd, free_of_trimStart.
  - apply (parseCsvBatch_lines _ _ _ _ Ht). by apply free_of_trimStart.
Qed.

(** X11. Import from CSV.  [parseCsvBatch] does not read the first line of
    the trimmed text.  A text of one line gives no entry.  When the trimmed
    text is a first line followed by more text, the entries are those of the
    lines of that further text, in order, whatever the first line holds: two
    files that differ in their header line only are imported alike.  Every
    entry is read from a line after the first, whose first column is one of
    the 8 tags; its description has no white space at its ends and its
    identifier is the next one drawn. *)
Theorem parseCsvBatch_entries (drawn : nat) (text : string) :
  (free_of "010" (trim text) = true ->
   parseCsvBatch randomUUID drawn text = [])
  /\ (forall line rest,
        trim text = (line ++ String "010" rest)%string ->
        free_of "010" line = true ->
        parseCsvBatch randomUUID drawn text
        = imap (entry_of_columns randomUUID drawn)
            (omap parseCsvLine (split "010" rest)))
  /\ (forall header header' rest,
        free_of "010" header = true -> all_ws header = false ->
        free_of "010" header' = true -> all_ws header' = false ->
        parseCsvBatch randomUUID drawn (header ++ String "010" rest)
        = parseCsvBatch randomUUID drawn (header' ++ String "010" rest))
  /\ length (parseCsvBatch randomUUID drawn text)
     <= length (split "010" (trim text)) - 1
  /\ (forall j e,
        parseCsvBatch randomUUID drawn text !! j = Some e ->
        (exists k line,
           1 <= k /\ split "010" (trim text) !! k = Some line
           /\ parseCsvLine line
              = Some (entry_offerType e, entry_offerDescription e,
                      entry_existingCopy e))
        /\ entry_offerType e ∈ OFFER_TYPES
        /\ trim (entry_offerDescription e) = entry_offerDescription e
        /\ id e = randomUUID (drawn + j)).
Proof.
  split; [|split; [|split; [|split]]].
  - intros Hfree. unfold parseCsvBatch. by rewrite (split_free _ _ Hfree).
  - apply parseCsvBatch_lines.
  - intros header header' rest Hf Hw Hf' Hw'.
    by rewrite !parseCsvBatch_header.
  - unfold parseCsvBatch.
    destruct (length (split "010" (trim text)) <? 2); [simpl; lia|].
    rewrite length_imap.
    etrans; [apply length_omap_le|].
    destruct (split "010" (trim text)); simpl; lia.
  - intros j e. unfold parseCsvBatch.
    destruct (length (split "010" (trim text)) <? 2); [done|].
    intros He. apply entry_of_columns_lookup in He as ([[t d] c] & Hc & ->).
    apply list_elem_of_lookup_2, list_elem_of_omap in Hc as (line & Hin & Hline).
    pose proof Hline as [? ?]%parseCsvLine_Some.
    split; [|by repeat split].
    apply list_elem_of_lookup_1 in Hin as [k Hk]. rewrite lookup_tail in Hk.
    exists (S k), line. split; [lia|]. by split.
Qed.

(** X12. A CSV file read back.  For a header line that is not blank and
    rows whose first column is one of the 8 tags and whose other two columns
    hold neither comma nor line feed nor white space at their ends, the text
    of the header and one line per row is imported as exactly these rows, in
    order, whatever the header says. *)
Theorem parseCsvBatch_reads_back_rows
    (drawn : nat) (header : string) (rows : list (string * string * string)) :
  free_of "010" header = true ->
  all_ws header = false ->
  (forall row, row ∈ rows ->
     row.1.1 ∈ OFFER_TYPES /\ csv_field row.1.2 = true /\ csv_field row.2 = true) ->
  parseCsvBatch randomUUID drawn (csv_text header rows)
  = imap (entry_of_columns randomUUID drawn) rows.
Proof.
  intros Hfree Hws Hrows. unfold parseCsvBatch, csv_text, trim.
  rewrite trimStart_app by done.
  destruct rows as [|row rows].
  - cbn [fmap list_fmap String.concat].
    change (String "010" "") with (String "010" "" ++ "")%string.
    rewrite <- (append_char "010" ""), trimEnd_app_ws by done.
    rewrite split_free by (by apply free_of_trimEnd, free_of_trimStart).
    done.
  - destruct (csv_rows_text (row :: rows) ltac:(done) Hrows) as (Hb1 & Hb2 & Hb3).
    set (rest := String.concat (String "010" "") (csv_line <$> row :: rows)) in *.
    assert (Hb : all_ws (String "010" rest) = false)
      by (cbn [all_ws]; rewrite Hb1; apply andb_false_r).
    rewrite trimEnd_app by done.
    cbn [trimEnd]. rewrite Hb, Hb2, split_app by (by apply free_of_trimStart).
    rewrite Hb3. cbn [tail].
    replace (length (trimStart header :: (csv_line <$> row :: rows)) <? 2)
      with false by (symmetry; apply Nat.ltb_ge; simpl; lia).
    by rewrite omap_parseCsvLine_csv_line.
Qed.

End csv.

(** *** Import into the form, and the form over time *)

Section form.
Variable randomUUID : nat -> string.
Variable JSON_parse : string -> option json.
Variable String_of : json -> option string.

Lemma imported_types drawn name text imported e :
  imported_from randomUUID JSON_parse String_of drawn name text = Some imported ->
  e ∈ imported -> entry_offerType e ∈ OFFER_TYPES.
Proof.
  unfold imported_from. destruct (endsWith ".json" name).
  - apply parseJsonBatch_types.
  - intros [= <-] [j He]%list_elem_of_lookup_1.
    unfold parseCsvBatch in He.
    destruct (length (split "010" (trim text)) <? 2); [done|].
    apply entry_of_columns_lookup in He as ([[t d] c] & Hc & ->).
    apply list_elem_of_lookup_2, list_elem_of_omap in Hc as (line & _ & Hline).
    by apply parseCsvLine_Some in Hline as [? ?].
Qed.

(** X13. An import replaces the form or leaves it alone, and which of the
    two is decided by what the parser yields.  Only a file named [.json] can
    fail to parse.  When the parser throws, or yields no entry, the entries
    of the form stay as they are and the one notification is the matching
    error.  When it yields entries, the form is replaced by the first 50 of
    them, at least one and at most 50, each with one of the 8 tags as its
    [offerType]; the notifications are the error about the maximum when
    more than 50 came out, then the success with the number of entries now
    in the form.  So the form changes only through an import that yields
    entries. *)
Theorem handleFileImport_outcome
    (drawn : nat) (name text : string) (entries : list OfferFormEntry) :
  let imported_from :=
    imported_from randomUUID JSON_parse String_of drawn name text in
  let outcome :=
    handleFileImport randomUUID JSON_parse String_of drawn name text entries in
  (imported_from = None
   <-> endsWith ".json" name = true
       /\ parseJsonBatch randomUUID JSON_parse String_of drawn text = None)
  /\ (imported_from = None ->
      outcome = (entries, [ToastError "Failed to parse file"]))
  /\ (imported_from = Some [] ->
      outcome = (entries, [ToastError "No valid offers found in file"]))
  /\ (forall imported,
        imported_from = Some imported -> imported <> [] ->
        outcome.1 = take 50 imported
        /\ length outcome.1 = Nat.min 50 (length imported)
        /\ 1 <= length outcome.1 <= 50
        /\ (forall e, e ∈ outcome.1 -> entry_offerType e ∈ OFFER_TYPES)
        /\ outcome.2
           = (if 50 <? length imported
              then [ToastError "Maximum 50 offers per batch"] else [])
             ++ [ToastImported (length outcome.1)])
  /\ (outcome.1 <> entries ->
      exists imported,
        imported_from = Some imported /\ imported <> []
        /\ outcome.1 = take 50 imported).
Proof.
  intros imported_from0 outcome.
  assert (Hcases : forall imported,
            imported_from0 = Some imported -> imported <> [] ->
            outcome.1 = take 50 imported
            /\ outcome.2
               = (if 50 <? length imported
                  then [ToastError "Maximum 50 offers per batch"] else [])
                 ++ [ToastImported (length (take 50 imported))]).
  { intros imported Hi Hne. unfold outcome, handleFileImport.
    fold imported_from0. rewrite Hi.
    destruct imported as [|e0 imported]; [done|]. cbn [length Nat.eqb].
    destruct (50 <? S (length imported)) eqn:H50; cbn [fst snd].
    - apply Nat.ltb_lt in H50. rewrite length_take_le by (simpl; lia). done.
    - apply Nat.ltb_ge in H50. by rewrite take_ge by done. }
  split; [|split; [|split; [|split]]].
  - unfold imported_from0, imported_from.
    destruct (endsWith ".json" name); [by split; [|intros []]|].
    split; [done|by intros []].
  - intros Hi. unfold outcome, handleFileImport. fold imported_from0.
    by rewrite Hi.
  - intros Hi. unfold outcome, handleFileImport. fold imported_from0.
    by rewrite Hi.
  - intros imported Hi Hne. destruct (Hcases imported Hi Hne) as [H1 H2].
    rewrite H2, H1, length_take.
    assert (0 < length imported) by (destruct imported; [done|simpl; lia]).
    split; [done|]. split; [lia|]. split; [lia|]. split; [|done].
    intros e He. eapply imported_types; [exact Hi|].
    by apply (subseteq_take 50 imported).
  - intros Hch. destruct imported_from0 as [imported|] eqn:Hi.
    + destruct imported as [|e0 imported].
      * unfold outcome, handleFileImport in Hch. fold imported_from0 in Hch.
        rewrite Hi in Hch. by destruct Hch.
      * exists (e0 :: imported). split; [done|]. split; [done|].
        by apply (Hcases (e0 :: imported)).
    + unfold outcome, handleFileImport in Hch. fold imported_from0 in Hch.
      rewrite Hi in Hch. by destruct Hch.
Qed.

Lemma valid_body_accepted (entries : list OfferFormEntry) :
  is_Some (offerRequestBodySchema (request_body (payload_item <$> valid entries)))
  <-> 1 <= length (valid entries) <= 50
      /\ forall e, e ∈ valid entries ->
           entry_offerType e ∈ OFFER_TYPES
           /\ String.length (entry_offerDescription e) <= 2000
           /\ String.length (entry_existingCopy e) <= 5000.
Proof.
  split.
  - intros [offers H].
    apply offerRequestBodySchema_Some, RouteTheorems.request_body_shape in H
      as [Hlen H].
    apply payload_items_within_bounds in H as [_ Hall].
    rewrite length_fmap in Hlen. split; [done|].
    intros e He. destruct (Hall e He) as (? & ? & ?). repeat split; [done|lia|done].
  - intros [Hlen Hall]. exists (offer_of_entry <$> valid entries).
    apply offerRequestBodySchema_Some, RouteTheorems.request_body_shape.
    rewrite length_fmap. split; [done|].
    apply payload_items_within_bounds. split; [done|].
    intros e He. destruct (Hall e He) as (? & ? & ?).
    apply valid_nonblank in He as [_ ?]. repeat split; try done; lia.
Qed.

Lemma discount_is_a_type : "discount"%string ∈ OFFER_TYPES.
Proof. left. Qed.

Lemma updateEntry_ok entry_id patch entries :
  (forall t, patch_offerType patch = Some t -> t ∈ OFFER_TYPES) ->
  form_ok (entries, 0) ->
  length (updateEntry entry_id patch entries) <= 50
  /\ forall e, e ∈ updateEntry entry_id patch entries ->
       entry_offerType e ∈ OFFER_TYPES.
Proof.
  intros Hp [Hlen Hall]. unfold updateEntry. cbn [fst] in *.
  rewrite length_fmap. split; [done|].
  intros e (e0 & -> & He0)%list_elem_of_fmap.
  destruct (String.eqb (id e0) entry_id); [|by apply Hall].
  unfold apply_patch. cbn [entry_offerType].
  destruct (patch_offerType patch) as [t|]; cbn; [by apply Hp|by apply Hall].
Qed.

Lemma interaction_ok f f' :
  interaction randomUUID JSON_parse String_of f f' -> form_ok f -> form_ok f'.
Proof.
  intros Hstep Hok.
  destruct Hstep as [entries drawn Hlt|entries drawn e Hgt He
                    |entries drawn e t He Ht|entries drawn e text He
                    |entries drawn e text He|entries drawn name text drawn' _].
  - destruct Hok as [_ Hall]. unfold form_ok, addEntry. cbn [fst] in *.
    rewrite length_app. split; [simpl; lia|].
    intros e [He|He]%elem_of_app; [by apply Hall|].
    apply list_elem_of_singleton in He as ->. apply discount_is_a_type.
  - destruct Hok as [Hlen Hall]. unfold form_ok, removeEntry. cbn [fst] in *.
    split.
    + etrans; [apply length_filter|done].
    + intros e' [_ He']%list_elem_of_filter. by apply Hall.
  - apply (updateEntry_ok (id e) _ entries); [|by destruct Hok].
    by intros t' [= <-].
  - apply (updateEntry_ok (id e) _ entries); [done|by destruct Hok].
  - apply (updateEntry_ok (id e) _ entries); [done|by destruct Hok].
  - unfold form_ok, handleFileImport. cbn [fst].
    destruct (imported_from _ _ _ drawn name text) as [imported|] eqn:Hi;
      [|by destruct Hok].
    destruct (length imported =? 0); [by destruct Hok|].
    assert (Htypes : forall e, e ∈ take 50 imported ->
              entry_offerType e ∈ OFFER_TYPES).
    { intros e He. eapply imported_types; [exact Hi|].
      by apply (subseteq_take 50 imported). }
    destruct (50 <? length imported) eqn:H50; cbn [fst].
    + split; [rewrite length_take; lia|done].
    + apply Nat.ltb_ge in H50. rewrite take_ge in Htypes by done. by split.
Qed.

(** X14. The form can always be submitted as far as count and category go.
    In every state the form can reach from its initial one by adding,
    removing and editing entries and by importing files, there are at most
    50 entries and each has one of the 8 tags as its [offerType]; so the
    body submitted from it is refused by the server's schema only when an
    entry sent has a description of more than 2000 code units or existing
    copy of more than 5000. *)
Theorem form_stays_submittable (f : form) :
  rtc (interaction randomUUID JSON_parse String_of) (initial_form randomUUID) f ->
  length f.1 <= 50
  /\ (forall e, e ∈ f.1 -> entry_offerType e ∈ OFFER_TYPES)
  /\ (forall body,
        handleSubmit_body f.1 = Some body ->
        is_Some (offerRequestBodySchema body)
        <-> forall e, e ∈ valid f.1 ->
              String.length (entry_offerDescription e) <= 2000
              /\ String.length (entry_existingCopy e) <= 5000).
Proof.
  intros Hreach.
  assert (Hok : form_ok f).
  { revert f Hreach. apply (rtc_ind_r form_ok).
    - split; [simpl; lia|]. intros e He. cbn in He.
      apply list_elem_of_singleton in He as ->. apply discount_is_a_type.
    - intros f f' _ Hstep Hok. by eapply interaction_ok. }
  destruct Hok as [Hlen Hall]. split; [done|]. split; [done|].
  intros body Hbody.
  assert (Hb : body = request_body (payload_item <$> valid f.1)
               /\ 1 <= length (valid f.1)).
  { unfold handleSubmit_body in Hbody.
    destruct (valid f.1) as [|e0 sent]; [done|].
    injection Hbody as <-. split; [done|simpl; lia]. }
  destruct Hb as [-> Hone]. rewrite valid_body_accepted.
  assert (Hsub : forall e, e ∈ valid f.1 -> e ∈ f.1)
    by (intros e He; by apply valid_nonblank in He as [? _]).
  assert (Hvl : length (valid f.1) <= length f.1) by apply length_filter.
  split.
  - intros [_ H] e He. by destruct (H e He) as (_ & ? & ?).
  - intros H. split; [lia|].
    intros e He. destruct (H e He). split; [by apply Hall, Hsub|done].
Qed.

End form.

(** *** At examples *)

(** X12 at a file of a header and two rows. *)
Lemma parseCsvBatch_reads_back_rows_witness :
  parseCsvBatch (fun n => String "u" EmptyString) 0
    (csv_text "offerType,offerDescription,existingCopy"
       [("discount", "20% off shoes", "Get a discount on shoes!");
        ("free-trial", "14-day free trial", "")]%string)
  = imap (entry_of_columns (fun n => String "u" EmptyString) 0)
      [("discount", "20% off shoes", "Get a discount on shoes!");
       ("free-trial", "14-day free trial", "")]%string.
Proof.
  apply (parseCsvBatch_reads_back_rows (fun n => String "u" EmptyString) 0
           "offerType,offerDescription,existingCopy").
  - reflexivity.
  - reflexivity.
  - intros row Hrow.
    repeat (apply elem_of_cons in Hrow as [->|Hrow];
            [by (split; [repeat constructor|by vm_compute])|]).
    by apply elem_of_nil in Hrow.
Defined.

(** X10 at a body of two entries, for a parser that reads that body. *)
Lemma parseJsonBatch_reads_back_a_body_witness :
  parseJsonBatch (fun n => String "u" EmptyString)
    (fun _ => request_body
                (payload_item <$>
                   [mkEntry "a" "discount" "20% off shoes" "Get a discount!";
                    mkEntry "b" "free-trial" "14-day free trial" ""]%string))
    (fun _ => None) 0 "file"
  = Some (imap (fun j e => mkEntry (String "u" EmptyString) (entry_offerType e)
                             (entry_offerDescription e) (entry_existingCopy e))
            [mkEntry "a" "discount" "20% off shoes" "Get a discount!";
             mkEntry "b" "free-trial" "14-day free trial" ""]%string).
Proof.
  apply (parseJsonBatch_reads_back_a_body (fun n => String "u" EmptyString)
           (fun _ => request_body
                       (payload_item <$>
                          [mkEntry "a" "discount" "20% off shoes" "Get a discount!";
                           mkEntry "b" "free-trial" "14-day free trial" ""]%string))
           (fun _ => None) 0 "file").
  - intros e He.
    repeat (apply elem_of_cons in He as [->|He]; [by repeat constructor|]).
    by apply elem_of_nil in He.
  - by right.
Defined.

(** X14 at the form after one click on Add. *)
Lemma form_stays_submittable_witness :
  length (addEntry (fun n => String "u" EmptyString) 1
            [createEmptyEntry (fun n => String "u" EmptyString) 0]) <= 50
  /\ (forall e,
        e ∈ addEntry (fun n => String "u" EmptyString) 1
              [createEmptyEntry (fun n => String "u" EmptyString) 0] ->
        entry_offerType e ∈ OFFER_TYPES)
  /\ (forall body,
        handleSubmit_body
          (addEntry (fun n => String "u" EmptyString) 1
             [createEmptyEntry (fun n => String "u" EmptyString) 0])
        = Some body ->
        is_Some (offerRequestBodySchema body)
        <-> forall e,
              e ∈ valid (addEntry (fun n => String "u" EmptyString) 1
                           [createEmptyEntry (fun n => String "u" EmptyString) 0]) ->
              String.length (entry_offerDescription e) <= 2000
              /\ String.length (entry_existingCopy e) <= 5000).
Proof.
  apply (form_stays_submittable (fun n => String "u" EmptyString)
           (fun _ => None) (fun _ => None)
           (addEntry (fun n => String "u" EmptyString) 1
              [createEmptyEntry (fun n => String "u" EmptyString) 0], 2)).
  apply rtc_once.
  apply (click_add (fun n => String "u" EmptyString) (fun _ => None)
           (fun _ => None)
           [createEmptyEntry (fun n => String "u" EmptyString) 0] 1).
  simpl. lia.
Defined.

(** A file whose kept item has an object for its description, on which
    [String] throws: the import fails to parse and the form stays. *)
Example String_throws_example :
  let JSON_parse := fun _ : string =>
    Some (JArray [JObject [("offerType", JString "discount");
                           ("offerDescription",
                            JObject [("toString", JNumber 1)])]%string]) in
  let String_of := fun v : json =>
    match v with JObject _ | JArray _ => None | _ => Some EmptyString end in
  parseJsonBatch (fun n => String "u" EmptyString) JSON_parse String_of 0 "file"
  = None
  /\ handleFileImport (fun n => String "u" EmptyString) JSON_parse String_of
       1 "offers.json" "file" [mkEntry "a" "bundle" "Shoes and socks" ""]
     = ([mkEntry "a" "bundle" "Shoes and socks" ""],
        [ToastError "Failed to parse file"]).
Proof. by vm_compute. Qed.

(** A CSV file: the header is skipped, the columns are trimmed, the commas
    of the third column onwards are kept, and the line whose first column is
    not a tag is left out. *)
Example parseCsvBatch_example :
  parseCsvBatch (fun n => String "u" EmptyString) 0
    ("type,description,copy" ++ String "010"
       ("discount, 20% off shoes ,Old copy, with a comma" ++ String "010"
          ("voucher,Ten euros," ++ String "010"
             ("bundle,Shoes and socks" ++ String "010" ""))))
  = [mkEntry "u" "discount" "20% off shoes" "Old copy,with a comma";
     mkEntry "u" "bundle" "Shoes and socks" ""].
Proof. by vm_compute. Qed.

(** A CSV file of 51 rows: the form takes the first 50 and both
    notifications are shown. *)
Example handleFileImport_example :
  let outcome :=
    handleFileImport (fun n => String "u" EmptyString)
      (fun _ => None) (fun _ => None) 1 "offers.csv"
      (csv_text "type,description,copy"
         (replicate 51 ("discount", "20% off shoes", "")%string))
      [mkEntry "a" "bundle" "Shoes and socks" ""] in
  outcome.1 = replicate 50 (mkEntry "u" "discount" "20% off shoes" "")
  /\ outcome.2 = [ToastError "Maximum 50 offers per batch"; ToastImported 50].
Proof. by vm_compute. Qed.

End OfferPageFacts.
